(** * Phemossa: the signed event log, its store, gossip and derived views

    A shallow embedding of [lib/events.ts], [lib/storage.ts],
    [lib/gossip.ts], [lib/follow.ts] and [lib/feed.ts], and the properties
    of the event log, the anti-entropy exchange and the follow and feed
    projections that hold (or fail) on that code.

    Conventions of the embedding:
    - a JS string is a [string] (of bytes), a [Uint8Array] a [list byte],
      a timestamp (integer milliseconds) a [Z];
    - an optional field ([k?: T], possibly [undefined]) is an [option];
    - an IndexedDB object store is the list of its records in ascending
      primary-key order, which is the order in which [getAll] and cursors
      deliver them;
    - a [Set<string>] that is only tested and extended is a [gset string];
      a [Set] that is enumerated is a duplicate-free list in insertion
      order;
    - a rejected promise (an uncaught exception) is [None]. *)

From Stdlib Require Import ZArith List String Ascii Bool Lia.
From Stdlib Require Import Sorting.Sorted Strings.Byte DecimalString.
From Stdlib Require OrderedTypeEx.
From stdpp Require Import base gmap strings.
From Equations Require Import Equations.
Import ListNotations.

Local Open Scope Z_scope.

Abbreviation byte := Init.Byte.byte.

(** ** Strings *)

Module Str.

(** White space removed by [String.prototype.trim] (the ASCII part). *)
Definition is_white (c : ascii) : bool :=
  let n := nat_of_ascii c in
  ((9 <=? n)%nat && (n <=? 13)%nat) || (n =? 32)%nat.

Fixpoint trimStart (s : string) : string :=
  match s with
  | EmptyString => EmptyString
  | String c r => if is_white c then trimStart r else s
  end.

(** [trimEnd s] drops the trailing white space: a character is kept when
    something that is kept follows it, or when it is not white. *)
Fixpoint trimEnd (s : string) : string :=
  match s with
  | EmptyString => EmptyString
  | String c r =>
      match trimEnd r with
      | EmptyString => if is_white c then EmptyString else String c EmptyString
      | r' => String c r'
      end
  end.

Definition trim (s : string) : string := trimEnd (trimStart s).

Definition lower (c : ascii) : ascii :=
  let n := nat_of_ascii c in
  if ((65 <=? n)%nat && (n <=? 90)%nat)%bool then ascii_of_nat (n + 32) else c.

Fixpoint toLowerCase (s : string) : string :=
  match s with
  | EmptyString => EmptyString
  | String c r => String (lower c) (toLowerCase r)
  end.

Fixpoint filter (p : ascii -> bool) (s : string) : string :=
  match s with
  | EmptyString => EmptyString
  | String c r => if p c then String c (filter p r) else filter p r
  end.

(** [s.slice(0, n)] for [0 <= n]. *)
Fixpoint slice0 (n : nat) (s : string) : string :=
  match n, s with
  | O, _ => EmptyString
  | _, EmptyString => EmptyString
  | S n', String c r => String c (slice0 n' r)
  end.

(** The class [[a-z0-9_]]. *)
Definition is_word (c : ascii) : bool :=
  let n := nat_of_ascii c in
  ((97 <=? n)%nat && (n <=? 122)%nat)
  || ((48 <=? n)%nat && (n <=? 57)%nat)
  || (n =? 95)%nat.

(** A string in a boolean position: the empty string is falsy. *)
Definition truthy (s : string) : bool := negb (String.eqb s EmptyString).

(** [a || b] on strings. *)
Definition or_else (a b : string) : string := if truthy a then a else b.

End Str.

(** ** JSON values handed to [JSON.stringify] *)

#[local] Set Warnings "-register-all".

Inductive JSON : Type :=
| JString (s : string)
| JNumber (n : Z)
| JArray (l : list JSON)
| JObject (fields : list (string * JSON)).

(** A property whose value is [undefined] is left out by [JSON.stringify]. *)
Definition field {A : Type} (k : string) (f : A -> JSON) (v : option A)
  : list (string * JSON) :=
  match v with
  | Some a => [(k, f a)]
  | None => []
  end.

(** ** Event model ([lib/events.ts]) *)

Record EncryptedPostContent : Type := {
  ciphertext : string;
  ephemeralPublicKey : string;
  keys : list (string * string)
}.

Record PostContent : Type := {
  topic : option string;
  text : option string;
  mentions : option (list string);
  replyTo : option string;
  encrypted : option EncryptedPostContent
}.

(** [content] of the four event interfaces. *)
Inductive Content : Type :=
| CPost (c : PostContent)
| CFollow (target : string) (encryptionPublicKey : option string)
| CUnfollow (target : string)
| CProfile (displayName username bio : option string).

(** [BaseEvent].  [type] is the string the event carries: an event read off
    the wire may carry any. *)
Record Event : Type := {
  id : string;
  type : string;
  author : string;
  timestamp : Z;
  signature : string;
  content : Content
}.

Definition DEFAULT_TOPIC : string := "general".

(** [content.target] *)
Definition content_target (c : Content) : option string :=
  match c with
  | CFollow t _ | CUnfollow t => Some t
  | _ => None
  end.

(** [content.topic] *)
Definition content_topic (c : Content) : option string :=
  match c with
  | CPost p => topic p
  | _ => None
  end.

(** [content.encryptionPublicKey] *)
Definition content_encryptionPublicKey (c : Content) : option string :=
  match c with
  | CFollow _ k => k
  | _ => None
  end.

Definition encryptedJSON (e : EncryptedPostContent) : JSON :=
  JObject [("ciphertext", JString (ciphertext e));
           ("ephemeralPublicKey", JString (ephemeralPublicKey e));
           ("keys", JObject (map (fun kv => (fst kv, JString (snd kv))) (keys e)))].

(** The content object as [JSON.stringify] sees it, keys in the order the
    object literals of the [create*Event] functions list them. *)
Definition contentJSON (c : Content) : JSON :=
  match c with
  | CPost p =>
      JObject (field "topic" JString (topic p)
               ++ field "text" JString (text p)
               ++ field "mentions" (fun l => JArray (map JString l)) (mentions p)
               ++ field "replyTo" JString (replyTo p)
               ++ field "encrypted" encryptedJSON (encrypted p))
  | CFollow t k =>
      JObject (("target", JString t) :: field "encryptionPublicKey" JString k)
  | CUnfollow t => JObject [("target", JString t)]
  | CProfile d u b =>
      JObject (field "displayName" JString d
               ++ field "username" JString u
               ++ field "bio" JString b)
  end.

(** ** Object stores ([idb]) *)

Section ObjectStore.
Context {V : Type} (keyPath : V -> string).

(** [store.put(v)]: insert at the key's place, replacing a record with
    the same key. *)
Fixpoint put (v : V) (s : list V) : list V :=
  match s with
  | [] => [v]
  | x :: r =>
      match String.compare (keyPath v) (keyPath x) with
      | Lt => v :: x :: r
      | Eq => v :: r
      | Gt => x :: put v r
      end
  end.

(** [store.get(k)] *)
Definition get (k : string) (s : list V) : option V :=
  List.find (fun x => String.eqb (keyPath x) k) s.

(** [store.count(k)] *)
Definition count (k : string) (s : list V) : nat :=
  List.length (List.filter (fun x => String.eqb (keyPath x) k) s).
End ObjectStore.

(** [index.openCursor(IDBKeyRange.only(k))]: the records whose index key is
    [k], in primary-key order; a record without the indexed property is not
    in the index. *)
Definition cursor_only {V : Type} (index : V -> option string) (k : string)
    (s : list V) : list V :=
  List.filter (fun x => match index x with
                        | Some k' => String.eqb k' k
                        | None => false
                        end) s.

(** [arr.sort(cmp)]: a stable sort; [cmp a b <= 0] keeps [a] before [b]. *)
Section ArraySort.
Context {A : Type} (cmp : A -> A -> Z).

Fixpoint sort_insert (x : A) (l : list A) : list A :=
  match l with
  | [] => [x]
  | y :: r => if cmp x y <=? 0 then x :: y :: r else y :: sort_insert x r
  end.

Definition sort (l : list A) : list A := List.fold_right sort_insert [] l.
End ArraySort.

(** [arr.slice(0, n)] for an integer [n]: a negative [n] counts from the
    end. *)
Definition slice0 {A : Type} (n : Z) (l : list A) : list A :=
  if n <? 0 then List.firstn (Z.to_nat (Z.of_nat (List.length l) + n)) l
  else List.firstn (Z.to_nat n) l.

(** ** Storage layer ([lib/storage.ts]) *)

Record ProfileRow : Type := {
  row_author : string;
  row_displayName : option string;
  row_username : option string;
  row_bio : option string;
  updatedAt : Z
}.

(** The database: the [events], [follows] and [profiles] stores ([peers]
    and [settings] take no part in what follows). *)
Record DB : Type := {
  events : list Event;
  follows : list Event;
  profiles : list ProfileRow
}.

Definition emptyDB : DB := {| events := []; follows := []; profiles := [] |}.

(** newest first *)
Definition byTimestampDesc (a b : Event) : Z := timestamp b - timestamp a.
(** oldest first *)
Definition byTimestampAsc (a b : Event) : Z := timestamp a - timestamp b.

(** [ev.content.displayName], [.username], [.bio]: undefined on a content
    of another shape. *)
Definition content_displayName (c : Content) : option string :=
  match c with CProfile d _ _ => d | _ => None end.
Definition content_username (c : Content) : option string :=
  match c with CProfile _ u _ => u | _ => None end.
Definition content_bio (c : Content) : option string :=
  match c with CProfile _ _ b => b | _ => None end.

(** The row [storeEvent] writes for a profile event. *)
Definition profileRow (ev : Event) : ProfileRow :=
  {| row_author := author ev;
     row_displayName := content_displayName (content ev);
     row_username := content_username (content ev);
     row_bio := content_bio (content ev);
     updatedAt := timestamp ev |}.

Definition is_profile (e : Event) : bool := String.eqb (type e) "profile".

Definition storeEvent (event : Event) (db : DB) : DB :=
  {| events := put id event (events db);
     follows := follows db;
     profiles := if is_profile event
                 then put row_author (profileRow event) (profiles db)
                 else profiles db |}.

Definition getProfile (author : string) (db : DB)
  : option (option string * option string * option string) :=
  match get row_author author (profiles db) with
  | None => None
  | Some row =>
      Some (option_map Str.trim (row_displayName row),
            option_map Str.trim (row_username row),
            option_map Str.trim (row_bio row))
  end.

(** [storeEvents]: the events store only, no profile projection. *)
Definition storeEvents (evs : list Event) (db : DB) : DB :=
  {| events := List.fold_left (fun s e => put id e s) evs (events db);
     follows := follows db;
     profiles := profiles db |}.

Definition getEvent (eventId : string) (db : DB) : option Event :=
  get id eventId (events db).

Definition hasEvent (eventId : string) (db : DB) : bool :=
  (0 <? count id eventId (events db))%nat.

(** The [by-timestamp] cursor over an optional closed range, then the
    final sort.  A range with [since] above [until], on which
    [IDBKeyRange.bound] throws, is not modelled: the list is empty there. *)
Definition getEventsInRange (since until : option Z) (db : DB) : list Event :=
  let inRange (e : Event) :=
    match since, until with
    | Some s, Some u => (s <=? timestamp e) && (timestamp e <=? u)
    | Some s, None => s <=? timestamp e
    | None, Some u => timestamp e <=? u
    | None, None => true
    end in
  let cursor := sort byTimestampAsc (List.filter inRange (events db)) in
  sort byTimestampDesc cursor.

Definition is_post (e : Event) : bool := String.eqb (type e) "post".

Definition normalizedTopic (e : Event) : string :=
  Str.toLowerCase (Str.trim (default DEFAULT_TOPIC (content_topic (content e)))).

Definition getPostsByTopic (topic : string) (limit : Z) (db : DB) : list Event :=
  let all := getEventsInRange None None db in
  let normalized := Str.or_else (Str.toLowerCase (Str.trim topic)) DEFAULT_TOPIC in
  let posts :=
    List.filter (fun e => is_post e && String.eqb (normalizedTopic e) normalized) all in
  slice0 limit (sort byTimestampDesc posts).

(** The cursor loop [while (cursor && (!limit || events.length < limit))]:
    with a limit, at most [limit] records are read. *)
Definition getEventsByAuthor (author' : string) (limit : option nat) (db : DB)
  : list Event :=
  let cursor := cursor_only (fun e => Some (author e)) author' (events db) in
  match limit with
  | None | Some O => sort byTimestampDesc cursor
  | Some n => List.firstn n (sort byTimestampDesc (List.firstn n cursor))
  end.

Definition storeFollow (follow : Event) (db : DB) : DB :=
  {| events := events db;
     follows := put id follow (follows db);
     profiles := profiles db |}.

Definition getFollowsByAuthor (author' : string) (db : DB) : list Event :=
  sort byTimestampDesc (cursor_only (fun e => Some (author e)) author' (follows db)).

Definition getFollowersOf (author' : string) (db : DB) : list Event :=
  sort byTimestampDesc
    (cursor_only (fun e => content_target (content e)) author' (follows db)).

(** The cursor loop of [isFollowing]: the first record of the follower
    whose target is the followee ends the scan with [true]. *)
Fixpoint isFollowing_scan (cursor : list Event) (followee : string) : bool :=
  match cursor with
  | [] => false
  | v :: rest =>
      match content_target (content v) with
      | Some t => if String.eqb t followee then true
                  else isFollowing_scan rest followee
      | None => isFollowing_scan rest followee
      end
  end.

Definition isFollowing (follower followee : string) (db : DB) : bool :=
  isFollowing_scan (cursor_only (fun e => Some (author e)) follower (follows db))
                   followee.

(** [new Set(arr)] as it enumerates: first occurrences, in order. *)
Fixpoint newSet (l : list string) : list string :=
  match l with
  | [] => []
  | x :: r => x :: List.filter (fun y => negb (String.eqb y x)) (newSet r)
  end.

(** [set.has(x)] on an enumerated set. *)
Definition has (x : string) (l : list string) : bool :=
  List.existsb (String.eqb x) l.

Definition getAllEventIds (db : DB) : list string := newSet (map id (events db)).

(** ** Platform primitives

    What the browser and the ed25519 library provide; the code only calls
    them.  [ed25519_verify] may fail on malformed input ([None]), as may
    [atob]. *)

Class Platform : Type := {
  JSON_stringify : JSON -> string;
  SHA256 : list byte -> list byte;
  ed25519_sign : list byte -> list byte -> list byte;
  ed25519_verify : list byte -> list byte -> list byte -> option bool;
  (** [btoa(String.fromCharCode(...bytes))] *)
  btoa : list byte -> string;
  (** [Uint8Array.from(atob(s), c => c.charCodeAt(0))] *)
  atob : string -> option (list byte)
}.

(** [new TextEncoder().encode(s)] *)
Definition TextEncoder_encode (s : string) : list byte := list_byte_of_string s.

Definition hexDigit (n : nat) : ascii :=
  if (n <? 10)%nat then ascii_of_nat (48 + n) else ascii_of_nat (87 + n).

(** [b.toString(16).padStart(2, '0')] *)
Definition hex2 (b : byte) : string :=
  let n := Byte.to_nat b in
  String (hexDigit (n / 16)) (String (hexDigit (n mod 16)) EmptyString).

Definition hex (bs : list byte) : string :=
  List.fold_right (fun b acc => String.append (hex2 b) acc) EmptyString bs.

Section EventModel.
Context `{Platform}.

(** [signMessage] and [verifySignature] of [lib/identity.ts].  The latter
    returns the promise of [ed25519.verify] from inside its [try] without
    awaiting it, so a failure of the library is not caught there: it
    reaches the caller ([None]). *)
Definition signMessage (message privateKey : list byte) : list byte :=
  ed25519_sign message privateKey.

Definition verifySignature (message signature publicKey : list byte)
  : option bool :=
  ed25519_verify signature message publicKey.

Definition publicKeyToString (publicKey : list byte) : string := btoa publicKey.

(** [createEventIdAsync] over the event without [id] and [signature]. *)
Definition createEventIdAsync (type author : string) (timestamp : Z)
    (content : Content) : string :=
  let canonical :=
    JSON_stringify (JObject [("type", JString type);
                             ("author", JString author);
                             ("timestamp", JNumber timestamp);
                             ("content", contentJSON content)]) in
  hex (SHA256 (TextEncoder_encode canonical)).

(** The tail shared by the four constructors: hash, sign, assemble. *)
Definition signEvent (type author : string) (timestamp : Z) (content : Content)
    (authorPrivateKey : list byte) : Event :=
  let id := createEventIdAsync type author timestamp content in
  let message :=
    TextEncoder_encode (String.append id (JSON_stringify (contentJSON content))) in
  let signature := signMessage message authorPrivateKey in
  {| id := id; type := type; author := author; timestamp := timestamp;
     signature := btoa signature; content := content |}.

(** [now] is the value of [Date.now()]. *)
Definition createPostEvent (now : Z) (text : string)
    (authorPublicKey authorPrivateKey : list byte)
    (mentions : option (list string)) (replyTo : option string)
    (encryptedPayload : option EncryptedPostContent) (topic : option string)
  : Event :=
  let author := publicKeyToString authorPublicKey in
  let topicVal :=
    match topic with
    | Some t => Str.or_else (Str.trim t) DEFAULT_TOPIC
    | None => DEFAULT_TOPIC
    end in
  let content :=
    match encryptedPayload with
    | Some payload =>
        {| topic := Some topicVal; text := None; mentions := None;
           replyTo := None; encrypted := Some payload |}
    | None =>
        {| topic := Some topicVal; text := Some text; mentions := mentions;
           replyTo := match replyTo with
                      | Some r => if Str.truthy r then Some r else None
                      | None => None
                      end;
           encrypted := None |}
    end in
  signEvent "post" author now (CPost content) authorPrivateKey.

Definition createFollowEvent (now : Z)
    (targetPublicKey authorPublicKey authorPrivateKey : list byte)
    (encryptionPublicKeyBase64 : option string) : Event :=
  let author := publicKeyToString authorPublicKey in
  let target := publicKeyToString targetPublicKey in
  let enc := match encryptionPublicKeyBase64 with
             | Some k => if Str.truthy k then Some k else None
             | None => None
             end in
  signEvent "follow" author now (CFollow target enc) authorPrivateKey.

Definition createProfileEvent (now : Z)
    (authorPublicKey authorPrivateKey : list byte)
    (displayName username bio : option string) : Event :=
  let author := publicKeyToString authorPublicKey in
  let clean :=
    CProfile
      (option_map (fun s => Str.slice0 32 (Str.trim s)) displayName)
      (option_map (fun s => Str.slice0 30
                     (Str.filter Str.is_word (Str.toLowerCase (Str.trim s))))
                  username)
      (option_map (fun s => Str.slice0 160 (Str.trim s)) bio) in
  signEvent "profile" author now clean authorPrivateKey.

Definition createUnfollowEvent (now : Z)
    (targetPublicKey authorPublicKey authorPrivateKey : list byte) : Event :=
  let author := publicKeyToString authorPublicKey in
  let target := publicKeyToString targetPublicKey in
  signEvent "unfollow" author now (CUnfollow target) authorPrivateKey.

(** [verifyEvent]: [None] when [atob] throws on the signature or the
    author, or when the verification of the signature fails to run. *)
Definition verifyEvent (event : Event) : option bool :=
  let expectedId :=
    createEventIdAsync (type event) (author event) (timestamp event)
                       (content event) in
  if negb (String.eqb expectedId (id event)) then Some false
  else
    let message :=
      TextEncoder_encode
        (String.append (id event) (JSON_stringify (contentJSON (content event)))) in
    match atob (signature event) with
    | None => None
    | Some signature =>
        match atob (author event) with
        | None => None
        | Some publicKey => verifySignature message signature publicKey
        end
    end.

Definition knownTypes : list string := ["post"; "follow"; "unfollow"].

Definition isValidEvent (event : Event) : option bool :=
  if negb (Str.truthy (id event)) || negb (Str.truthy (type event))
     || negb (Str.truthy (author event)) || negb (Str.truthy (signature event))
  then Some false
  else if negb (List.existsb (String.eqb (type event)) knownTypes)
  then Some false
  else verifyEvent event.

End EventModel.

(** ** Gossip protocol ([lib/gossip.ts]) *)

Definition PeerId : Type := string.

Definition MAX_BATCH_SIZE : nat := 100.

Inductive GossipMessage : Type :=
| SyncRequest (eventIds : list string)
| SyncResponse (missingIds theirMissingIds : list string)
| EventRequest (eventIds : list string)
| EventResponse (events : list Event)
| NewEvent (event : Event).

(** The fields of [GossipProtocol] that carry state. *)
Record GossipProtocol : Type := {
  seenEventIds : gset string;
  eventQueue : list Event;
  processingQueue : bool
}.

(** One process: the database singleton and its gossip instance. *)
Record Node : Type := {
  db : DB;
  gossip : GossipProtocol
}.

(** A message handed to [network.sendMessage] for a peer. *)
Definition Send : Type := (PeerId * GossipMessage)%type.

(** [arr.slice(i, j)] for [0 <= i <= j]. *)
Definition slice {A : Type} (i j : nat) (l : list A) : list A :=
  List.firstn (j - i) (List.skipn i l).

(** The loop of [requestEvents], from index [i] on:
    [for (let i = 0; i < eventIds.length; i += MAX_BATCH_SIZE)]. *)
Equations? requestEvents_from (eventIds : list string) (i : nat)
  : list GossipMessage by wf (List.length eventIds - i)%nat lt :=
  requestEvents_from eventIds i with lt_dec i (List.length eventIds) => {
    | left _ := EventRequest (slice i (i + MAX_BATCH_SIZE) eventIds)
                  :: requestEvents_from eventIds (i + MAX_BATCH_SIZE);
    | right _ := [] }.
Proof. unfold MAX_BATCH_SIZE. lia. Qed.

Definition requestEvents (peerId : PeerId) (eventIds : list string) : list Send :=
  map (fun m => (peerId, m)) (requestEvents_from eventIds 0).

Definition syncWithPeer (peerId : PeerId) (n : Node) : list Send :=
  [(peerId, SyncRequest (getAllEventIds (db n)))].

Definition handleSyncRequest (peerId : PeerId) (eventIds : list string) (n : Node)
  : list Send :=
  let theirEventIds := newSet eventIds in
  let ourEventIds := getAllEventIds (db n) in
  let missingIds := List.filter (fun i => negb (has i ourEventIds)) theirEventIds in
  let theirMissingIds := List.filter (fun i => negb (has i theirEventIds)) ourEventIds in
  (peerId, SyncResponse theirMissingIds missingIds)
    :: (if (0 <? List.length missingIds)%nat then requestEvents peerId missingIds
        else []).

Definition handleSyncResponse (peerId : PeerId) (missingIds : list string)
  : list Send :=
  if (0 <? List.length missingIds)%nat then requestEvents peerId missingIds else [].

Fixpoint lookupEvents (eventIds : list string) (d : DB) : list Event :=
  match eventIds with
  | [] => []
  | i :: r =>
      match getEvent i d with
      | Some e => e :: lookupEvents r d
      | None => lookupEvents r d
      end
  end.

Definition handleEventRequest (peerId : PeerId) (eventIds : list string) (n : Node)
  : list Send :=
  [(peerId, EventResponse (lookupEvents eventIds (db n)))].

Definition markSeen (i : string) (g : GossipProtocol) : GossipProtocol :=
  {| seenEventIds := {[ i ]} ∪ seenEventIds g;
     eventQueue := eventQueue g;
     processingQueue := processingQueue g |}.

Definition enqueue (e : Event) (g : GossipProtocol) : GossipProtocol :=
  {| seenEventIds := seenEventIds g;
     eventQueue := eventQueue g ++ [e];
     processingQueue := processingQueue g |}.

(** [processEventQueue]: the single worker; every queued event goes to
    every connected peer as [new-event]. *)
Definition processEventQueue (peers : list PeerId) (g : GossipProtocol)
  : GossipProtocol * list Send :=
  if processingQueue g then (g, [])
  else
    ({| seenEventIds := seenEventIds g; eventQueue := []; processingQueue := false |},
     List.flat_map (fun e => map (fun p => (p, NewEvent e)) peers) (eventQueue g)).

Section Gossip.
Context `{Platform}.

(** [processIncomingEvent]; [peers] are the connected peers.  [None] when
    validation throws, which happens before anything is written.  The
    queue worker that a stored event starts runs here at once. *)
Definition processIncomingEvent (peers : list PeerId) (event : Event) (n : Node)
  : option (Node * list Send) :=
  if decide (id event ∈ seenEventIds (gossip n)) then Some (n, [])
  else
    match isValidEvent event with
    | None => None
    | Some false => Some (n, [])
    | Some true =>
        if hasEvent (id event) (db n)
        then Some ({| db := db n; gossip := markSeen (id event) (gossip n) |}, [])
        else
          let g := enqueue event (markSeen (id event) (gossip n)) in
          let '(g', rebroadcast) :=
            if negb (processingQueue g) then processEventQueue peers g
            else (g, []) in
          Some ({| db := storeEvent event (db n); gossip := g' |}, rebroadcast)
    end.

(** [handleEventResponse]: an exception ends the loop; what was processed
    before it stays. *)
Fixpoint handleEventResponse (peers : list PeerId) (evs : list Event) (n : Node)
  : Node * list Send :=
  match evs with
  | [] => (n, [])
  | e :: r =>
      match processIncomingEvent peers e n with
      | Some (n1, out1) =>
          let '(n2, out2) := handleEventResponse peers r n1 in
          (n2, out1 ++ out2)
      | None => (n, [])
      end
  end.

Definition handleNewEvent (peers : list PeerId) (event : Event) (n : Node)
  : Node * list Send :=
  match processIncomingEvent peers event n with
  | Some r => r
  | None => (n, [])
  end.

(** [handleMessage] for a message of peer [peerId]. *)
Definition handleMessage (peers : list PeerId) (peerId : PeerId)
    (message : GossipMessage) (n : Node) : Node * list Send :=
  match message with
  | SyncRequest eventIds => (n, handleSyncRequest peerId eventIds n)
  | SyncResponse missingIds _ => (n, handleSyncResponse peerId missingIds)
  | EventRequest eventIds => (n, handleEventRequest peerId eventIds n)
  | EventResponse evs => handleEventResponse peers evs n
  | NewEvent event => handleNewEvent peers event n
  end.

(** [broadcastEvent]: local origin. *)
Definition broadcastEvent (peers : list PeerId) (event : Event) (n : Node)
  : Node * list Send :=
  ({| db := storeEvent event (db n); gossip := markSeen (id event) (gossip n) |},
   map (fun p => (p, NewEvent event)) peers).

(** [start]: the seen set is loaded from the store. *)
Definition start (d : DB) : Node :=
  {| db := d;
     gossip := {| seenEventIds := list_to_set (getAllEventIds d);
                  eventQueue := [];
                  processingQueue := false |} |}.

End Gossip.

(** ** Follow system ([lib/follow.ts]) *)

(** [set.add(x)] and [set.delete(x)] on an enumerated set. *)
Definition setAdd (x : string) (l : list string) : list string :=
  if has x l then l else l ++ [x].

Definition setDelete (x : string) (l : list string) : list string :=
  List.filter (fun y => negb (String.eqb y x)) l.

(** The replay loop shared by [getFollowing] and [getFollowers]: [key]
    reads the member the loop adds or deletes; the state is the pair of
    sets [(following, unfollowed)].  The stores hold [FollowEvent |
    UnfollowEvent] records, which have the member; a record without it
    changes nothing. *)
Definition replayStep (key : Event -> option string)
    (st : list string * list string) (follow : Event)
  : list string * list string :=
  match key follow with
  | None => st
  | Some k =>
      if String.eqb (type follow) "follow"
      then (setAdd k (fst st), setDelete k (snd st))
      else if String.eqb (type follow) "unfollow"
      then (setDelete k (fst st), setAdd k (snd st))
      else st
  end.

Definition replay (key : Event -> option string) (sorted : list Event)
  : list string :=
  fst (List.fold_left (replayStep key) sorted ([], [])).

Section FollowSystem.
Context `{Platform}.

(** [myPublicKey] is the field of the [FollowSystem]; [peers] are the
    connected peers the broadcast goes to. *)
Definition follow (peers : list PeerId) (now : Z)
    (myPublicKey targetPublicKey myPrivateKey : list byte)
    (encryptionPublicKeyBase64 : option string) (n : Node)
  : Node * list Send * Event :=
  let followEvent :=
    createFollowEvent now targetPublicKey myPublicKey myPrivateKey
                      encryptionPublicKeyBase64 in
  let n1 := {| db := storeFollow followEvent (db n); gossip := gossip n |} in
  let '(n2, out) := broadcastEvent peers followEvent n1 in
  (n2, out, followEvent).

Definition unfollow (peers : list PeerId) (now : Z)
    (myPublicKey targetPublicKey myPrivateKey : list byte) (n : Node)
  : Node * list Send * Event :=
  let unfollowEvent :=
    createUnfollowEvent now targetPublicKey myPublicKey myPrivateKey in
  let '(n2, out) := broadcastEvent peers unfollowEvent n in
  (n2, out, unfollowEvent).

Definition checkFollowing (myPublicKey targetPublicKey : list byte) (d : DB)
  : bool :=
  isFollowing (publicKeyToString myPublicKey) (publicKeyToString targetPublicKey) d.

Definition getFollowing (myPublicKey : list byte) (d : DB) : list string :=
  let follows := getFollowsByAuthor (publicKeyToString myPublicKey) d in
  let sortedFollows := sort byTimestampAsc follows in
  replay (fun e => content_target (content e)) sortedFollows.

Definition getFollowers (myPublicKey : list byte) (d : DB) : list string :=
  let followers := getFollowersOf (publicKeyToString myPublicKey) d in
  let sortedFollowers := sort byTimestampAsc followers in
  replay (fun e => Some (author e)) sortedFollowers.

End FollowSystem.

(** ** Feed engine ([lib/feed.ts]) *)

Module FeedItem.
Record t : Type := {
  event : Event;
  author : string;
  timestamp : Z
}.
End FeedItem.

Definition toItem (e : Event) : FeedItem.t :=
  {| FeedItem.event := e;
     FeedItem.author := author e;
     FeedItem.timestamp := timestamp e |}.

Definition byItemDesc (a b : FeedItem.t) : Z :=
  FeedItem.timestamp b - FeedItem.timestamp a.

(** The fields of [FeedEngine] behind [getFeedItems] (the subscriber set
    and the last update time are left out). *)
Record FeedEngine : Type := {
  feedItems : list FeedItem.t;
  topicFilter : option string;
  topicFeedItems : list FeedItem.t
}.

Definition newFeedEngine : FeedEngine :=
  {| feedItems := []; topicFilter := None; topicFeedItems := [] |}.

(** [items.some(item => item.event.id === i)] *)
Definition someId (i : string) (items : list FeedItem.t) : bool :=
  List.existsb (fun item => String.eqb (id (FeedItem.event item)) i) items.

(** The condition under which [addEvent] puts a post into the topic feed:
    a filter is set, the post's topic is the filter's, and the post is not
    in the topic feed yet. *)
Definition forTopic (ev : Event) (fe : FeedEngine) : bool :=
  match topicFilter fe with
  | Some f =>
      Str.truthy f
      && String.eqb (normalizedTopic ev) (Str.toLowerCase (Str.trim f))
      && negb (someId (id ev) (topicFeedItems fe))
  | None => false
  end.

Section FeedEngine.
Context `{Platform}.

Definition refresh (myPublicKey : list byte) (d : DB) (fe : FeedEngine)
  : FeedEngine :=
  let following := getFollowing myPublicKey d in
  let myPublicKeyStr := publicKeyToString myPublicKey in
  let authors := newSet (myPublicKeyStr :: following) in
  let allPosts :=
    List.flat_map (fun a => List.filter is_post (getEventsByAuthor a None d))
                  authors in
  {| feedItems := sort byItemDesc (map toItem allPosts);
     topicFilter := topicFilter fe;
     topicFeedItems := topicFeedItems fe |}.

Definition addEvent (myPublicKey : list byte) (d : DB) (ev : Event)
    (fe : FeedEngine) : FeedEngine :=
  if negb (is_post ev) then fe
  else
    let myPublicKeyStr := publicKeyToString myPublicKey in
    let following := getFollowing myPublicKey d in
    let forHome := String.eqb (author ev) myPublicKeyStr || has (author ev) following in
    {| feedItems := if forHome && negb (someId (id ev) (feedItems fe))
                    then sort byItemDesc (feedItems fe ++ [toItem ev])
                    else feedItems fe;
       topicFilter := topicFilter fe;
       topicFeedItems := if forTopic ev fe then toItem ev :: topicFeedItems fe
                         else topicFeedItems fe |}.

Definition setTopicFilter (topic : option string) (fe : FeedEngine) : FeedEngine :=
  {| feedItems := feedItems fe;
     topicFilter := match topic with
                    | Some t => if Str.truthy (Str.trim t) then Some (Str.trim t)
                                else None
                    | None => None
                    end;
     topicFeedItems := topicFeedItems fe |}.

Definition refreshTopicFeed (topic : string) (d : DB) (fe : FeedEngine)
  : FeedEngine :=
  {| feedItems := feedItems fe;
     topicFilter := topicFilter fe;
     topicFeedItems := map toItem (getPostsByTopic topic 100 d) |}.

Definition clear (fe : FeedEngine) : FeedEngine :=
  {| feedItems := [];
     topicFilter := topicFilter fe;
     topicFeedItems := topicFeedItems fe |}.

Definition getFeedItems (limit : option Z) (fe : FeedEngine) : list FeedItem.t :=
  let items :=
    match topicFilter fe with
    | Some f => if Str.truthy f then topicFeedItems fe else feedItems fe
    | None => feedItems fe
    end in
  match limit with
  | Some l => if l =? 0 then items else slice0 l items
  | None => items
  end.

(** The mutating operations of the engine; each carries the database as
    it is when the operation runs. *)
Inductive FeedOp : Type :=
| Refresh (d : DB)
| AddEvent (d : DB) (ev : Event)
| SetTopicFilter (topic : option string)
| RefreshTopicFeed (topic : string) (d : DB)
| Clear.

Definition feedStep (myPublicKey : list byte) (fe : FeedEngine) (op : FeedOp)
  : FeedEngine :=
  match op with
  | Refresh d => refresh myPublicKey d fe
  | AddEvent d ev => addEvent myPublicKey d ev fe
  | SetTopicFilter topic => setTopicFilter topic fe
  | RefreshTopicFeed topic d => refreshTopicFeed topic d fe
  | Clear => clear fe
  end.

Definition feedRun (myPublicKey : list byte) (ops : list FeedOp) : FeedEngine :=
  List.fold_left (feedStep myPublicKey) ops newFeedEngine.

End FeedEngine.

(** ** Two connected peers

    The network as the anti-entropy exchange sees it: peers [A] and [B],
    each the only connected peer of the other, and the messages in flight
    in each direction, delivered in order.  Sends succeed. *)

Definition peerA : PeerId := "A".
Definition peerB : PeerId := "B".

Record Net : Type := {
  nodeA : Node;
  nodeB : Node;
  toA : list GossipMessage;
  toB : list GossipMessage
}.

(** The messages among [out] sent to peer [p]. *)
Definition inbox (p : PeerId) (out : list Send) : list GossipMessage :=
  map snd (List.filter (fun s => String.eqb (fst s) p) out).

Section TwoPeers.
Context `{Platform}.

(** A peer handles the messages that arrived from [peerId], in order. *)
Fixpoint handleAll (peers : list PeerId) (peerId : PeerId)
    (msgs : list GossipMessage) (n : Node) : Node * list Send :=
  match msgs with
  | [] => (n, [])
  | m :: r =>
      let '(n1, out1) := handleMessage peers peerId m n in
      let '(n2, out2) := handleAll peers peerId r n1 in
      (n2, out1 ++ out2)
  end.

Definition deliverToB (net : Net) : Net :=
  let '(b, out) := handleAll [peerA] peerA (toB net) (nodeB net) in
  {| nodeA := nodeA net; nodeB := b;
     toA := toA net ++ inbox peerA out; toB := [] |}.

Definition deliverToA (net : Net) : Net :=
  let '(a, out) := handleAll [peerB] peerB (toA net) (nodeA net) in
  {| nodeA := a; nodeB := nodeB net;
     toA := []; toB := toB net ++ inbox peerB out |}.

(** [A] connects to [B] and runs [syncWithPeer]. *)
Definition connect (a b : Node) : Net :=
  {| nodeA := a; nodeB := b; toA := []; toB := inbox peerB (syncWithPeer peerB a) |}.

(** One bidirectional exchange: the sync-request, the sync-response with
    [B]'s event-requests, [A]'s event-requests and event-responses, [B]'s
    event-responses, and the new-event rebroadcasts of what each side
    learned. *)
Definition exchange (a b : Node) : Net :=
  deliverToB (deliverToA (deliverToB (deliverToA (deliverToB (connect a b))))).

End TwoPeers.

(** ** A small executable platform

    Concrete stand-ins for the primitives, so that the definitions run on
    concrete events: a printer for JSON values, a two-byte checksum for the
    hash, a keyed checksum for signatures (the public key equals the
    private one), and the identity for base64. *)

Module Sim.

Definition showZ (n : Z) : string := NilZero.string_of_int (Z.to_int n).

Fixpoint join (l : list string) : string :=
  match l with
  | [] => EmptyString
  | [x] => x
  | x :: r => String.append x (String.append "," (join r))
  end.

Fixpoint show (j : JSON) : string :=
  match j with
  | JString s => String.append "'" (String.append s "'")
  | JNumber n => showZ n
  | JArray l => String.append "[" (String.append (join (map show l)) "]")
  | JObject fs =>
      String.append "{"
        (String.append
           (join (map (fun kv => match kv with
                                 | (k, v) => String.append k (String.append ":" (show v))
                                 end) fs))
           "}")
  end.

Definition checksum (bs : list byte) : list byte :=
  let h := List.fold_left (fun acc b => ((acc * 31 + Byte.to_N b) mod 65536)%N)
                          bs 7%N in
  match Byte.of_N (h / 256)%N, Byte.of_N (h mod 256)%N with
  | Some hi, Some lo => [hi; lo]
  | _, _ => []
  end.

Definition bytes_eqb (a b : list byte) : bool :=
  String.eqb (string_of_list_byte a) (string_of_list_byte b).

#[export] Instance platform : Platform := {|
  JSON_stringify := show;
  SHA256 := checksum;
  ed25519_sign := fun message privateKey => checksum (privateKey ++ message);
  ed25519_verify := fun signature message publicKey =>
    Some (bytes_eqb signature (checksum (publicKey ++ message)));
  btoa := string_of_list_byte;
  atob := fun s => Some (list_byte_of_string s)
|}.

Definition alice : list byte := list_byte_of_string "alice".
Definition bob : list byte := list_byte_of_string "bob".

Definition post (now : Z) (who : list byte) (text topic : string) : Event :=
  createPostEvent now text who who None None None (Some topic).

Definition node (evs : list Event) : Node :=
  start (List.fold_left (fun d e => storeEvent e d) evs emptyDB).

End Sim.

(** ** Vocabulary of the properties *)

(** [storeEvent] called on each event of [evs] in turn. *)
Definition storeAll (evs : list Event) (d : DB) : DB :=
  List.fold_left (fun d e => storeEvent e d) evs d.

(** The profile event of author [a] stored last. *)
Definition lastProfile (a : string) (evs : list Event) : option Event :=
  List.find (fun e => is_profile e && String.eqb (author e) a) (List.rev evs).

(** The projection shows, for every author, the stored profile event with
    the greatest timestamp. *)
Definition projection_is_latest (d : DB) : Prop :=
  forall e : Event,
    In e (events d) -> is_profile e = true ->
    (forall e' : Event, In e' (events d) -> is_profile e' = true ->
                        author e' = author e -> timestamp e' <= timestamp e) ->
    get row_author (author e) (profiles d) = Some (profileRow e).

(** Timestamps never increase along the list. *)
Definition non_increasing (items : list FeedItem.t) : Prop :=
  Sorted (fun a b => FeedItem.timestamp b <= FeedItem.timestamp a) items.

(** The two stores know the same event ids. *)
Definition sameIds (d1 d2 : DB) : Prop :=
  forall i : string, In i (getAllEventIds d1) <-> In i (getAllEventIds d2).

Definition disjointIds (d1 d2 : DB) : Prop :=
  forall i : string, In i (getAllEventIds d1) -> ~ In i (getAllEventIds d2).

(** Every id marked seen is the id of a stored event. *)
Definition seenStored (n : Node) : Prop :=
  forall i : string, i ∈ seenEventIds (gossip n) -> In i (getAllEventIds (db n)).

(** No rebroadcast is pending and no worker is running. *)
Definition quiet (n : Node) : Prop :=
  eventQueue (gossip n) = [] /\ processingQueue (gossip n) = false.

(** The id batch of an event-request. *)
Definition batchOf (m : GossipMessage) : list string :=
  match m with
  | EventRequest eventIds => eventIds
  | _ => []
  end.

Definition isEventRequest (m : GossipMessage) : Prop :=
  match m with
  | EventRequest _ => True
  | _ => False
  end.

(** The events a message carries. *)
Definition carried (m : GossipMessage) : list Event :=
  match m with
  | EventResponse evs => evs
  | NewEvent e => [e]
  | _ => []
  end.

Definition carriesEvents (m : GossipMessage) : Prop :=
  match m with
  | EventResponse _ | NewEvent _ => True
  | _ => False
  end.

(** The reply of a store to an event-request. *)
Definition answer (d : DB) (m : GossipMessage) : GossipMessage :=
  EventResponse (lookupEvents (batchOf m) d).

(** The events carried by a list of messages. *)
Definition carriedAll (msgs : list GossipMessage) : list Event :=
  List.flat_map carried msgs.

(** What handling messages that carry the events [evs] makes of a node [n]:
    the node [n'] knows the ids of [n] and of [evs], holds no other events,
    is at rest again, and has sent to [p] nothing but new-event messages
    for events of [evs]; when [n] knew all the ids, its database is
    unchanged and nothing was sent. *)
Definition learned (p : PeerId) (evs : list Event) (n n' : Node)
    (out : list Send) : Prop :=
  seenStored n' /\ quiet n'
  /\ (forall i, In i (getAllEventIds (db n'))
                <-> In i (getAllEventIds (db n)) \/ In i (map id evs))
  /\ (forall x, In x (events (db n')) -> In x (events (db n)) \/ In x evs)
  /\ Forall (fun s => fst s = p /\ exists e, snd s = NewEvent e /\ In e evs) out
  /\ ((forall e, In e evs -> In (id e) (getAllEventIds (db n))) ->
      db n' = db n /\ out = []).

Section Vocabulary.
Context `{Platform}.

(** The store holds only events that [isValidEvent] accepts. *)
Definition allValid (d : DB) : Prop :=
  Forall (fun e => isValidEvent e = Some true) (events d).

(** A key pair of the signature scheme: what the private key signs the
    public key verifies. *)
Definition signingKeyPair (publicKey privateKey : list byte) : Prop :=
  forall message : list byte,
    ed25519_verify (ed25519_sign message privateKey) message publicKey = Some true.

(** Decoding undoes encoding. *)
Definition base64RoundTrip : Prop :=
  forall bs : list byte, atob (btoa bs) = Some bs.

(** Along the run from [fe], every post that [addEvent] puts into the
    topic feed is at least as new as the head of the topic feed at that
    moment. *)
Fixpoint addsNewest (myPublicKey : list byte) (fe : FeedEngine)
    (ops : list FeedOp) : Prop :=
  match ops with
  | [] => True
  | op :: r =>
      match op with
      | AddEvent _ ev =>
          if is_post ev && forTopic ev fe
          then match topicFeedItems fe with
               | h :: _ => FeedItem.timestamp h <= timestamp ev
               | [] => True
               end
          else True
      | _ => True
      end
      /\ addsNewest myPublicKey (feedStep myPublicKey fe op) r
  end.

(** A node before any event: empty stores, nothing seen. *)
Definition freshNode : Node := start emptyDB.

End Vocabulary.

(** [ceil(n / m)] on natural numbers. *)
Definition ceilDiv (n m : nat) : nat := ((n + (m - 1)) / m)%nat.

(** [a] may stand before [b] in a newest-first list. *)
Definition newestFirst {A : Type} (key : A -> Z) (a b : A) : Prop := key b <= key a.

(** Newest first, on feed items. *)
Definition itemBefore : FeedItem.t -> FeedItem.t -> Prop :=
  newestFirst FeedItem.timestamp.

(** ** Further functions of the modules *)

(** *** Storage: the compound index and the follower map *)

(** Keys of the [by-author-timestamp] index are arrays [[author,
    timestamp]], compared element by element. *)
Definition compoundCompare (k1 k2 : string * Z) : comparison :=
  match String.compare (fst k1) (fst k2) with
  | Eq => Z.compare (snd k1) (snd k2)
  | c => c
  end.

Definition compoundLe (k1 k2 : string * Z) : bool :=
  match compoundCompare k1 k2 with
  | Gt => false
  | _ => true
  end.

Definition authorTimestamp (e : Event) : string * Z := (author e, timestamp e).

(** The order of the [by-author-timestamp] index as a comparator. *)
Definition byAuthorTimestamp (a b : Event) : Z :=
  match compoundCompare (authorTimestamp a) (authorTimestamp b) with
  | Lt => -1
  | Eq => 0
  | Gt => 1
  end.

(** [getEventsByAuthorInRange]: the range is [bound], [lowerBound] or
    [upperBound] on array keys; without [since] and [until] it is
    [IDBKeyRange.only(author)], a string, which no array key equals.
    [IDBKeyRange.bound] throws when the lower key is above the upper one
    ([None]). *)
Definition getEventsByAuthorInRange (author' : string) (since until : option Z)
    (d : DB) : option (list Event) :=
  let inRange (e : Event) :=
    match since, until with
    | Some s, Some u => compoundLe (author', s) (authorTimestamp e)
                        && compoundLe (authorTimestamp e) (author', u)
    | Some s, None => compoundLe (author', s) (authorTimestamp e)
    | None, Some u => compoundLe (authorTimestamp e) (author', u)
    | None, None => false
    end in
  let cursor := sort byAuthorTimestamp (List.filter inRange (events d)) in
  match since, until with
  | Some s, Some u =>
      if compoundLe (author', s) (author', u) then Some (sort byTimestampDesc cursor)
      else None
  | _, _ => Some (sort byTimestampDesc cursor)
  end.

Definition getEventIdsByAuthor (author' : string) (d : DB) : list string :=
  newSet (map id (cursor_only (fun e => Some (author e)) author' (events d))).

(** An enumerated [Map<string, V>]: pairs in insertion order, keys unique. *)
Definition mapHas {V : Type} (k : string) (m : list (string * V)) : bool :=
  List.existsb (fun kv => String.eqb (fst kv) k) m.

(** [map.set(k, v)]: an existing key keeps its place. *)
Definition mapSet {V : Type} (k : string) (v : V) (m : list (string * V))
  : list (string * V) :=
  if mapHas k m
  then map (fun kv => if String.eqb (fst kv) k then (fst kv, v) else kv) m
  else m ++ [(k, v)].

Definition mapDelete {V : Type} (k : string) (m : list (string * V))
  : list (string * V) :=
  List.filter (fun kv => negb (String.eqb (fst kv) k)) m.

(** [map.get(k)] *)
Definition mapGet {V : Type} (k : string) (m : list (string * V)) : option V :=
  option_map snd (List.find (fun kv => String.eqb (fst kv) k) m).

(** The loop of [getFollowersOfWithEncryptionKeys]: a follow sets the
    follower's entry, any other record deletes it. *)
Definition followerStep (m : list (string * option string)) (ev : Event)
  : list (string * option string) :=
  if String.eqb (type ev) "follow"
  then mapSet (author ev) (content_encryptionPublicKey (content ev)) m
  else mapDelete (author ev) m.

(** The result pairs are [(author, encryptionPublicKey)]. *)
Definition getFollowersOfWithEncryptionKeys (authorPublicKeyBase64 : string)
    (d : DB) : list (string * option string) :=
  let raw := getFollowersOf authorPublicKeyBase64 d in
  List.fold_left followerStep (sort byTimestampAsc raw) [].

(** *** Identity: user names ([lib/identity.ts]) *)

Definition normalizeUsername (input : string) : string :=
  Str.slice0 30 (Str.filter Str.is_word (Str.toLowerCase (Str.trim input))).

Definition isUsernameValid (username : string) : bool :=
  let n := normalizeUsername username in
  (3 <=? String.length n)%nat && (String.length n <=? 30)%nat.

(** *** Events: the synchronous id *)

(** [ToInt32] *)
Definition toInt32 (z : Z) : Z := (z + 2 ^ 31) mod 2 ^ 32 - 2 ^ 31.

(** One turn of the loop of [createEventIdSync]:
    [hash = ((hash << 5) - hash) + char; hash = hash & hash]. *)
Definition hashStep (hash : Z) (c : ascii) : Z :=
  toInt32 (toInt32 (hash * 32) - hash + Z.of_nat (nat_of_ascii c)).

Fixpoint hashLoop (canonical : string) (hash : Z) : Z :=
  match canonical with
  | EmptyString => hash
  | String c r => hashLoop r (hashStep hash c)
  end.

(** [n.toString(16)] for [0 <= n]. *)
Equations? toString16 (n : Z) : string by wf (Z.to_nat n) lt :=
  toString16 n with Z_lt_dec n 16 => {
    | left _ := String (hexDigit (Z.to_nat n)) EmptyString;
    | right _ := String.append (toString16 (n / 16))
                   (String (hexDigit (Z.to_nat (n mod 16))) EmptyString) }.
Proof.
  apply Z2Nat.inj_lt; [apply Z.div_pos; lia|lia|].
  apply Z.div_lt; lia.
Qed.

Fixpoint zeros (k : nat) : string :=
  match k with
  | O => EmptyString
  | S k' => String "0" (zeros k')
  end.

(** [s.padStart(k, '0')] *)
Definition padStart0 (k : nat) (s : string) : string :=
  String.append (zeros (k - String.length s)) s.

Section EventIdSync.
Context `{Platform}.

Definition createEventIdSync (type author : string) (timestamp : Z)
    (content : Content) : string :=
  let canonical :=
    JSON_stringify (JObject [("type", JString type);
                             ("author", JString author);
                             ("timestamp", JNumber timestamp);
                             ("content", contentJSON content)]) in
  let hash := hashLoop canonical 0 in
  padStart0 16 (toString16 (Z.abs hash)).

End EventIdSync.

(** *** Follow system: the graph *)

(** [graph.get(k).add(x)] and [.delete(x)]: the set stored under [k] is
    changed in place. *)
Definition mapUpdate {V : Type} (k : string) (f : V -> V) (m : list (string * V))
  : list (string * V) :=
  map (fun kv => if String.eqb (fst kv) k then (fst kv, f (snd kv)) else kv) m.

(** The loop of [getFollowGraph]. *)
Definition graphStep (graph : list (string * list string)) (follow : Event)
  : list (string * list string) :=
  let graph1 :=
    if mapHas (author follow) graph then graph
    else graph ++ [(author follow, [])] in
  match content_target (content follow) with
  | None => graph1
  | Some t =>
      if String.eqb (type follow) "follow"
      then mapUpdate (author follow) (setAdd t) graph1
      else if String.eqb (type follow) "unfollow"
      then mapUpdate (author follow) (setDelete t) graph1
      else graph1
  end.

Section FollowGraph.
Context `{Platform}.

Definition getFollowGraph (myPublicKey : list byte) (d : DB)
  : list (string * list string) :=
  let allFollows := getFollowsByAuthor (publicKeyToString myPublicKey) d in
  let sortedFollows := sort byTimestampAsc allFollows in
  List.fold_left graphStep sortedFollows [].

End FollowGraph.

(** *** Feed engine and orchestrator *)

(** [getFeedItemsSince]: always on the home feed. *)
Definition getFeedItemsSince (timestamp : Z) (fe : FeedEngine) : list FeedItem.t :=
  List.filter (fun item => timestamp <? FeedItem.timestamp item) (feedItems fe).

Section Orchestrator.
Context `{Platform}.

(** [broadcastEvent] as [PhemossaSystem.initialize] wraps it: after the
    broadcast a post goes to the feed engine. *)
Definition wrappedBroadcast (peers : list PeerId) (myPublicKey : list byte)
    (event : Event) (s : Node * FeedEngine) : Node * FeedEngine * list Send :=
  let '(n1, out) := broadcastEvent peers event (fst s) in
  let fe1 := if is_post event then addEvent myPublicKey (db n1) event (snd s)
             else snd s in
  (n1, fe1, out).

(** [PhemossaSystem.createPost] from the point where the post event is
    made: [storeEvent], the wrapped [broadcastEvent], [addEvent]. *)
Definition publishPost (peers : list PeerId) (myPublicKey : list byte)
    (postEvent : Event) (s : Node * FeedEngine) : Node * FeedEngine * list Send :=
  let n0 := {| db := storeEvent postEvent (db (fst s)); gossip := gossip (fst s) |} in
  let '(n1, fe1, out) := wrappedBroadcast peers myPublicKey postEvent (n0, snd s) in
  (n1, addEvent myPublicKey (db n1) postEvent fe1, out).

End Orchestrator.

(** *** Vocabulary of the further properties *)

(** The records of a store stand in strictly ascending key order. *)
Definition keySorted {V : Type} (keyPath : V -> string) (s : list V) : Prop :=
  StronglySorted (fun x y => String.compare (keyPath x) (keyPath y) = Lt) s.

(** The three stores of a database are in key order. *)
Definition wellKeyed (d : DB) : Prop :=
  keySorted id (events d) /\ keySorted id (follows d)
  /\ keySorted row_author (profiles d).

(** Oldest first. *)
Definition oldestFirst {A : Type} (key : A -> Z) (a b : A) : Prop := key a <= key b.

(** [e] speaks last for [k] among the records of [l]: every other record
    with key [k] is older. *)
Definition speaksLast (key : Event -> option string) (k : string) (e : Event)
    (l : list Event) : Prop :=
  In e l /\ key e = Some k
  /\ forall e', In e' l -> key e' = Some k -> e' = e \/ timestamp e' < timestamp e.

(** [k] further rounds of delivery, first to [A], then to [B]. *)
Definition deliveries `{Platform} (k : nat) (net : Net) : Net :=
  Nat.iter k (fun n => deliverToB (deliverToA n)) net.

(** [x] was in one of the two stores when the peers connected. *)
Definition fromStores (a b : Node) (x : Event) : Prop :=
  In x (events (db a)) \/ In x (events (db b)).

(** What every delivery keeps of a network started from [a] and [b]: the
    peers are at rest, [A] still holds what it held, every event in a store
    or in flight comes from one of the two original stores, and what [B]
    did not hold at the start it accepted through [isValidEvent]. *)
Definition exchanged `{Platform} (a b : Node) (net : Net) : Prop :=
  quiet (nodeA net) /\ quiet (nodeB net)
  /\ (forall x, In x (events (db a)) -> In x (events (db (nodeA net))))
  /\ (forall x, In x (events (db (nodeA net))) -> fromStores a b x)
  /\ (forall x, In x (events (db (nodeB net))) ->
        In x (events (db b)) \/ (fromStores a b x /\ isValidEvent x = Some true))
  /\ (forall x, In x (carriedAll (toA net)) -> fromStores a b x)
  /\ (forall x, In x (carriedAll (toB net)) -> fromStores a b x).

(** Every character of [s] satisfies [p]. *)
Fixpoint everyChar (p : ascii -> bool) (s : string) : bool :=
  match s with
  | EmptyString => true
  | String c r => p c && everyChar p r
  end.

(** A second executable platform: as [Sim.platform], but [btoa] writes
    hexadecimal digits and [atob] throws on a string that [btoa] cannot have
    written. *)
Module SimStrict.

Definition digit (c : ascii) : option N :=
  let n := N_of_ascii c in
  if ((48 <=? n) && (n <=? 57))%N then Some (n - 48)%N
  else if ((97 <=? n) && (n <=? 102))%N then Some (n - 87)%N
  else None.

Fixpoint decode (s : string) : option (list byte) :=
  match s with
  | EmptyString => Some []
  | String _ EmptyString => None
  | String a (String b r) =>
      match digit a, digit b, decode r with
      | Some x, Some y, Some bs =>
          match Byte.of_N (16 * x + y)%N with
          | Some v => Some (v :: bs)
          | None => None
          end
      | _, _, _ => None
      end
  end.

Definition platform : Platform := {|
  JSON_stringify := Sim.show;
  SHA256 := Sim.checksum;
  ed25519_sign := fun message privateKey => Sim.checksum (privateKey ++ message);
  ed25519_verify := fun signature message publicKey =>
    Some (Sim.bytes_eqb signature (Sim.checksum (publicKey ++ message)));
  btoa := hex;
  atob := decode
|}.

End SimStrict.

(** * Properties *)

(** ** The definitions at work *)

Example trim_example : Str.trim "  Tech news 	" = "Tech news".
Proof. reflexivity. Qed.

Example toLowerCase_example : Str.toLowerCase "Tech_9" = "tech_9".
Proof. reflexivity. Qed.

Example username_example :
  Str.slice0 30 (Str.filter Str.is_word (Str.toLowerCase (Str.trim " Al-Ice_7 ")))
  = "alice_7".
Proof. reflexivity. Qed.

Example hex_example : hex [Byte.x00; Byte.x0f; Byte.xa5; Byte.xff] = "000fa5ff".
Proof. reflexivity. Qed.

Example put_example :
  map fst (put fst ("b", 4%nat) (put fst ("a", 3%nat) (put fst ("c", 2%nat)
            (put fst ("b", 1%nat) [])))) = ["a"; "b"; "c"]
  /\ get fst "b" (put fst ("b", 4%nat) (put fst ("a", 3%nat) (put fst ("c", 2%nat)
            (put fst ("b", 1%nat) [])))) = Some ("b", 4%nat).
Proof. split; reflexivity. Qed.

(** The sort is stable: records of equal timestamp keep their order. *)
Example sort_example :
  sort (fun a b : string * Z => snd b - snd a)
       [("a", 1); ("b", 3); ("c", 1); ("d", 3); ("e", 2)]
  = [("b", 3); ("d", 3); ("e", 2); ("a", 1); ("c", 1)].
Proof. reflexivity. Qed.

Example newSet_example : newSet ["x"; "y"; "x"; "z"; "y"] = ["x"; "y"; "z"].
Proof. reflexivity. Qed.

Example requestEvents_example :
  map (fun s => List.length (batchOf (snd s)))
      (requestEvents peerB (List.repeat "i" 250)) = [100; 100; 50]%nat.
Proof. reflexivity. Qed.

(** The replay of [getFollowing]: follow, unfollow, follow again. *)
Example replay_example :
  let ev ty t := {| id := ty; type := ty; author := "a"; timestamp := t;
                    signature := "s"; content := CFollow "b" None |} in
  replay (fun e => content_target (content e)) [ev "follow" 1; ev "unfollow" 2]
  = []
  /\ replay (fun e => content_target (content e))
            [ev "follow" 1; ev "unfollow" 2; ev "follow" 3] = ["b"].
Proof. split; reflexivity. Qed.

(** A post made on the executable platform is valid, a profile event is
    verified but not valid. *)
Example isValidEvent_example :
  @isValidEvent Sim.platform (Sim.post 1000 Sim.alice "hello" "tech") = Some true
  /\ @verifyEvent Sim.platform
       (@createProfileEvent Sim.platform 1000 Sim.alice Sim.alice (Some "Alice")
                            None None) = Some true
  /\ @isValidEvent Sim.platform
       (@createProfileEvent Sim.platform 1000 Sim.alice Sim.alice (Some "Alice")
                            None None) = Some false.
Proof. repeat split; vm_compute; reflexivity. Qed.

(** Alice posts "hello"; Bob follows Alice; after one exchange Bob's home
    feed holds that post and nothing else. *)
Example home_feed_scenario :
  let hello := Sim.post 1000 Sim.alice "hello" "tech" in
  let aliceNode := Sim.node [hello] in
  let bobNode :=
    fst (fst (@follow Sim.platform [] 1500 Sim.bob Sim.alice Sim.bob None freshNode)) in
  let net := @exchange Sim.platform aliceNode bobNode in
  map FeedItem.event
      (getFeedItems None (@feedRun Sim.platform Sim.bob [Refresh (db (nodeB net))]))
  = [hello].
Proof. vm_compute. reflexivity. Qed.

(** Two posts in the default topic: the topic feed shows the newer first. *)
Example topic_feed_scenario :
  let first := Sim.post 1000 Sim.alice "first" "" in
  let second := Sim.post 2000 Sim.alice "second" "" in
  let d := storeAll [first; second] emptyDB in
  map FeedItem.event
      (getFeedItems None
         (@feedRun Sim.platform Sim.bob
            [SetTopicFilter (Some "general"); RefreshTopicFeed "general" d]))
  = [second; first].
Proof. vm_compute. reflexivity. Qed.

(** ** Strings and object stores *)

Lemma compare_refl (s : string) : String.compare s s = Eq.
Proof.
  pose proof (String.compare_antisym s s) as Ha.
  destruct (String.compare s s); simpl in Ha; congruence.
Qed.

Section ObjectStoreFacts.
Context {V : Type} (keyPath : V -> string).

Lemma get_put (v : V) (k : string) (s : list V) :
  get keyPath k (put keyPath v s)
  = if String.eqb (keyPath v) k then Some v else get keyPath k s.
Proof.
  unfold get. induction s as [|x r IH]; simpl.
  - destruct (String.eqb (keyPath v) k); reflexivity.
  - destruct (String.compare (keyPath v) (keyPath x)) eqn:Hc; simpl.
    + apply String.compare_eq_iff in Hc. rewrite <- Hc.
      destruct (String.eqb (keyPath v) k); reflexivity.
    + reflexivity.
    + rewrite IH.
      destruct (String.eqb (keyPath x) k) eqn:Hx; [|reflexivity].
      apply String.eqb_eq in Hx. subst k.
      destruct (String.eqb (keyPath v) (keyPath x)) eqn:Hv; [|reflexivity].
      apply String.eqb_eq in Hv. rewrite Hv, compare_refl in Hc. discriminate.
Qed.

Lemma In_put (v x : V) (s : list V) :
  In x (put keyPath v s) -> x = v \/ In x s.
Proof.
  induction s as [|y r IH]; simpl.
  - intros [->|[]]. now left.
  - destruct (String.compare (keyPath v) (keyPath y)); simpl.
    + intros [->|Hin]; auto.
    + intros [->|[->|Hin]]; auto.
    + intros [->|Hin]; auto. destruct (IH Hin); auto.
Qed.

Lemma put_In (v : V) (s : list V) : In v (put keyPath v s).
Proof.
  induction s as [|y r IH]; simpl; [now left|].
  destruct (String.compare (keyPath v) (keyPath y)); simpl; auto.
Qed.

Lemma keys_put (v : V) (k : string) (s : list V) :
  In k (map keyPath (put keyPath v s)) <-> k = keyPath v \/ In k (map keyPath s).
Proof.
  induction s as [|y r IH]; simpl.
  - intuition.
  - destruct (String.compare (keyPath v) (keyPath y)) eqn:Hc; simpl.
    + apply String.compare_eq_iff in Hc. rewrite <- Hc. intuition.
    + intuition.
    + rewrite IH. intuition.
Qed.

Lemma get_Some (k : string) (s : list V) (v : V) :
  get keyPath k s = Some v -> In v s /\ keyPath v = k.
Proof.
  unfold get. intros Hf. apply List.find_some in Hf as [Hin Hk].
  apply String.eqb_eq in Hk. auto.
Qed.

Lemma get_In (k : string) (s : list V) :
  In k (map keyPath s) -> exists v, get keyPath k s = Some v.
Proof.
  unfold get. intros Hin. apply List.in_map_iff in Hin as (x & Hx & Hin).
  destruct (List.find _ s) as [v|] eqn:Hf; [eauto|].
  apply (List.find_none _ _ Hf) in Hin. rewrite Hx, String.eqb_refl in Hin.
  discriminate.
Qed.

Lemma count_pos (k : string) (s : list V) :
  (0 <? count keyPath k s)%nat = true <-> In k (map keyPath s).
Proof.
  unfold count. induction s as [|x r IH]; simpl.
  - split; [discriminate|tauto].
  - destruct (String.eqb (keyPath x) k) eqn:Hx; simpl.
    + apply String.eqb_eq in Hx. intuition.
    + apply String.eqb_neq in Hx. rewrite IH. intuition.
Qed.
End ObjectStoreFacts.

Lemma has_In (x : string) (l : list string) : has x l = true <-> In x l.
Proof.
  unfold has. rewrite List.existsb_exists. split.
  - intros (y & Hy & He). apply String.eqb_eq in He. now subst.
  - intros Hin. exists x. split; [assumption|apply String.eqb_refl].
Qed.

Lemma newSet_In (x : string) (l : list string) : In x (newSet l) <-> In x l.
Proof.
  induction l as [|y r IH]; simpl; [tauto|].
  rewrite List.filter_In, IH, Bool.negb_true_iff, String.eqb_neq.
  destruct (String.eqb_spec x y) as [->|Hne]; intuition congruence.
Qed.

Lemma getAllEventIds_In (i : string) (d : DB) :
  In i (getAllEventIds d) <-> In i (map id (events d)).
Proof. apply newSet_In. Qed.

Lemma hasEvent_In (i : string) (d : DB) :
  hasEvent i d = true <-> In i (getAllEventIds d).
Proof. unfold hasEvent. rewrite count_pos. symmetry. apply getAllEventIds_In. Qed.

(** ** The follow store and [isFollowing] *)

Lemma isFollowing_scan_true (cursor : list Event) (followee : string) :
  (exists v, In v cursor /\ content_target (content v) = Some followee) ->
  isFollowing_scan cursor followee = true.
Proof.
  induction cursor as [|x r IH]; intros (v & Hin & Ht).
  - destruct Hin.
  - simpl. destruct Hin as [->|Hin].
    + rewrite Ht, String.eqb_refl. reflexivity.
    + destruct (content_target (content x)) as [t|]; [|eauto].
      destruct (String.eqb t followee); eauto.
Qed.

Lemma isFollowing_stored (v : Event) (followee : string) (d : DB) :
  In v (follows d) -> content_target (content v) = Some followee ->
  isFollowing (author v) followee d = true.
Proof.
  intros Hin Ht. apply isFollowing_scan_true. exists v. split; [|assumption].
  unfold cursor_only. apply List.filter_In. split; [assumption|].
  apply String.eqb_refl.
Qed.

(** C1 (as the code behaves): once a Follow event at [t1] and an Unfollow
    event at [t2] of the same follower for the same followee are stored,
    [isFollowing] answers [true], whatever the timestamps (so also for
    [t1 < t2]): the scan stops at the first record of the follower that
    targets the followee and reads neither its type nor its timestamp.
    This is so whether the Unfollow goes to the follows collection (by
    [storeFollow]) or, as [unfollow] leaves it, to the events collection
    only (by [storeEvent]). *)
Theorem isFollowing_true_after_unfollow
    (d : DB) (follower followee fid uid sig1 sig2 : string) (t1 t2 : Z)
    (enc : option string) :
  let f := {| id := fid; type := "follow"; author := follower; timestamp := t1;
              signature := sig1; content := CFollow followee enc |} in
  let u := {| id := uid; type := "unfollow"; author := follower; timestamp := t2;
              signature := sig2; content := CUnfollow followee |} in
  isFollowing follower followee (storeFollow u (storeFollow f d)) = true
  /\ isFollowing follower followee (storeEvent u (storeFollow f d)) = true.
Proof.
  intros f u. split.
  - apply (isFollowing_stored u followee); [|reflexivity].
    simpl. apply put_In.
  - apply (isFollowing_stored f followee); [|reflexivity].
    simpl. apply put_In.
Qed.

(** ** The profile projection *)

Lemma getProfile_storeEvent (e : Event) (a : string) (d : DB) :
  get row_author a (profiles (storeEvent e d))
  = if is_profile e && String.eqb (author e) a then Some (profileRow e)
    else get row_author a (profiles d).
Proof.
  unfold storeEvent. simpl. destruct (is_profile e); simpl; [|reflexivity].
  apply (get_put row_author (profileRow e)).
Qed.

Lemma lastProfile_cons (a : string) (e : Event) (evs : list Event) :
  lastProfile a (e :: evs)
  = match lastProfile a evs with
    | Some x => Some x
    | None => if is_profile e && String.eqb (author e) a then Some e else None
    end.
Proof.
  unfold lastProfile. simpl.
  generalize (List.rev evs). intros l.
  induction l as [|x r IH]; simpl.
  - destruct (is_profile e && String.eqb (author e) a); reflexivity.
  - destruct (is_profile x && String.eqb (author x) a); [reflexivity|apply IH].
Qed.

Lemma profile_after_storeAll (evs : list Event) (a : string) (d : DB) :
  get row_author a (profiles (storeAll evs d))
  = match lastProfile a evs with
    | Some e => Some (profileRow e)
    | None => get row_author a (profiles d)
    end.
Proof.
  revert d. induction evs as [|e evs IH]; intros d; [reflexivity|].
  change (storeAll (e :: evs) d) with (storeAll evs (storeEvent e d)).
  rewrite IH, lastProfile_cons, getProfile_storeEvent.
  destruct (lastProfile a evs); [reflexivity|].
  destruct (is_profile e && String.eqb (author e) a); reflexivity.
Qed.

(** C3 (amended): after any sequence of [storeEvent] calls on an empty
    database, the profile row of every author is the row of the profile
    event of that author that was stored last, whatever its timestamp;
    there is no row when the author has stored no profile event. *)
Theorem profile_projection_last_stored (evs : list Event) (a : string) :
  get row_author a (profiles (storeAll evs emptyDB))
  = option_map profileRow (lastProfile a evs).
Proof.
  rewrite profile_after_storeAll. destruct (lastProfile a evs); reflexivity.
Qed.

(** C3 (as stated) fails: an older profile event stored after a newer one
    replaces the newer one in the projection. *)
Lemma profile_projection_not_latest :
  let newer := {| id := "p2"; type := "profile"; author := "alice"; timestamp := 2000;
                  signature := "s2";
                  content := CProfile (Some "Alice B") (Some "alice") None |} in
  let older := {| id := "p1"; type := "profile"; author := "alice"; timestamp := 1000;
                  signature := "s1";
                  content := CProfile (Some "Alice A") (Some "alice") None |} in
  ~ projection_is_latest (storeAll [newer; older] emptyDB).
Proof.
  intros newer older Hp.
  specialize (Hp newer).
  assert (Hget : get row_author (author newer)
                   (profiles (storeAll [newer; older] emptyDB))
                 = Some (profileRow newer)).
  { apply Hp.
    - vm_compute. right. left. reflexivity.
    - reflexivity.
    - intros e' Hin _ _. vm_compute in Hin.
      destruct Hin as [<-|[<-|[]]]; simpl; lia. }
  vm_compute in Hget. discriminate Hget.
Qed.

(** ** Creating and verifying events *)

Section EventModelFacts.
Context `{Platform}.

Lemma verifyEvent_signEvent (ty : string) (publicKey privateKey : list byte)
    (now : Z) (c : Content) :
  base64RoundTrip -> signingKeyPair publicKey privateKey ->
  verifyEvent (signEvent ty (publicKeyToString publicKey) now c privateKey)
  = Some true.
Proof.
  intros Hb Hk. unfold verifyEvent, signEvent, publicKeyToString. simpl.
  rewrite String.eqb_refl. simpl.
  rewrite !Hb. unfold verifySignature, signMessage. rewrite Hk. reflexivity.
Qed.

(** C6: with a key pair of the signature scheme and a base64 codec that
    decodes what it encodes, every event returned by [createPostEvent],
    [createFollowEvent], [createUnfollowEvent] or [createProfileEvent]
    passes [verifyEvent]: the id recomputed over type, author, timestamp
    and content is the event's id, and the signature over the id followed
    by the content verifies against the author. *)
Theorem create_verify_roundtrip
    (publicKey privateKey targetPublicKey : list byte) (now : Z)
    (text : string) (mentions : option (list string))
    (replyTo topic enc displayName username bio : option string)
    (encryptedPayload : option EncryptedPostContent) :
  base64RoundTrip -> signingKeyPair publicKey privateKey ->
  verifyEvent (createPostEvent now text publicKey privateKey mentions replyTo
                               encryptedPayload topic) = Some true
  /\ verifyEvent (createFollowEvent now targetPublicKey publicKey privateKey enc)
     = Some true
  /\ verifyEvent (createUnfollowEvent now targetPublicKey publicKey privateKey)
     = Some true
  /\ verifyEvent (createProfileEvent now publicKey privateKey displayName
                                     username bio) = Some true.
Proof.
  intros Hb Hk.
  unfold createPostEvent, createFollowEvent, createUnfollowEvent,
    createProfileEvent.
  repeat split; apply verifyEvent_signEvent; assumption.
Qed.

Lemma isValidEvent_unknown_type (e : Event) :
  List.existsb (String.eqb (type e)) knownTypes = false ->
  isValidEvent e = Some false.
Proof.
  intros Hk. unfold isValidEvent. rewrite Hk. simpl.
  destruct (_ || _); reflexivity.
Qed.

Lemma isValidEvent_known_type (e : Event) :
  isValidEvent e = Some true ->
  List.existsb (String.eqb (type e)) knownTypes = true.
Proof.
  intros Hv.
  destruct (List.existsb (String.eqb (type e)) knownTypes) eqn:Hk; [reflexivity|].
  rewrite (isValidEvent_unknown_type e Hk) in Hv. discriminate.
Qed.

Lemma isValidEvent_not_profile (e : Event) :
  isValidEvent e = Some true -> is_profile e = false.
Proof.
  intros Hv. apply isValidEvent_known_type in Hv.
  unfold is_profile. destruct (String.eqb_spec (type e) "profile") as [He|]; [|reflexivity].
  rewrite He in Hv. discriminate.
Qed.

(** For the three types of its list, [isValidEvent] on an event with all
    four fields present is [verifyEvent]. *)
Lemma isValidEvent_listed_type (e : Event) :
  Str.truthy (id e) = true -> Str.truthy (type e) = true ->
  Str.truthy (author e) = true -> Str.truthy (signature e) = true ->
  type e = "post" \/ type e = "follow" \/ type e = "unfollow" ->
  isValidEvent e = verifyEvent e.
Proof.
  intros Hi Ht Ha Hs Hty. unfold isValidEvent. rewrite Hi, Ht, Ha, Hs. simpl.
  destruct Hty as [Hty | [Hty | Hty]]; rewrite Hty; reflexivity.
Qed.

(** C4 (as the code behaves): [isValidEvent] answers [false] on every
    event made by [createProfileEvent], correctly signed or not: its
    list of accepted types is post, follow and unfollow. *)
Theorem isValidEvent_rejects_profile
    (publicKey privateKey : list byte) (now : Z)
    (displayName username bio : option string) :
  isValidEvent (createProfileEvent now publicKey privateKey displayName
                                   username bio) = Some false.
Proof. apply isValidEvent_unknown_type. reflexivity. Qed.

End EventModelFacts.

(** C6 on the executable platform: a post of [alice]. *)
Lemma create_verify_roundtrip_witness :
  @base64RoundTrip Sim.platform
  /\ @signingKeyPair Sim.platform Sim.alice Sim.alice
  /\ @verifyEvent Sim.platform
       (@createPostEvent Sim.platform 1000 "hello" Sim.alice Sim.alice None None None
                         (Some "tech")) = Some true.
Proof.
  assert (Hb : @base64RoundTrip Sim.platform).
  { intros bs. simpl. f_equal. apply list_byte_of_string_of_list_byte. }
  assert (Hk : @signingKeyPair Sim.platform Sim.alice Sim.alice).
  { intros message. simpl. f_equal. apply String.eqb_refl. }
  split; [exact Hb|]. split; [exact Hk|].
  exact (proj1 (@create_verify_roundtrip Sim.platform Sim.alice Sim.alice Sim.bob
                  1000 "hello" None None (Some "tech") None None None None None
                  Hb Hk)).
Defined.

(** ** Inbound events *)

Section GossipFacts.
Context `{Platform}.

(** What [processIncomingEvent] can do to the database. *)
Lemma processIncomingEvent_db (peers : list PeerId) (e : Event) (n n' : Node)
    (out : list Send) :
  processIncomingEvent peers e n = Some (n', out) ->
  db n' = db n \/ (isValidEvent e = Some true /\ db n' = storeEvent e (db n)).
Proof.
  unfold processIncomingEvent.
  destruct (decide _); [intros [= <- <-]; auto|].
  destruct (isValidEvent e) as [[|]|]; [|intros [= <- <-]; auto|discriminate].
  destruct (hasEvent (id e) (db n)); [intros [= <- <-]; auto|].
  destruct (if negb _ then _ else _) as [g' rb]. intros [= <- <-]. auto.
Qed.

Lemma processIncomingEvent_follows (peers : list PeerId) (e : Event) (n n' : Node)
    (out : list Send) :
  processIncomingEvent peers e n = Some (n', out) ->
  follows (db n') = follows (db n) /\ profiles (db n') = profiles (db n).
Proof.
  intros Hp. apply processIncomingEvent_db in Hp as [->|[Hv ->]]; auto.
  simpl. rewrite (isValidEvent_not_profile e Hv). auto.
Qed.

Lemma handleEventResponse_follows (peers : list PeerId) (evs : list Event) (n : Node) :
  follows (db (fst (handleEventResponse peers evs n))) = follows (db n)
  /\ profiles (db (fst (handleEventResponse peers evs n))) = profiles (db n).
Proof.
  revert n. induction evs as [|e r IH]; intros n; simpl; [auto|].
  destruct (processIncomingEvent peers e n) as [[n1 out1]|] eqn:Hp; [|auto].
  apply processIncomingEvent_follows in Hp as [Hf Hq].
  destruct (IH n1) as [Hf' Hq'].
  destruct (handleEventResponse peers r n1) as [n2 out2]. simpl in *.
  split; congruence.
Qed.

Lemma handleMessage_follows (peers : list PeerId) (p : PeerId)
    (m : GossipMessage) (n : Node) :
  follows (db (fst (handleMessage peers p m n))) = follows (db n)
  /\ profiles (db (fst (handleMessage peers p m n))) = profiles (db n).
Proof.
  destruct m as [ids|mi ti|ids|evs|e]; simpl; auto.
  - apply handleEventResponse_follows.
  - unfold handleNewEvent.
    destruct (processIncomingEvent peers e n) as [[n1 out1]|] eqn:Hp; [|auto].
    apply processIncomingEvent_follows in Hp. exact Hp.
Qed.

(** C10: whatever message a peer sends, handling it leaves the follows
    collection as it was (and the profiles collection too: what gossip
    stores goes to the events collection only), so [getFollowsByAuthor],
    [getFollowersOf] and [isFollowing] answer as before; this holds in
    particular for Follow and Unfollow events learned through
    [processIncomingEvent]. *)
Theorem gossip_never_writes_follows (peers : list PeerId) (p : PeerId)
    (m : GossipMessage) (n : Node) :
  let n' := fst (handleMessage peers p m n) in
  follows (db n') = follows (db n)
  /\ profiles (db n') = profiles (db n)
  /\ (forall a, getFollowsByAuthor a (db n') = getFollowsByAuthor a (db n))
  /\ (forall a, getFollowersOf a (db n') = getFollowersOf a (db n))
  /\ (forall a b, isFollowing a b (db n') = isFollowing a b (db n)).
Proof.
  intros n'. destruct (handleMessage_follows peers p m n) as [Hf Hq].
  fold n' in Hf, Hq.
  unfold getFollowsByAuthor, getFollowersOf, isFollowing. rewrite Hf.
  repeat split; auto.
Qed.

(** C8: an inbound event whose id is not in the seen set and on which
    [isValidEvent] answers [false] leaves the node as it is and sends
    nothing: nothing is stored, nothing is queued or rebroadcast, the seen
    set is unchanged.  A later event with the same id that is valid and not
    yet stored is therefore accepted: stored, marked seen and, the node
    being at rest, rebroadcast to every connected peer. *)
Theorem invalid_event_leaves_state (peers : list PeerId) (e : Event) (n : Node) :
  id e ∉ seenEventIds (gossip n) ->
  isValidEvent e = Some false ->
  processIncomingEvent peers e n = Some (n, [])
  /\ (forall e' : Event,
        id e' = id e -> isValidEvent e' = Some true ->
        hasEvent (id e') (db n) = false -> quiet n ->
        forall n1 out1, processIncomingEvent peers e n = Some (n1, out1) ->
        processIncomingEvent peers e' n1
        = Some ({| db := storeEvent e' (db n);
                   gossip := {| seenEventIds := {[ id e' ]} ∪ seenEventIds (gossip n);
                                eventQueue := [];
                                processingQueue := false |} |},
                map (fun p => (p, NewEvent e')) peers)).
Proof.
  intros Hseen Hinv.
  assert (Hp : processIncomingEvent peers e n = Some (n, [])).
  { unfold processIncomingEvent. destruct (decide _); [reflexivity|].
    rewrite Hinv. reflexivity. }
  split; [exact Hp|].
  intros e' Hid Hv Hs [Hq Hpq] n1 out1 Hn1. rewrite Hp in Hn1. injection Hn1 as <- <-.
  unfold processIncomingEvent. rewrite Hid.
  destruct (decide _); [contradiction|].
  rewrite Hv. rewrite Hid in Hs. rewrite Hs.
  unfold processEventQueue. simpl. rewrite Hpq, Hq. simpl.
  rewrite List.app_nil_r. reflexivity.
Qed.

End GossipFacts.

(** C8 on the executable platform: a post of [alice] with a forged
    signature arrives at a fresh node. *)
Lemma invalid_event_leaves_state_witness :
  let good := Sim.post 1000 Sim.alice "hello" "tech" in
  let forged := {| id := id good; type := type good; author := author good;
                   timestamp := timestamp good; signature := "forged";
                   content := content good |} in
  (id forged ∉ seenEventIds (gossip freshNode))
  /\ @isValidEvent Sim.platform forged = Some false
  /\ @processIncomingEvent Sim.platform [peerB] forged freshNode
     = Some (freshNode, []).
Proof.
  intros good forged.
  assert (Hseen : id forged ∉ seenEventIds (gossip freshNode)).
  { simpl. apply not_elem_of_empty. }
  assert (Hinv : @isValidEvent Sim.platform forged = Some false).
  { vm_compute. reflexivity. }
  split; [exact Hseen|]. split; [exact Hinv|].
  exact (proj1 (@invalid_event_leaves_state Sim.platform [peerB] forged freshNode
                  Hseen Hinv)).
Defined.

Section FollowFacts.
Context `{Platform}.

(** C5 (as the code behaves): [unfollow] writes nothing to the follow
    store.  On a fresh node, after [follow] of a target at [t1] and
    [unfollow] of the same target at [t2], the store holds what it held
    after the [follow], [getFollowing] still lists the target and
    [checkFollowing] still answers [true]. *)
Theorem unfollow_not_persisted (peers : list PeerId) (t1 t2 : Z)
    (myPublicKey targetPublicKey myPrivateKey : list byte) (enc : option string) :
  let n1 := fst (fst (follow peers t1 myPublicKey targetPublicKey myPrivateKey
                             enc freshNode)) in
  let n2 := fst (fst (unfollow peers t2 myPublicKey targetPublicKey myPrivateKey
                               n1)) in
  follows (db n2) = follows (db n1)
  /\ getFollowing myPublicKey (db n2) = [publicKeyToString targetPublicKey]
  /\ checkFollowing myPublicKey targetPublicKey (db n2) = true.
Proof.
  intros n1 n2. split; [reflexivity|]. split.
  - unfold getFollowing, getFollowsByAuthor, cursor_only. simpl.
    rewrite String.eqb_refl. reflexivity.
  - unfold checkFollowing, isFollowing, cursor_only. simpl.
    rewrite String.eqb_refl. simpl. rewrite String.eqb_refl. reflexivity.
Qed.

End FollowFacts.

(** ** Batching of event requests *)

Lemma skipn_step {A : Type} (i k : nat) (l : list A) :
  List.firstn k (List.skipn i l) ++ List.skipn (i + k) l = List.skipn i l.
Proof.
  rewrite (Nat.add_comm i k), <- List.skipn_skipn. apply List.firstn_skipn.
Qed.

Lemma ceilDiv_step (k : nat) :
  (0 < k)%nat ->
  ceilDiv k MAX_BATCH_SIZE = S (ceilDiv (k - MAX_BATCH_SIZE) MAX_BATCH_SIZE).
Proof.
  unfold ceilDiv, MAX_BATCH_SIZE. intros Hk.
  destruct (Nat.le_gt_cases 100 k) as [Hge|Hlt].
  - replace (k + (100 - 1))%nat with ((k - 100 + (100 - 1)) + 1 * 100)%nat by lia.
    rewrite Nat.div_add by lia. lia.
  - replace (k - 100)%nat with 0%nat by lia.
    replace (k + (100 - 1))%nat with ((k - 1) + 1 * 100)%nat by lia.
    rewrite Nat.div_add by lia.
    rewrite (Nat.div_small (k - 1) 100) by lia.
    rewrite (Nat.div_small (0 + (100 - 1)) 100) by lia. lia.
Qed.

Lemma requestEvents_from_spec (eventIds : list string) (i : nat) :
  let msgs := requestEvents_from eventIds i in
  List.length msgs = ceilDiv (List.length eventIds - i) MAX_BATCH_SIZE
  /\ Forall (fun m => isEventRequest m
                      /\ (List.length (batchOf m) <= MAX_BATCH_SIZE)%nat) msgs
  /\ List.concat (map batchOf msgs) = List.skipn i eventIds.
Proof.
  funelim (requestEvents_from eventIds i); cbv zeta.
  - match goal with
    | IH : _ /\ _ /\ _ |- _ => destruct IH as (Hlen & Hall & Hcat)
    end.
    repeat split.
    + cbn [List.length]. rewrite Hlen.
      rewrite (ceilDiv_step (List.length eventIds - i)) by lia.
      do 2 f_equal. lia.
    + constructor; [|exact Hall]. split; [exact I|].
      cbn [batchOf]. unfold slice. rewrite List.length_firstn. lia.
    + cbn [map batchOf List.concat]. rewrite Hcat. unfold slice.
      replace (i + MAX_BATCH_SIZE - i)%nat with MAX_BATCH_SIZE by lia.
      apply skipn_step.
  - repeat split.
    + replace (List.length eventIds - i)%nat with 0%nat by lia. reflexivity.
    + constructor.
    + symmetry. apply List.skipn_all2. lia.
Qed.

(** C9: [requestEvents] on [n] ids sends [ceil(n / 100)] event-request
    messages, all to the given peer, each with at most 100 ids, whose
    batches put end to end are the list it was given. *)
Theorem requestEvents_batches (peerId : PeerId) (eventIds : list string) :
  let out := requestEvents peerId eventIds in
  List.length out = ceilDiv (List.length eventIds) MAX_BATCH_SIZE
  /\ Forall (fun s => fst s = peerId
                      /\ isEventRequest (snd s)
                      /\ (List.length (batchOf (snd s)) <= MAX_BATCH_SIZE)%nat) out
  /\ List.concat (map (fun s => batchOf (snd s)) out) = eventIds.
Proof.
  intros out. subst out. unfold requestEvents.
  destruct (requestEvents_from_spec eventIds 0) as (Hlen & Hall & Hcat).
  cbv zeta in Hlen, Hall, Hcat. rewrite Nat.sub_0_r in Hlen.
  change (List.skipn 0 eventIds) with eventIds in Hcat.
  repeat split.
  - rewrite List.length_map. exact Hlen.
  - apply List.Forall_map.
    eapply List.Forall_impl; [|exact Hall]. cbn [fst snd]. intros m [Hm Hb]. auto.
  - rewrite List.map_map. cbn [snd]. exact Hcat.
Qed.

(** ** Sorting *)

Section SortFacts.
Context {A : Type} (key : A -> Z) (cmp : A -> A -> Z).
Hypothesis cmp_key : forall a b, cmp a b = key b - key a.

Local Abbreviation before := (newestFirst key).

Lemma sort_insert_In (x y : A) (l : list A) :
  In y (sort_insert cmp x l) <-> y = x \/ In y l.
Proof.
  induction l as [|z r IH]; simpl; [intuition|].
  destruct (cmp x z <=? 0); simpl; [intuition|].
  rewrite IH. intuition.
Qed.

Lemma sort_insert_sorted (x : A) (l : list A) :
  StronglySorted before l -> StronglySorted before (sort_insert cmp x l).
Proof.
  induction 1 as [|y r Hr IH Hy]; simpl.
  - repeat constructor.
  - destruct (Z.leb_spec (cmp x y) 0) as [Hle|Hgt]; rewrite cmp_key in *.
    + constructor; [constructor; assumption|].
      constructor; [unfold newestFirst; lia|].
      eapply List.Forall_impl; [|exact Hy]. unfold newestFirst. intros z Hz. lia.
    + constructor; [exact IH|].
      apply List.Forall_forall. intros z Hz.
      apply sort_insert_In in Hz as [->|Hz]; [unfold newestFirst; lia|].
      exact (proj1 (List.Forall_forall _ _) Hy z Hz).
Qed.

Lemma sort_sorted (l : list A) : StronglySorted before (sort cmp l).
Proof.
  induction l as [|x r IH]; simpl; [constructor|].
  apply sort_insert_sorted. exact IH.
Qed.

Lemma firstn_sorted (k : nat) (l : list A) :
  StronglySorted before l -> StronglySorted before (List.firstn k l).
Proof.
  intros Hs. revert k. induction Hs as [|y r Hr IH Hy]; intros [|k]; simpl;
    try constructor.
  - apply IH.
  - apply Forall_take. exact Hy.
Qed.

Lemma slice0_sorted (k : Z) (l : list A) :
  StronglySorted before l -> StronglySorted before (slice0 k l).
Proof. intros Hs. unfold slice0. destruct (k <? 0); apply firstn_sorted, Hs. Qed.

End SortFacts.

(** ** The feed *)

Lemma byItemDesc_key (a b : FeedItem.t) :
  byItemDesc a b = FeedItem.timestamp b - FeedItem.timestamp a.
Proof. reflexivity. Qed.

Lemma byTimestampDesc_key (a b : Event) :
  byTimestampDesc a b = timestamp b - timestamp a.
Proof. reflexivity. Qed.

Lemma toItem_sorted (l : list Event) :
  StronglySorted (newestFirst timestamp) l ->
  StronglySorted itemBefore (map toItem l).
Proof.
  induction 1 as [|y r Hr IH Hy]; simpl; constructor; [exact IH|].
  apply List.Forall_map. exact Hy.
Qed.

Lemma getPostsByTopic_sorted (topic : string) (limit : Z) (d : DB) :
  StronglySorted itemBefore (map toItem (getPostsByTopic topic limit d)).
Proof.
  apply toItem_sorted. unfold getPostsByTopic.
  apply (slice0_sorted timestamp).
  apply (sort_sorted timestamp byTimestampDesc byTimestampDesc_key).
Qed.

Section FeedFacts.
Context `{Platform}.

Lemma refresh_home_sorted (myPublicKey : list byte) (d : DB) (fe : FeedEngine) :
  StronglySorted itemBefore (feedItems (refresh myPublicKey d fe)).
Proof. apply (sort_sorted FeedItem.timestamp byItemDesc byItemDesc_key). Qed.

Lemma feedStep_home_sorted (myPublicKey : list byte) (fe : FeedEngine) (op : FeedOp) :
  StronglySorted itemBefore (feedItems fe) ->
  StronglySorted itemBefore (feedItems (feedStep myPublicKey fe op)).
Proof.
  intros Hs. destruct op as [d|d ev|topic|topic d|]; simpl.
  - apply (refresh_home_sorted myPublicKey d fe).
  - unfold addEvent. destruct (negb (is_post ev)); [exact Hs|]. simpl.
    destruct (_ && _); [|exact Hs].
    apply (sort_sorted FeedItem.timestamp byItemDesc byItemDesc_key).
  - exact Hs.
  - exact Hs.
  - constructor.
Qed.

Lemma feedStep_topic_sorted (myPublicKey : list byte) (fe : FeedEngine) (op : FeedOp) :
  StronglySorted itemBefore (topicFeedItems fe) ->
  addsNewest myPublicKey fe [op] ->
  StronglySorted itemBefore (topicFeedItems (feedStep myPublicKey fe op)).
Proof.
  intros Hs [Hnew _]. destruct op as [d|d ev|topic|topic d|]; simpl.
  - exact Hs.
  - unfold addEvent. destruct (is_post ev); [|exact Hs]. simpl in *.
    destruct (forTopic ev fe); [|exact Hs].
    constructor; [exact Hs|].
    destruct (topicFeedItems fe) as [|h r]; [constructor|].
    inversion Hs as [|? ? Hr Hh]; subst.
    constructor; [exact Hnew|].
    eapply List.Forall_impl; [|exact Hh].
    unfold itemBefore, newestFirst in *. simpl. intros z Hz. lia.
  - exact Hs.
  - apply getPostsByTopic_sorted.
  - exact Hs.
Qed.

Lemma feedRun_home_sorted (myPublicKey : list byte) (ops : list FeedOp) (fe : FeedEngine) :
  StronglySorted itemBefore (feedItems fe) ->
  StronglySorted itemBefore
    (feedItems (List.fold_left (feedStep myPublicKey) ops fe)).
Proof.
  revert fe. induction ops as [|op r IH]; intros fe Hs; simpl; [exact Hs|].
  apply IH, feedStep_home_sorted, Hs.
Qed.

Lemma feedRun_topic_sorted (myPublicKey : list byte) (ops : list FeedOp) (fe : FeedEngine) :
  StronglySorted itemBefore (topicFeedItems fe) ->
  addsNewest myPublicKey fe ops ->
  StronglySorted itemBefore
    (topicFeedItems (List.fold_left (feedStep myPublicKey) ops fe)).
Proof.
  revert fe. induction ops as [|op r IH]; intros fe Hs Hn; simpl; [exact Hs|].
  destruct Hn as [Hop Hr].
  apply IH; [|exact Hr].
  apply feedStep_topic_sorted; [exact Hs|]. split; [exact Hop|exact I].
Qed.

(** C7 (amended): after any sequence of [refresh], [addEvent],
    [refreshTopicFeed], [setTopicFilter] (and [clear]) operations on a new
    engine, [getFeedItems] is non-increasing by timestamp when it serves
    the home feed (no topic filter); it is non-increasing for the topic
    feed as well when every post that [addEvent] put into the topic feed
    was at least as new as the head of the topic feed at that moment:
    [addEvent] puts a matching post at the head without sorting. *)
Theorem getFeedItems_non_increasing (myPublicKey : list byte) (ops : list FeedOp)
    (limit : option Z) :
  topicFilter (feedRun myPublicKey ops) = None
  \/ addsNewest myPublicKey newFeedEngine ops ->
  non_increasing (getFeedItems limit (feedRun myPublicKey ops)).
Proof.
  intros Hcase. unfold non_increasing. apply StronglySorted_Sorted.
  change (StronglySorted itemBefore (getFeedItems limit (feedRun myPublicKey ops))).
  assert (Hhome : StronglySorted itemBefore (feedItems (feedRun myPublicKey ops))).
  { apply feedRun_home_sorted. constructor. }
  assert (Hitems : StronglySorted itemBefore
                     match topicFilter (feedRun myPublicKey ops) with
                     | Some f => if Str.truthy f
                                 then topicFeedItems (feedRun myPublicKey ops)
                                 else feedItems (feedRun myPublicKey ops)
                     | None => feedItems (feedRun myPublicKey ops)
                     end).
  { destruct Hcase as [Hnone|Hnew].
    - rewrite Hnone. exact Hhome.
    - destruct (topicFilter (feedRun myPublicKey ops)) as [f|]; [|exact Hhome].
      destruct (Str.truthy f); [|exact Hhome].
      apply feedRun_topic_sorted; [constructor|exact Hnew]. }
  unfold getFeedItems. destruct limit as [l|]; [|exact Hitems].
  destruct (l =? 0); [exact Hitems|].
  apply (slice0_sorted FeedItem.timestamp). exact Hitems.
Qed.

End FeedFacts.

(** C7 (as stated) fails: with the topic filter on [tech] and a post of
    timestamp 2000 in the topic feed, [addEvent] of a matching post of
    timestamp 1000 puts it at the head. *)
Lemma topic_feed_prepend_breaks_order :
  let newer := Sim.post 2000 Sim.bob "second" "tech" in
  let older := Sim.post 1000 Sim.bob "first" "tech" in
  let d := storeAll [newer] emptyDB in
  let ops := [SetTopicFilter (Some "tech"); RefreshTopicFeed "tech" d;
              AddEvent (storeEvent older d) older] in
  ~ non_increasing (getFeedItems None (@feedRun Sim.platform Sim.alice ops)).
Proof.
  intros newer older d ops Hs. unfold non_increasing in Hs.
  vm_compute in Hs.
  inversion Hs as [|a l Hl Hhd]; subst.
  inversion Hhd as [|b l' Hle]; subst.
  apply Hle. reflexivity.
Qed.

(** C7 (amended) on the executable platform: the topic feed holds a post
    of timestamp 1000 and [addEvent] brings one of timestamp 2000. *)
Lemma getFeedItems_non_increasing_witness :
  let newer := Sim.post 2000 Sim.bob "second" "tech" in
  let older := Sim.post 1000 Sim.bob "first" "tech" in
  let d := storeAll [older] emptyDB in
  let ops := [SetTopicFilter (Some "tech"); RefreshTopicFeed "tech" d;
              AddEvent (storeEvent newer d) newer] in
  (topicFilter (@feedRun Sim.platform Sim.alice ops) = None
   \/ @addsNewest Sim.platform Sim.alice newFeedEngine ops)
  /\ non_increasing (getFeedItems None (@feedRun Sim.platform Sim.alice ops)).
Proof.
  intros newer older d ops.
  assert (Hcase : topicFilter (@feedRun Sim.platform Sim.alice ops) = None
                  \/ @addsNewest Sim.platform Sim.alice newFeedEngine ops).
  { right. vm_compute. repeat split; discriminate. }
  split; [exact Hcase|].
  exact (@getFeedItems_non_increasing Sim.platform Sim.alice ops None Hcase).
Defined.

(** ** The anti-entropy exchange *)

Lemma inbox_app (p : PeerId) (l1 l2 : list Send) :
  inbox p (l1 ++ l2) = inbox p l1 ++ inbox p l2.
Proof. unfold inbox. rewrite List.filter_app, List.map_app. reflexivity. Qed.

Lemma inbox_to (p : PeerId) (ms : list GossipMessage) :
  inbox p (map (fun m => (p, m)) ms) = ms.
Proof.
  unfold inbox. induction ms as [|m r IH]; simpl; [reflexivity|].
  rewrite String.eqb_refl. simpl. f_equal. exact IH.
Qed.

Lemma inbox_all (p : PeerId) (out : list Send) :
  Forall (fun s => fst s = p) out -> inbox p out = map snd out.
Proof.
  unfold inbox. induction 1 as [|[q m] r Hs Hr IH]; simpl; [reflexivity|].
  simpl in Hs. subst q. rewrite String.eqb_refl. simpl. f_equal. exact IH.
Qed.

Lemma requestEvents_guard (p : PeerId) (l : list string) :
  (if (0 <? List.length l)%nat then requestEvents p l else []) = requestEvents p l.
Proof. destruct l; reflexivity. Qed.

Lemma requestEvents_concat (l : list string) :
  Forall isEventRequest (requestEvents_from l 0)
  /\ List.concat (map batchOf (requestEvents_from l 0)) = l.
Proof.
  destruct (requestEvents_from_spec l 0) as (_ & Hall & Hcat). split.
  - eapply List.Forall_impl; [|exact Hall]. cbv beta. tauto.
  - exact Hcat.
Qed.

Lemma lookupEvents_app (l1 l2 : list string) (d : DB) :
  lookupEvents (l1 ++ l2) d = lookupEvents l1 d ++ lookupEvents l2 d.
Proof.
  induction l1 as [|i r IH]; simpl; [reflexivity|].
  destruct (getEvent i d); simpl; rewrite IH; reflexivity.
Qed.

Lemma lookupEvents_In (l : list string) (d : DB) (e : Event) :
  In e (lookupEvents l d) -> In e (events d) /\ In (id e) l.
Proof.
  induction l as [|i r IH]; simpl; [tauto|].
  destruct (getEvent i d) as [x|] eqn:Hg; simpl.
  - intros [<-|Hin].
    + apply get_Some in Hg as [Hin Hid]. auto.
    + destruct (IH Hin). auto.
  - intros Hin. destruct (IH Hin). auto.
Qed.

Lemma lookupEvents_ids (l : list string) (d : DB) :
  (forall i, In i l -> In i (getAllEventIds d)) ->
  map id (lookupEvents l d) = l.
Proof.
  induction l as [|i r IH]; simpl; intros Hl; [reflexivity|].
  destruct (get_In id i (events d)) as [x Hx].
  { apply getAllEventIds_In, Hl. now left. }
  unfold getEvent. rewrite Hx. simpl.
  apply get_Some in Hx as [_ ->]. f_equal. apply IH. auto.
Qed.

Lemma carriedAll_answers (d : DB) (msgs : list GossipMessage) :
  carriedAll (map (answer d) msgs) = lookupEvents (List.concat (map batchOf msgs)) d.
Proof.
  unfold carriedAll. induction msgs as [|m r IH]; simpl; [reflexivity|].
  rewrite lookupEvents_app, IH. reflexivity.
Qed.

Lemma answers_carry (d : DB) (msgs : list GossipMessage) :
  Forall carriesEvents (map (answer d) msgs).
Proof. apply List.Forall_map, List.Forall_forall. intros m _. exact I. Qed.

Lemma getAllEventIds_storeEvent (e : Event) (d : DB) (i : string) :
  In i (getAllEventIds (storeEvent e d)) <-> i = id e \/ In i (getAllEventIds d).
Proof.
  rewrite !getAllEventIds_In. unfold storeEvent. simpl. apply keys_put.
Qed.

Section ExchangeFacts.
Context `{Platform}.

Lemma handleAll_app (peers : list PeerId) (p : PeerId)
    (l1 l2 : list GossipMessage) (n : Node) :
  handleAll peers p (l1 ++ l2) n
  = let '(n1, out1) := handleAll peers p l1 n in
    let '(n2, out2) := handleAll peers p l2 n1 in
    (n2, out1 ++ out2).
Proof.
  revert n. induction l1 as [|m r IH]; intros n; simpl.
  - destruct (handleAll peers p l2 n). reflexivity.
  - destruct (handleMessage peers p m n) as [n1 o1]. rewrite IH.
    destruct (handleAll peers p r n1) as [n2 o2].
    destruct (handleAll peers p l2 n2) as [n3 o3].
    rewrite List.app_assoc. reflexivity.
Qed.

(** Requests change nothing at a node; each is answered. *)
Lemma handleMessage_request (peers : list PeerId) (p : PeerId)
    (m : GossipMessage) (n : Node) :
  isEventRequest m ->
  handleMessage peers p m n = (n, [(p, answer (db n) m)]).
Proof. intros Hm. destruct m; try contradiction. reflexivity. Qed.

Lemma handleAll_requests (peers : list PeerId) (p : PeerId)
    (msgs : list GossipMessage) (n : Node) :
  Forall isEventRequest msgs ->
  handleAll peers p msgs n = (n, map (fun m => (p, m)) (map (answer (db n)) msgs)).
Proof.
  induction 1 as [|m r Hm Hr IH]; simpl; [reflexivity|].
  rewrite (handleMessage_request peers p m n Hm), IH. reflexivity.
Qed.

Lemma handleMessage_syncResponse (peers : list PeerId) (p : PeerId)
    (missingIds theirMissingIds : list string) (n : Node) :
  handleMessage peers p (SyncResponse missingIds theirMissingIds) n
  = (n, requestEvents p missingIds).
Proof.
  unfold handleMessage, handleSyncResponse. rewrite requestEvents_guard. reflexivity.
Qed.

(** [start] leaves a node at rest whose seen ids are the stored ids, and
    [broadcastEvent] keeps seen ids stored. *)
Lemma start_seenStored (d : DB) : seenStored (start d).
Proof.
  intros i Hi. simpl in *. apply elem_of_list_to_set in Hi.
  apply list_elem_of_In. exact Hi.
Qed.

Lemma start_quiet (d : DB) : quiet (start d).
Proof. split; reflexivity. Qed.

Lemma broadcastEvent_seenStored (peers : list PeerId) (e : Event) (n : Node) :
  seenStored n -> seenStored (fst (broadcastEvent peers e n)).
Proof.
  intros Hs i Hi. simpl in *. apply getAllEventIds_storeEvent.
  apply elem_of_union in Hi as [Hi|Hi]; [|auto].
  apply elem_of_singleton in Hi. now left.
Qed.

(** Both properties are kept by every handler, whatever the message. *)
Lemma processIncomingEvent_inv (peers : list PeerId) (e : Event) (n n' : Node)
    (out : list Send) :
  processIncomingEvent peers e n = Some (n', out) ->
  (seenStored n -> seenStored n') /\ (quiet n -> quiet n').
Proof.
  unfold processIncomingEvent.
  destruct (decide _); [intros [= <- <-]; auto|].
  destruct (isValidEvent e) as [[|]|]; [|intros [= <- <-]; auto|discriminate].
  destruct (hasEvent (id e) (db n)) eqn:Hh.
  - intros [= <- <-]. split; [|auto].
    intros Hs i Hi. simpl in *. apply elem_of_union in Hi as [Hi|Hi]; [|auto].
    apply elem_of_singleton in Hi. subst. apply hasEvent_In, Hh.
  - unfold processEventQueue. simpl.
    destruct (processingQueue (gossip n)) eqn:Hpq; simpl; intros [= <- <-]; split.
    + intros Hs i Hi. simpl in *. apply getAllEventIds_storeEvent.
      apply elem_of_union in Hi as [Hi|Hi]; [|auto].
      apply elem_of_singleton in Hi. now left.
    + intros [_ Hq]. congruence.
    + intros Hs i Hi. simpl in *. apply getAllEventIds_storeEvent.
      apply elem_of_union in Hi as [Hi|Hi]; [|auto].
      apply elem_of_singleton in Hi. now left.
    + intros _. split; reflexivity.
Qed.

Lemma handleEventResponse_inv (peers : list PeerId) (evs : list Event) (n : Node) :
  (seenStored n -> seenStored (fst (handleEventResponse peers evs n)))
  /\ (quiet n -> quiet (fst (handleEventResponse peers evs n))).
Proof.
  revert n. induction evs as [|e r IH]; intros n; simpl; [auto|].
  destruct (processIncomingEvent peers e n) as [[n1 out1]|] eqn:Hp; [|auto].
  apply processIncomingEvent_inv in Hp as [Hs Hq].
  destruct (IH n1) as [Hs' Hq'].
  destruct (handleEventResponse peers r n1) as [n2 out2]. simpl in *. auto.
Qed.

Lemma handleMessage_inv (peers : list PeerId) (p : PeerId) (m : GossipMessage)
    (n : Node) :
  (seenStored n -> seenStored (fst (handleMessage peers p m n)))
  /\ (quiet n -> quiet (fst (handleMessage peers p m n))).
Proof.
  destruct m as [ids|mi ti|ids|evs|e]; simpl; auto.
  - apply handleEventResponse_inv.
  - unfold handleNewEvent.
    destruct (processIncomingEvent peers e n) as [[n1 out1]|] eqn:Hp; [|auto].
    apply processIncomingEvent_inv in Hp. exact Hp.
Qed.

Lemma learned_nil (p : PeerId) (n : Node) :
  seenStored n -> quiet n -> learned p [] n n [].
Proof.
  intros Hs Hq. unfold learned. split; [exact Hs|]. split; [exact Hq|].
  split; [intros i; simpl; tauto|]. split; [intros x Hx; now left|].
  split; [constructor|]. intros _. split; reflexivity.
Qed.

Lemma learned_trans (p : PeerId) (e1 e2 : list Event) (n n1 n2 : Node)
    (o1 o2 : list Send) :
  learned p e1 n n1 o1 -> learned p e2 n1 n2 o2 ->
  learned p (e1 ++ e2) n n2 (o1 ++ o2).
Proof.
  intros (_ & _ & Hids1 & Hev1 & Hout1 & Hk1) (Hs2 & Hq2 & Hids2 & Hev2 & Hout2 & Hk2).
  unfold learned. split; [exact Hs2|]. split; [exact Hq2|].
  split; [|split; [|split]].
  - intros i. rewrite Hids2, Hids1, List.map_app, List.in_app_iff. tauto.
  - intros x Hx. rewrite List.in_app_iff.
    apply Hev2 in Hx as [Hx|Hx]; [|tauto]. apply Hev1 in Hx. tauto.
  - apply List.Forall_app. split.
    + eapply List.Forall_impl; [|exact Hout1]. cbv beta.
      intros s (Hp & e & Hs & Hin). split; [exact Hp|].
      exists e. rewrite List.in_app_iff. auto.
    + eapply List.Forall_impl; [|exact Hout2]. cbv beta.
      intros s (Hp & e & Hs & Hin). split; [exact Hp|].
      exists e. rewrite List.in_app_iff. auto.
  - intros Hall.
    destruct Hk1 as [Hdb1 ->].
    { intros e He. apply Hall, List.in_app_iff. now left. }
    destruct Hk2 as [Hdb2 ->].
    { intros e He. rewrite Hdb1. apply Hall, List.in_app_iff. now right. }
    split; [congruence|reflexivity].
Qed.

(** A valid event at a node at rest whose seen ids are stored: it is
    accepted, and stored and rebroadcast unless its id is known. *)
Lemma processIncomingEvent_learned (p : PeerId) (e : Event) (n : Node) :
  seenStored n -> quiet n -> isValidEvent e = Some true ->
  exists n' out, processIncomingEvent [p] e n = Some (n', out)
                 /\ learned p [e] n n' out.
Proof.
  intros Hs [Hq Hpq] Hv. unfold processIncomingEvent.
  destruct (decide (id e ∈ seenEventIds (gossip n))) as [Hin|Hnin].
  - exists n, []. split; [reflexivity|].
    split; [exact Hs|]. split; [split; assumption|].
    split; [|split; [intros x Hx; now left|split; [constructor|auto]]].
    intros i. simpl. split; [tauto|]. intros [Hi|[<-|[]]]; auto.
  - rewrite Hv. destruct (hasEvent (id e) (db n)) eqn:Hh.
    + apply hasEvent_In in Hh. eexists _, []. split; [reflexivity|].
      split; [|split; [split; assumption|]].
      { intros i Hi. simpl in *. apply elem_of_union in Hi as [Hi|Hi]; [|auto].
        apply elem_of_singleton in Hi. now subst. }
      split; [|split; [intros x Hx; now left|split; [constructor|auto]]].
      intros i. simpl. split; [tauto|]. intros [Hi|[<-|[]]]; auto.
    + assert (Hno : ~ In (id e) (getAllEventIds (db n))).
      { intros Hin. apply hasEvent_In in Hin. congruence. }
      unfold processEventQueue. simpl. rewrite Hpq, Hq. simpl.
      eexists _, _. split; [reflexivity|].
      split; [|split; [split; reflexivity|]].
      { intros i Hi. simpl in *. apply getAllEventIds_storeEvent.
        apply elem_of_union in Hi as [Hi|Hi]; [|auto].
        apply elem_of_singleton in Hi. now left. }
      split; [|split; [|split]].
      * intros i. simpl db. rewrite getAllEventIds_storeEvent. simpl.
        intuition congruence.
      * intros x Hx. simpl in Hx. apply In_put in Hx as [->|Hx]; simpl; tauto.
      * constructor; [|constructor]. simpl. split; [reflexivity|].
        exists e. split; [reflexivity|now left].
      * intros Hall. exfalso. apply Hno, Hall. now left.
Qed.

Lemma handleEventResponse_learned (p : PeerId) (evs : list Event) (n : Node) :
  seenStored n -> quiet n ->
  Forall (fun e => isValidEvent e = Some true) evs ->
  learned p evs n (fst (handleEventResponse [p] evs n))
          (snd (handleEventResponse [p] evs n)).
Proof.
  intros Hs Hq Hv. revert n Hs Hq.
  induction Hv as [|e r He Hr IH]; intros n Hs Hq; simpl.
  - apply learned_nil; assumption.
  - destruct (processIncomingEvent_learned p e n Hs Hq He) as (n1 & out1 & Hp & H1).
    rewrite Hp. pose proof H1 as (Hs1 & Hq1 & _).
    pose proof (IH n1 Hs1 Hq1) as H2.
    destruct (handleEventResponse [p] r n1) as [n2 out2]. simpl in *.
    exact (learned_trans p [e] r n n1 n2 out1 out2 H1 H2).
Qed.

(** One message that carries valid events. *)
Lemma handleMessage_events (p : PeerId) (m : GossipMessage) (n : Node) :
  seenStored n -> quiet n -> carriesEvents m ->
  Forall (fun e => isValidEvent e = Some true) (carried m) ->
  learned p (carried m) n (fst (handleMessage [p] p m n))
          (snd (handleMessage [p] p m n)).
Proof.
  intros Hs Hq Hm Hv. destruct m as [| | |evs|e]; try contradiction; simpl.
  - apply handleEventResponse_learned; assumption.
  - pose proof (handleEventResponse_learned p [e] n Hs Hq Hv) as Hl.
    simpl in Hl. unfold handleNewEvent.
    destruct (processIncomingEvent [p] e n) as [[n1 out1]|]; [|exact Hl].
    simpl in Hl. rewrite List.app_nil_r in Hl. exact Hl.
Qed.

(** A list of messages that carry valid events. *)
Lemma handleAll_events (p : PeerId) (msgs : list GossipMessage) (n : Node) :
  seenStored n -> quiet n -> Forall carriesEvents msgs ->
  Forall (fun e => isValidEvent e = Some true) (carriedAll msgs) ->
  learned p (carriedAll msgs) n (fst (handleAll [p] p msgs n))
          (snd (handleAll [p] p msgs n)).
Proof.
  intros Hs Hq Hm. revert n Hs Hq. induction Hm as [|m r Hm Hr IH]; intros n Hs Hq Hv.
  - apply learned_nil; assumption.
  - unfold carriedAll in Hv. simpl in Hv. apply List.Forall_app in Hv as [Hv1 Hv2].
    pose proof (handleMessage_events p m n Hs Hq Hm Hv1) as H1.
    simpl. destruct (handleMessage [p] p m n) as [n1 o1]. simpl in H1.
    pose proof H1 as (Hs1 & Hq1 & _).
    pose proof (IH n1 Hs1 Hq1 Hv2) as H2.
    destruct (handleAll [p] p r n1) as [n2 o2]. simpl in H2. simpl.
    exact (learned_trans p _ _ _ _ _ _ _ H1 H2).
Qed.

(** What the new-event messages of a node that learned [evs] carry. *)
Lemma learned_rebroadcast (p : PeerId) (evs : list Event) (n n' : Node)
    (out : list Send) :
  learned p evs n n' out ->
  Forall carriesEvents (inbox p out)
  /\ (forall e, In e (carriedAll (inbox p out)) -> In e evs).
Proof.
  intros (_ & _ & _ & _ & Hout & _).
  rewrite (inbox_all p out).
  2:{ eapply List.Forall_impl; [|exact Hout]. cbv beta. tauto. }
  induction Hout as [|s r (Hp & e & Hs & Hin) Hr [IH1 IH2]]; simpl.
  - split; [constructor|]. intros e [].
  - rewrite Hs. split; [constructor; [exact I|exact IH1]|].
    intros x [<-|Hx]; auto.
Qed.

Lemma missing_In (i : string) (theirs ours : list string) :
  In i (List.filter (fun j => negb (has j ours)) theirs)
  <-> In i theirs /\ ~ In i ours.
Proof.
  rewrite List.filter_In, Bool.negb_true_iff.
  destruct (has i ours) eqn:Hh.
  - apply has_In in Hh. intuition congruence.
  - assert (~ In i ours) by (intros Hin; apply has_In in Hin; congruence). tauto.
Qed.

Lemma In_dec_ids (i : string) (l : list string) : In i l \/ ~ In i l.
Proof.
  destruct (has i l) eqn:Hh; [left; apply has_In, Hh|right].
  intros Hin. apply has_In in Hin. congruence.
Qed.

Lemma allValid_lookup (l : list string) (d : DB) :
  allValid d -> Forall (fun e => isValidEvent e = Some true) (lookupEvents l d).
Proof.
  intros Hv. apply List.Forall_forall. intros e He.
  apply lookupEvents_In in He as [He _].
  exact (proj1 (List.Forall_forall _ _) Hv e He).
Qed.

(** Round 1: [B] answers the sync-request with the sync-response and its
    own event-requests. *)
Lemma exchange_round1 (a b : Node) :
  let theirs := newSet (getAllEventIds (db a)) in
  let ours := getAllEventIds (db b) in
  let missingIds := List.filter (fun i => negb (has i ours)) theirs in
  let theirMissingIds := List.filter (fun i => negb (has i theirs)) ours in
  deliverToB (connect a b)
  = {| nodeA := a; nodeB := b;
       toA := SyncResponse theirMissingIds missingIds
              :: requestEvents_from missingIds 0;
       toB := [] |}.
Proof.
  intros theirs ours missingIds theirMissingIds.
  unfold deliverToB, connect.
  change (inbox peerB (syncWithPeer peerB a)) with [SyncRequest (getAllEventIds (db a))].
  cbn [toB toA nodeA nodeB handleAll handleMessage].
  unfold handleSyncRequest. rewrite requestEvents_guard.
  fold theirs ours. fold missingIds. fold theirMissingIds.
  rewrite List.app_nil_r. unfold requestEvents.
  change ((peerA, SyncResponse theirMissingIds missingIds)
          :: map (fun m => (peerA, m)) (requestEvents_from missingIds 0))
    with (map (fun m => (peerA, m))
              (SyncResponse theirMissingIds missingIds
               :: requestEvents_from missingIds 0)).
  rewrite inbox_to. reflexivity.
Qed.

(** Round 2: [A] asks for what the sync-response offers and answers the
    event-requests of [B]. *)
Lemma exchange_round2 (a b : Node) (missingIds theirMissingIds : list string)
    (reqs : list GossipMessage) :
  Forall isEventRequest reqs ->
  deliverToA {| nodeA := a; nodeB := b;
                toA := SyncResponse missingIds theirMissingIds :: reqs;
                toB := [] |}
  = {| nodeA := a; nodeB := b; toA := [];
       toB := requestEvents_from missingIds 0 ++ map (answer (db a)) reqs |}.
Proof.
  intros Hreqs. unfold deliverToA. cbn [toB toA nodeA nodeB handleAll].
  rewrite (handleMessage_syncResponse [peerB] peerB _ _ a).
  rewrite (handleAll_requests [peerB] peerB reqs a Hreqs).
  unfold requestEvents. rewrite <- List.map_app, inbox_to. reflexivity.
Qed.

(** A round in which requests come first and event-carrying messages
    after them. *)
Lemma handleAll_requests_events (p : PeerId) (reqs evmsgs : list GossipMessage)
    (n : Node) :
  seenStored n -> quiet n ->
  Forall isEventRequest reqs -> Forall carriesEvents evmsgs ->
  Forall (fun e => isValidEvent e = Some true) (carriedAll evmsgs) ->
  exists n' out,
    handleAll [p] p (reqs ++ evmsgs) n = (n', out)
    /\ inbox p out = map (answer (db n)) reqs ++ inbox p (snd (handleAll [p] p evmsgs n))
    /\ n' = fst (handleAll [p] p evmsgs n)
    /\ learned p (carriedAll evmsgs) n n' (snd (handleAll [p] p evmsgs n)).
Proof.
  intros Hs Hq Hreqs Hev Hv.
  pose proof (handleAll_events p evmsgs n Hs Hq Hev Hv) as Hl.
  rewrite handleAll_app, (handleAll_requests [p] p reqs n Hreqs).
  destruct (handleAll [p] p evmsgs n) as [n' out]. simpl in Hl.
  exists n', (map (fun m => (p, m)) (map (answer (db n)) reqs) ++ out).
  split; [reflexivity|]. split; [|split; [reflexivity|exact Hl]].
  rewrite inbox_app, inbox_to. reflexivity.
Qed.

(** X28: convergence where every stored event passes [isValidEvent].
    Two peers at rest whose stores hold only such events and whose seen
    ids are stored ids (as [start] leaves them) run one exchange: [A]
    sends its ids, [B] answers with the sync-response and its
    event-requests, both sides answer the event-requests and process the
    event-responses, and the rebroadcasts are discarded.  Afterwards no
    message is in flight and [getAllEventIds] is the same set on both
    sides, namely the union of the two original sets.  This holds for
    disjoint stores in particular.  A store that holds a profile event is
    not among these stores. *)
Theorem anti_entropy_convergence (a b : Node) :
  allValid (db a) -> allValid (db b) ->
  seenStored a -> seenStored b -> quiet a -> quiet b ->
  let net := exchange a b in
  toA net = [] /\ toB net = []
  /\ sameIds (db (nodeA net)) (db (nodeB net))
  /\ (forall i, In i (getAllEventIds (db (nodeA net)))
                <-> In i (getAllEventIds (db a)) \/ In i (getAllEventIds (db b))).
Proof.
  intros HvA HvB HsA HsB HqA HqB.
  unfold exchange.
  rewrite (exchange_round1 a b). cbv zeta.
  set (theirs := newSet (getAllEventIds (db a))).
  set (ours := getAllEventIds (db b)).
  set (MB := List.filter (fun i => negb (has i ours)) theirs).
  set (MA := List.filter (fun i => negb (has i theirs)) ours).
  destruct (requestEvents_concat MB) as [HreqB HcatB].
  destruct (requestEvents_concat MA) as [HreqA HcatA].
  rewrite (exchange_round2 a b MA MB _ HreqB).
  set (RA := map (answer (db a)) (requestEvents_from MB 0)).
  set (RB := map (answer (db b)) (requestEvents_from MA 0)).
  assert (HRA : carriedAll RA = lookupEvents MB (db a)).
  { unfold RA. rewrite carriedAll_answers, HcatB. reflexivity. }
  assert (HRB : carriedAll RB = lookupEvents MA (db b)).
  { unfold RB. rewrite carriedAll_answers, HcatA. reflexivity. }
  assert (HidsRA : map id (carriedAll RA) = MB).
  { rewrite HRA. apply lookupEvents_ids. intros i Hi.
    apply missing_In in Hi as [Hi _]. unfold theirs in Hi.
    exact (proj1 (newSet_In _ _) Hi). }
  assert (HidsRB : map id (carriedAll RB) = MA).
  { rewrite HRB. apply lookupEvents_ids. intros i Hi.
    apply missing_In in Hi as [Hi _]. exact Hi. }
  (* round 3: B answers A's requests and stores A's events *)
  destruct (handleAll_requests_events peerA (requestEvents_from MA 0) RA b
              HsB HqB HreqA (answers_carry _ _)) as (b3 & out3 & H3 & Hin3 & Hb3 & Hl3).
  { rewrite HRA. apply allValid_lookup, HvA. }
  fold RB in Hin3.
  set (NB := inbox peerA (snd (handleAll [peerA] peerA RA b))) in *.
  destruct (learned_rebroadcast _ _ _ _ _ Hl3) as [HNB HNBin]. fold NB in HNB, HNBin.
  assert (E3 : deliverToB {| nodeA := a; nodeB := b; toA := [];
                             toB := requestEvents_from MA 0 ++ RA |}
               = {| nodeA := a; nodeB := b3; toA := RB ++ NB; toB := [] |}).
  { unfold deliverToB. cbn [toB toA nodeA nodeB]. rewrite H3, Hin3. reflexivity. }
  rewrite E3. clear E3 H3 Hin3.
  destruct Hl3 as (Hs3 & Hq3 & Hids3 & _ & _ & _).
  (* round 4: A stores B's events and discards the rebroadcasts *)
  assert (Hv4 : Forall (fun e => isValidEvent e = Some true) (carriedAll (RB ++ NB))).
  { unfold carriedAll. rewrite List.flat_map_app. apply List.Forall_app. split.
    - fold (carriedAll RB). rewrite HRB. apply allValid_lookup, HvB.
    - apply List.Forall_forall. intros e He. apply HNBin in He.
      rewrite HRA in He. apply lookupEvents_In in He as [He _].
      exact (proj1 (List.Forall_forall _ _) HvA e He). }
  assert (Hc4 : Forall carriesEvents (RB ++ NB)).
  { apply List.Forall_app. split; [apply answers_carry|exact HNB]. }
  pose proof (handleAll_events peerB (RB ++ NB) a HsA HqA Hc4 Hv4) as Hl4.
  destruct (handleAll [peerB] peerB (RB ++ NB) a) as [a4 out4] eqn:H4.
  cbn [fst snd] in Hl4.
  destruct (learned_rebroadcast _ _ _ _ _ Hl4) as [HNA HNAin].
  set (NA := inbox peerB out4) in *.
  assert (E4 : deliverToA {| nodeA := a; nodeB := b3; toA := RB ++ NB; toB := [] |}
               = {| nodeA := a4; nodeB := b3; toA := []; toB := NA |}).
  { unfold deliverToA. cbn [toB toA nodeA nodeB]. rewrite H4. reflexivity. }
  rewrite E4. clear E4 H4.
  destruct Hl4 as (_ & _ & Hids4 & _ & _ & _).
  (* round 5: B discards the rebroadcasts of its own events *)
  assert (Hknown : forall e, In e (carriedAll NA) -> In e (events (db a)) \/ In e (events (db b))).
  { intros e He. apply HNAin in He. unfold carriedAll in He.
    rewrite List.flat_map_app in He. apply List.in_app_iff in He as [He|He].
    - fold (carriedAll RB) in He. rewrite HRB in He.
      apply lookupEvents_In in He as [He _]. now right.
    - apply HNBin in He. rewrite HRA in He.
      apply lookupEvents_In in He as [He _]. now left. }
  assert (Hv5 : Forall (fun e => isValidEvent e = Some true) (carriedAll NA)).
  { apply List.Forall_forall. intros e He. apply Hknown in He as [He|He].
    - exact (proj1 (List.Forall_forall _ _) HvA e He).
    - exact (proj1 (List.Forall_forall _ _) HvB e He). }
  pose proof (handleAll_events peerA NA b3 Hs3 Hq3 HNA Hv5) as Hl5.
  destruct (handleAll [peerA] peerA NA b3) as [b5 out5] eqn:H5.
  cbn [fst snd] in Hl5.
  destruct Hl5 as (_ & _ & _ & _ & _ & Hsame).
  destruct Hsame as [Hdb5 ->].
  { intros e He. apply Hids3.
    assert (Hid : forall x d, In x (events d) -> In (id x) (getAllEventIds d)).
    { intros x d Hx. apply getAllEventIds_In, List.in_map, Hx. }
    pose proof He as He'. apply HNAin in He'. unfold carriedAll in He'.
    rewrite List.flat_map_app in He'. apply List.in_app_iff in He' as [He'|He'].
    - fold (carriedAll RB) in He'. rewrite HRB in He'.
      apply lookupEvents_In in He' as [He' _]. left. apply Hid, He'.
    - right. apply List.in_map. apply HNBin, He'. }
  unfold deliverToB. cbn [toB toA nodeA nodeB]. rewrite H5.
  cbn [toB toA nodeA nodeB]. rewrite Hdb5.
  assert (HidsA : forall i, In i (getAllEventIds (db a4))
                            <-> In i (getAllEventIds (db a)) \/ In i (getAllEventIds (db b))).
  { intros i. rewrite Hids4. unfold carriedAll. rewrite List.flat_map_app, List.map_app.
    fold (carriedAll RB). fold (carriedAll NB). rewrite List.in_app_iff, HidsRB.
    unfold MA. rewrite missing_In. fold ours. unfold theirs. rewrite newSet_In.
    split.
    - intros [Hi|[[Hi _]|Hi]]; auto.
      apply List.in_map_iff in Hi as (e & <- & He). apply HNBin in He.
      rewrite HRA in He. apply lookupEvents_In in He as [He _].
      left. apply getAllEventIds_In, List.in_map, He.
    - intros [Hi|Hi]; [now left|].
      destruct (In_dec_ids i (getAllEventIds (db a))); auto. }
  split; [reflexivity|]. split; [reflexivity|]. split; [|exact HidsA].
  intros i. rewrite HidsA, Hids3, HidsRA.
  unfold MB. rewrite missing_In. unfold theirs. rewrite newSet_In. fold ours.
  split.
  - intros [Hi|Hi]; [|now left].
    destruct (In_dec_ids i ours); auto.
  - intros [Hi|[Hi _]]; auto.
Qed.

End ExchangeFacts.

(** The exchange on the executable platform: [alice]'s node holds two
    posts, [bob]'s one. *)
Lemma anti_entropy_convergence_witness :
  let a := Sim.node [Sim.post 1000 Sim.alice "hello" "tech";
                     Sim.post 2000 Sim.alice "second" ""] in
  let b := Sim.node [Sim.post 1500 Sim.bob "yo" "general"] in
  (@allValid Sim.platform (db a) /\ @allValid Sim.platform (db b)
   /\ seenStored a /\ seenStored b /\ quiet a /\ quiet b
   /\ disjointIds (db a) (db b))
  /\ sameIds (db (nodeA (@exchange Sim.platform a b)))
             (db (nodeB (@exchange Sim.platform a b))).
Proof.
  intros a b.
  assert (HvA : @allValid Sim.platform (db a)).
  { repeat constructor; vm_compute; reflexivity. }
  assert (HvB : @allValid Sim.platform (db b)).
  { repeat constructor; vm_compute; reflexivity. }
  assert (Hd : disjointIds (db a) (db b)).
  { intros i Hi Hj. vm_compute in Hi, Hj.
    destruct Hj as [<-|[]]. destruct Hi as [Hi|[Hi|[]]]; discriminate Hi. }
  split.
  - repeat split; try assumption; try apply start_seenStored.
  - exact (proj1 (proj2 (proj2
      (@anti_entropy_convergence Sim.platform a b HvA HvB
         (start_seenStored _) (start_seenStored _)
         (start_quiet _) (start_quiet _))))).
Defined.

(** ** A profile event does not travel *)

Lemma put_keeps {V : Type} (keyPath : V -> string) (v x : V) (s : list V) :
  In x s -> keyPath x <> keyPath v -> In x (put keyPath v s).
Proof.
  intros Hin Hne. induction s as [|y r IH]; [destruct Hin|]. simpl.
  destruct (String.compare (keyPath v) (keyPath y)) eqn:Hc.
  - apply String.compare_eq_iff in Hc. destruct Hin as [->|Hin]; [|now right].
    exfalso. apply Hne. now symmetry.
  - right. exact Hin.
  - destruct Hin as [->|Hin]; [now left|right; apply IH, Hin].
Qed.

Lemma inbox_In (p : PeerId) (out : list Send) (m : GossipMessage) :
  In m (inbox p out) -> exists s, In s out /\ snd s = m.
Proof.
  unfold inbox. intros Hm. apply List.in_map_iff in Hm as (s & Hs & Hin).
  apply List.filter_In in Hin as [Hin _]. eauto.
Qed.

Lemma carriedAll_In (msgs : list GossipMessage) (x : Event) :
  In x (carriedAll msgs) <-> exists m, In m msgs /\ In x (carried m).
Proof. unfold carriedAll. apply List.in_flat_map. Qed.

Lemma requestEvents_carry_nothing (p : PeerId) (l : list string) (s : Send) :
  In s (requestEvents p l) -> carried (snd s) = [].
Proof.
  unfold requestEvents. intros Hs. apply List.in_map_iff in Hs as (m & <- & Hm).
  destruct (requestEvents_concat l) as [Hreq _].
  pose proof (proj1 (List.Forall_forall _ _) Hreq m Hm) as Hr.
  destruct m; try contradiction. reflexivity.
Qed.

Section MovedEvents.
Context `{Platform}.

(** A handler of a node at rest moves events, it makes none: the node
    keeps what it holds, what it holds in addition came with the message
    and passed [isValidEvent], and what it sends it holds. *)
Lemma processIncomingEvent_moves (peers : list PeerId) (e : Event) (n n' : Node)
    (out : list Send) :
  processIncomingEvent peers e n = Some (n', out) -> quiet n ->
  quiet n'
  /\ (forall x, In x (events (db n)) -> In x (events (db n')))
  /\ (forall x, In x (events (db n')) ->
        In x (events (db n)) \/ (x = e /\ isValidEvent e = Some true))
  /\ (forall s x, In s out -> In x (carried (snd s)) -> In x (events (db n'))).
Proof.
  intros Hp [Hq Hpq]. unfold processIncomingEvent in Hp.
  destruct (decide _).
  { injection Hp as <- <-. split; [split; assumption|].
    split; [auto|split; [auto|intros s x []]]. }
  destruct (isValidEvent e) as [[|]|] eqn:Hv; [|injection Hp as <- <-|discriminate].
  2:{ split; [split; assumption|]. split; [auto|split; [auto|intros s x []]]. }
  destruct (hasEvent (id e) (db n)) eqn:Hh.
  { injection Hp as <- <-. split; [split; assumption|]. simpl.
    split; [auto|split; [auto|intros s x []]]. }
  unfold processEventQueue, enqueue, markSeen in Hp. simpl in Hp.
  rewrite Hpq, Hq in Hp. simpl in Hp. injection Hp as <- <-.
  split; [split; reflexivity|]. simpl. split; [|split].
  - intros x Hx. apply put_keeps; [exact Hx|]. intros Hid.
    assert (Hin : In (id e) (getAllEventIds (db n))).
    { apply getAllEventIds_In. rewrite <- Hid. apply List.in_map, Hx. }
    apply hasEvent_In in Hin. congruence.
  - intros x Hx. apply In_put in Hx as [->|Hx]; auto.
  - intros s x Hs Hx. rewrite List.app_nil_r in Hs.
    apply List.in_map_iff in Hs as (q & <- & _). simpl in Hx.
    destruct Hx as [<-|[]]. apply put_In.
Qed.

Lemma handleEventResponse_moves (peers : list PeerId) (evs : list Event) (n : Node) :
  quiet n ->
  quiet (fst (handleEventResponse peers evs n))
  /\ (forall x, In x (events (db n)) ->
        In x (events (db (fst (handleEventResponse peers evs n)))))
  /\ (forall x, In x (events (db (fst (handleEventResponse peers evs n)))) ->
        In x (events (db n)) \/ (In x evs /\ isValidEvent x = Some true))
  /\ (forall s x, In s (snd (handleEventResponse peers evs n)) ->
        In x (carried (snd s)) ->
        In x (events (db (fst (handleEventResponse peers evs n))))).
Proof.
  revert n. induction evs as [|e r IH]; intros n Hq; simpl.
  { split; [exact Hq|]. split; [auto|split; [auto|intros s x []]]. }
  destruct (processIncomingEvent peers e n) as [[n1 o1]|] eqn:Hp.
  2:{ simpl. split; [exact Hq|]. split; [auto|split; [auto|intros s x []]]. }
  apply processIncomingEvent_moves in Hp as (Hq1 & Hkeep1 & Hnew1 & Hout1);
    [|exact Hq].
  destruct (IH n1 Hq1) as (Hq2 & Hkeep2 & Hnew2 & Hout2).
  destruct (handleEventResponse peers r n1) as [n2 o2]. simpl in *.
  split; [exact Hq2|]. split; [auto|]. split.
  - intros x Hx. apply Hnew2 in Hx as [Hx|[Hx Hv]]; [|auto].
    apply Hnew1 in Hx as [Hx|[-> Hv]]; auto.
  - intros s x Hs Hx. apply List.in_app_or in Hs as [Hs|Hs]; eauto.
Qed.

Lemma handleMessage_moves (peers : list PeerId) (p : PeerId) (m : GossipMessage)
    (n : Node) :
  quiet n ->
  quiet (fst (handleMessage peers p m n))
  /\ (forall x, In x (events (db n)) ->
        In x (events (db (fst (handleMessage peers p m n)))))
  /\ (forall x, In x (events (db (fst (handleMessage peers p m n)))) ->
        In x (events (db n)) \/ (In x (carried m) /\ isValidEvent x = Some true))
  /\ (forall s x, In s (snd (handleMessage peers p m n)) ->
        In x (carried (snd s)) ->
        In x (events (db (fst (handleMessage peers p m n))))).
Proof.
  intros Hq. destruct m as [ids|mi ti|ids|evs|e]; simpl.
  - split; [exact Hq|]. split; [auto|]. split; [auto|]. intros s x Hs Hx.
    unfold handleSyncRequest in Hs. destruct Hs as [<-|Hs]; [destruct Hx|].
    destruct (0 <? _)%nat; [|destruct Hs].
    rewrite (requestEvents_carry_nothing _ _ _ Hs) in Hx. destruct Hx.
  - split; [exact Hq|]. split; [auto|]. split; [auto|]. intros s x Hs Hx.
    unfold handleSyncResponse in Hs. destruct (0 <? _)%nat; [|destruct Hs].
    rewrite (requestEvents_carry_nothing _ _ _ Hs) in Hx. destruct Hx.
  - split; [exact Hq|]. split; [auto|]. split; [auto|]. intros s x Hs Hx.
    unfold handleEventRequest in Hs. destruct Hs as [<-|[]]. simpl in Hx.
    apply lookupEvents_In in Hx as [Hx _]. exact Hx.
  - apply handleEventResponse_moves, Hq.
  - pose proof (handleEventResponse_moves peers [e] n Hq) as Hm. simpl in Hm.
    unfold handleNewEvent.
    destruct (processIncomingEvent peers e n) as [[n1 o1]|]; simpl in *.
    + rewrite List.app_nil_r in Hm. exact Hm.
    + exact Hm.
Qed.

Lemma handleAll_moves (peers : list PeerId) (p : PeerId)
    (msgs : list GossipMessage) (n : Node) :
  quiet n ->
  quiet (fst (handleAll peers p msgs n))
  /\ (forall x, In x (events (db n)) ->
        In x (events (db (fst (handleAll peers p msgs n)))))
  /\ (forall x, In x (events (db (fst (handleAll peers p msgs n)))) ->
        In x (events (db n))
        \/ (In x (carriedAll msgs) /\ isValidEvent x = Some true))
  /\ (forall s x, In s (snd (handleAll peers p msgs n)) ->
        In x (carried (snd s)) ->
        In x (events (db (fst (handleAll peers p msgs n))))).
Proof.
  revert n. induction msgs as [|m r IH]; intros n Hq; simpl.
  { split; [exact Hq|]. split; [auto|split; [auto|intros s x []]]. }
  destruct (handleMessage_moves peers p m n Hq) as (Hq1 & Hkeep1 & Hnew1 & Hout1).
  destruct (handleMessage peers p m n) as [n1 o1]. simpl in *.
  destruct (IH n1 Hq1) as (Hq2 & Hkeep2 & Hnew2 & Hout2).
  destruct (handleAll peers p r n1) as [n2 o2]. simpl in *.
  split; [exact Hq2|]. split; [auto|]. split.
  - intros x Hx. unfold carriedAll. simpl. rewrite List.in_app_iff.
    apply Hnew2 in Hx as [Hx|[Hx Hv]]; [|auto].
    apply Hnew1 in Hx as [Hx|[Hx Hv]]; auto.
  - intros s x Hs Hx. apply List.in_app_or in Hs as [Hs|Hs]; eauto.
Qed.

Lemma connect_exchanged (a b : Node) :
  quiet a -> quiet b -> exchanged a b (connect a b).
Proof.
  intros Hqa Hqb. unfold exchanged, connect, fromStores. simpl.
  repeat split; auto; try apply Hqa; try apply Hqb; intros x [].
Qed.

Lemma deliverToB_exchanged (a b : Node) (net : Net) :
  exchanged a b net -> exchanged a b (deliverToB net).
Proof.
  intros (Hqa & Hqb & Hkeep & HA & HB & HtoA & HtoB).
  unfold deliverToB.
  destruct (handleAll_moves [peerA] peerA (toB net) (nodeB net) Hqb)
    as (Hq' & Hkeep' & Hnew' & Hout').
  destruct (handleAll [peerA] peerA (toB net) (nodeB net)) as [b' out].
  simpl in *. unfold exchanged. simpl.
  assert (HB' : forall x, In x (events (db b')) ->
            In x (events (db b)) \/ (fromStores a b x /\ isValidEvent x = Some true)).
  { intros x Hx. apply Hnew' in Hx as [Hx|[Hx Hv]]; auto. }
  repeat split; auto; try apply Hqa; try apply Hq'.
  - intros x Hx. unfold carriedAll in Hx. rewrite List.flat_map_app in Hx.
    apply List.in_app_or in Hx as [Hx|Hx]; [apply HtoA, Hx|].
    apply carriedAll_In in Hx as (m & Hm & Hx).
    apply inbox_In in Hm as (s & Hs & <-).
    destruct (HB' x (Hout' s x Hs Hx)) as [Hb|[Hb _]]; [right; exact Hb|exact Hb].
  - intros x [].
Qed.

Lemma deliverToA_exchanged (a b : Node) (net : Net) :
  exchanged a b net -> exchanged a b (deliverToA net).
Proof.
  intros (Hqa & Hqb & Hkeep & HA & HB & HtoA & HtoB).
  unfold deliverToA.
  destruct (handleAll_moves [peerB] peerB (toA net) (nodeA net) Hqa)
    as (Hq' & Hkeep' & Hnew' & Hout').
  destruct (handleAll [peerB] peerB (toA net) (nodeA net)) as [a' out].
  simpl in *. unfold exchanged. simpl.
  assert (HA' : forall x, In x (events (db a')) -> fromStores a b x).
  { intros x Hx. apply Hnew' in Hx as [Hx|[Hx _]]; auto. }
  repeat split; auto; try apply Hqb; try apply Hq'.
  - intros x [].
  - intros x Hx. unfold carriedAll in Hx. rewrite List.flat_map_app in Hx.
    apply List.in_app_or in Hx as [Hx|Hx]; [apply HtoB, Hx|].
    apply carriedAll_In in Hx as (m & Hm & Hx).
    apply inbox_In in Hm as (s & Hs & <-).
    exact (HA' x (Hout' s x Hs Hx)).
Qed.

Lemma deliveries_exchanged (a b : Node) (k : nat) :
  quiet a -> quiet b -> exchanged a b (deliveries k (exchange a b)).
Proof.
  intros Hqa Hqb. induction k as [|k IH]; simpl.
  - unfold exchange.
    apply deliverToB_exchanged, deliverToA_exchanged, deliverToB_exchanged,
      deliverToA_exchanged, deliverToB_exchanged, connect_exchanged; assumption.
  - apply deliverToB_exchanged, deliverToA_exchanged, IH.
Qed.

(** C2 (as the code behaves): the exchange does not make the two id sets
    equal when a store holds a profile event.  Let [A], at rest, hold a
    profile event [e] under an id that [B], at rest, does not know.  After
    the exchange, and after any number of further deliveries, [A] still
    lists the id and [B] still does not: [B] asks for the event, [A] sends
    it, and [B] drops it, because [isValidEvent] answers [false] on every
    profile event.  The two stores may be disjoint and every event in them
    correctly signed. *)
Theorem profile_event_not_synced (a b : Node) (e : Event) (k : nat) :
  quiet a -> quiet b ->
  In e (events (db a)) -> is_profile e = true ->
  (forall x, In x (events (db a)) -> id x = id e -> x = e) ->
  ~ In (id e) (getAllEventIds (db b)) ->
  let net := deliveries k (exchange a b) in
  In (id e) (getAllEventIds (db (nodeA net)))
  /\ ~ In (id e) (getAllEventIds (db (nodeB net)))
  /\ ~ sameIds (db (nodeA net)) (db (nodeB net))
  /\ getAllEventIds (db (nodeA net)) <> getAllEventIds (db (nodeB net)).
Proof.
  intros Hqa Hqb He Hprofile Honly Hnew net.
  destruct (deliveries_exchanged a b k Hqa Hqb) as (_ & _ & Hkeep & _ & HB & _ & _).
  fold net in Hkeep, HB.
  assert (HinA : In (id e) (getAllEventIds (db (nodeA net)))).
  { apply getAllEventIds_In, List.in_map, Hkeep, He. }
  assert (HninB : ~ In (id e) (getAllEventIds (db (nodeB net)))).
  { intros Hin. apply getAllEventIds_In, List.in_map_iff in Hin as (x & Hid & Hx).
    assert (Hb : forall y, In y (events (db b)) -> id y <> id e).
    { intros y Hy Hyid. apply Hnew, getAllEventIds_In. rewrite <- Hyid.
      apply List.in_map, Hy. }
    destruct (HB x Hx) as [Hxb|[[Hxa|Hxb] Hv]].
    - exact (Hb x Hxb Hid).
    - apply (Honly x Hxa) in Hid. subst x.
      apply isValidEvent_not_profile in Hv. congruence.
    - exact (Hb x Hxb Hid). }
  split; [exact HinA|]. split; [exact HninB|]. split.
  - intros Hsame. apply HninB, Hsame, HinA.
  - intros Heq. apply HninB. rewrite <- Heq. exact HinA.
Qed.

End MovedEvents.

(** C2 at a failing input: [alice]'s node holds her signed profile event,
    [bob]'s node one signed post.  The stores are disjoint; after the
    exchange nothing is in flight and the id lists differ. *)
Lemma profile_event_not_synced_witness :
  let profile := @createProfileEvent Sim.platform 1000 Sim.alice Sim.alice
                   (Some "Alice") None None in
  let post := Sim.post 1500 Sim.bob "yo" "general" in
  let a := Sim.node [profile] in
  let b := Sim.node [post] in
  let net := @exchange Sim.platform a b in
  (@verifyEvent Sim.platform profile = Some true
   /\ @verifyEvent Sim.platform post = Some true
   /\ disjointIds (db a) (db b) /\ quiet a /\ quiet b)
  /\ toA net = [] /\ toB net = []
  /\ getAllEventIds (db (nodeA net)) <> getAllEventIds (db (nodeB net)).
Proof.
  intros profile post a b net.
  assert (Hd : disjointIds (db a) (db b)).
  { intros i Hi Hj. vm_compute in Hi, Hj.
    destruct Hj as [<-|[]]. destruct Hi as [Hi|[]]. discriminate Hi. }
  assert (He : In profile (events (db a))) by (left; reflexivity).
  assert (Hp : is_profile profile = true) by reflexivity.
  assert (Honly : forall x, In x (events (db a)) -> id x = id profile -> x = profile).
  { intros x [<-|[]] _. reflexivity. }
  assert (Hnew : ~ In (id profile) (getAllEventIds (db b))).
  { apply (Hd (id profile)). apply getAllEventIds_In, List.in_map, He. }
  split; [|split; [|split]].
  - split; [vm_compute; reflexivity|]. split; [vm_compute; reflexivity|].
    split; [exact Hd|]. split; apply start_quiet.
  - vm_compute. reflexivity.
  - vm_compute. reflexivity.
  - exact (proj2 (proj2 (proj2
      (@profile_event_not_synced Sim.platform a b profile 0
         (start_quiet _) (start_quiet _) He Hp Honly Hnew)))).
Defined.

(** * Further properties *)

(** ** Key order of the object stores *)

Lemma compare_lt_trans (a b c : string) :
  String.compare a b = Lt -> String.compare b c = Lt -> String.compare a c = Lt.
Proof.
  intros Hab Hbc.
  apply OrderedTypeEx.String_as_OT.cmp_lt.
  apply OrderedTypeEx.String_as_OT.cmp_lt in Hab, Hbc.
  exact (OrderedTypeEx.String_as_OT.lt_trans _ _ _ Hab Hbc).
Qed.

Lemma compare_gt_lt (a b : string) :
  String.compare a b = Gt -> String.compare b a = Lt.
Proof.
  intros Hab. rewrite String.compare_antisym, Hab. reflexivity.
Qed.

Lemma compare_lt_neq (a b : string) : String.compare a b = Lt -> a <> b.
Proof. intros Hab ->. rewrite compare_refl in Hab. discriminate. Qed.

(** Two lists in strict order with the same members are the same list. *)
Lemma sorted_ext {A : Type} (R : A -> A -> Prop) (l1 l2 : list A) :
  (forall x, ~ R x x) -> (forall x y z, R x y -> R y z -> R x z) ->
  StronglySorted R l1 -> StronglySorted R l2 ->
  (forall x, In x l1 <-> In x l2) -> l1 = l2.
Proof.
  intros Hirr Htr Hs1. revert l2.
  induction Hs1 as [|a r1 Hr1 IH Ha]; intros l2 Hs2 Hin.
  - destruct l2 as [|b r2]; [reflexivity|].
    exfalso. apply (Hin b). now left.
  - destruct Hs2 as [|b r2 Hr2 Hb].
    { exfalso. apply (Hin a). now left. }
    assert (Hab : a = b).
    { destruct (proj1 (Hin a) (or_introl eq_refl)) as [Hba|Hain]; [now symmetry|].
      destruct (proj2 (Hin b) (or_introl eq_refl)) as [Hab|Hbin]; [assumption|].
      exfalso. apply (Hirr a). apply (Htr a b a).
      - exact (proj1 (List.Forall_forall _ _) Ha b Hbin).
      - exact (proj1 (List.Forall_forall _ _) Hb a Hain). }
    subst b. f_equal. apply IH; [exact Hr2|].
    intros x. split; intros Hx.
    + destruct (proj1 (Hin x) (or_intror Hx)) as [<-|Hx2]; [|exact Hx2].
      exfalso. apply (Hirr a). exact (proj1 (List.Forall_forall _ _) Ha a Hx).
    + destruct (proj2 (Hin x) (or_intror Hx)) as [<-|Hx1]; [|exact Hx1].
      exfalso. apply (Hirr a). exact (proj1 (List.Forall_forall _ _) Hb a Hx).
Qed.

Section KeyOrderFacts.
Context {V : Type} (keyPath : V -> string).

Lemma put_keySorted (v : V) (s : list V) :
  keySorted keyPath s -> keySorted keyPath (put keyPath v s).
Proof.
  unfold keySorted. induction 1 as [|x r Hr IH Hx]; simpl.
  - repeat constructor.
  - destruct (String.compare (keyPath v) (keyPath x)) eqn:Hc.
    + apply String.compare_eq_iff in Hc. constructor; [exact Hr|].
      rewrite Hc. exact Hx.
    + constructor; [constructor; assumption|].
      constructor; [exact Hc|].
      eapply List.Forall_impl; [|exact Hx]. cbv beta.
      intros y Hy. exact (compare_lt_trans _ _ _ Hc Hy).
    + constructor; [exact IH|].
      apply List.Forall_forall. intros y Hy.
      apply In_put in Hy as [->|Hy]; [exact (compare_gt_lt _ _ Hc)|].
      exact (proj1 (List.Forall_forall _ _) Hx y Hy).
Qed.

Lemma keySorted_NoDup (s : list V) :
  keySorted keyPath s -> List.NoDup (map keyPath s).
Proof.
  induction 1 as [|x r Hr IH Hx]; simpl; constructor; [|exact IH].
  intros Hin. apply List.in_map_iff in Hin as (y & Hk & Hy).
  apply (compare_lt_neq (keyPath x) (keyPath y)); [|now symmetry].
  exact (proj1 (List.Forall_forall _ _) Hx y Hy).
Qed.

Lemma keySorted_map (s : list V) :
  keySorted keyPath s ->
  StronglySorted (fun a b => String.compare a b = Lt) (map keyPath s).
Proof.
  induction 1 as [|x r Hr IH Hx]; simpl; constructor; [exact IH|].
  apply List.Forall_map. exact Hx.
Qed.

(** In a store in key order, [put] replaces the record of the same key
    and keeps every other record. *)
Lemma In_put_sorted (v x : V) (s : list V) :
  keySorted keyPath s ->
  (In x (put keyPath v s) <-> x = v \/ (In x s /\ keyPath x <> keyPath v)).
Proof.
  unfold keySorted. induction 1 as [|y r Hr IH Hy]; simpl.
  - intuition.
  - destruct (String.compare (keyPath v) (keyPath y)) eqn:Hc; simpl.
    + apply String.compare_eq_iff in Hc. split.
      * intros [->|Hx]; [now left|right]. split; [now right|].
        rewrite Hc. intros He.
        apply (compare_lt_neq (keyPath y) (keyPath x)); [|now symmetry].
        exact (proj1 (List.Forall_forall _ _) Hy x Hx).
      * intros [->|[[->|Hx] Hne]]; auto. congruence.
    + split.
      * intros [->|[->|Hx]]; [now left| |].
        -- right. split; [now left|].
           intros He. apply (compare_lt_neq _ _ Hc). now symmetry.
        -- right. split; [now right|]. intros He.
           apply (compare_lt_neq (keyPath v) (keyPath x)); [|now symmetry].
           apply (compare_lt_trans _ _ _ Hc).
           exact (proj1 (List.Forall_forall _ _) Hy x Hx).
      * intros [->|[[->|Hx] Hne]]; auto.
    + rewrite IH. split.
      * intros [->|[->|[Hx Hne]]]; auto.
        right. split; [now left|]. intros He.
        rewrite He, compare_refl in Hc. discriminate.
      * intros [->|[[->|Hx] Hne]]; auto.
Qed.

Lemma put_put (v : V) (s : list V) :
  put keyPath v (put keyPath v s) = put keyPath v s.
Proof.
  induction s as [|x r IH]; simpl.
  - rewrite compare_refl. reflexivity.
  - destruct (String.compare (keyPath v) (keyPath x)) eqn:Hc; simpl.
    + rewrite compare_refl. reflexivity.
    + rewrite compare_refl. reflexivity.
    + rewrite Hc, IH. reflexivity.
Qed.

Lemma put_comm (a b : V) (s : list V) :
  keySorted keyPath s -> keyPath a <> keyPath b ->
  put keyPath a (put keyPath b s) = put keyPath b (put keyPath a s).
Proof.
  intros Hs Hne.
  apply (sorted_ext (fun x y => String.compare (keyPath x) (keyPath y) = Lt)).
  - intros x Hx. rewrite compare_refl in Hx. discriminate.
  - intros x y z. apply compare_lt_trans.
  - apply put_keySorted, put_keySorted, Hs.
  - apply put_keySorted, put_keySorted, Hs.
  - intros x.
    rewrite (In_put_sorted a x _ (put_keySorted b s Hs)).
    rewrite (In_put_sorted b x _ (put_keySorted a s Hs)).
    rewrite (In_put_sorted b x s Hs), (In_put_sorted a x s Hs).
    split.
    + intros [->|[[->|[Hx Hb]] Ha]].
      * right. split; [now left|exact Hne].
      * now left.
      * right. split; [right; split; assumption|assumption].
    + intros [->|[[->|[Hx Ha]] Hb]].
      * right. split; [now left|congruence].
      * now left.
      * right. split; [right; split; assumption|assumption].
Qed.
End KeyOrderFacts.

Lemma newSet_NoDup (l : list string) : List.NoDup l -> newSet l = l.
Proof.
  induction 1 as [|x r Hx Hr IH]; simpl; [reflexivity|].
  rewrite IH. f_equal.
  apply List.forallb_filter_id, List.forallb_forall. intros y Hy.
  apply Bool.negb_true_iff, String.eqb_neq. intros ->. contradiction.
Qed.

Lemma sort_In {A : Type} (cmp : A -> A -> Z) (x : A) (l : list A) :
  In x (sort cmp l) <-> In x l.
Proof.
  induction l as [|y r IH]; simpl; [tauto|].
  rewrite sort_insert_In, IH. intuition.
Qed.

Lemma sort_length {A : Type} (cmp : A -> A -> Z) (l : list A) :
  List.length (sort cmp l) = List.length l.
Proof.
  assert (Hins : forall x r, List.length (sort_insert cmp x r) = S (List.length r)).
  { intros x r. induction r as [|y r IH]; simpl; [reflexivity|].
    destruct (cmp x y <=? 0); simpl; [reflexivity|]. rewrite IH. reflexivity. }
  induction l as [|y r IH]; simpl; [reflexivity|]. rewrite Hins, IH. reflexivity.
Qed.

Lemma wellKeyed_empty : wellKeyed emptyDB.
Proof. repeat split; constructor. Qed.

(** ** The event store *)

(** X1: storing an event that is already stored changes nothing: the
    events collection, the profile projection and the follows collection
    after the second [storeEvent] (or [storeFollow]) are those after the
    first. *)
Theorem store_twice (e : Event) (d : DB) :
  storeEvent e (storeEvent e d) = storeEvent e d
  /\ storeFollow e (storeFollow e d) = storeFollow e d.
Proof.
  unfold storeEvent, storeFollow. simpl. split.
  - rewrite put_put. destruct (is_profile e); [rewrite put_put|]; reflexivity.
  - rewrite put_put. reflexivity.
Qed.

Lemma hasEvent_storeEvent (e : Event) (k : string) (d : DB) :
  hasEvent k (storeEvent e d) = String.eqb (id e) k || hasEvent k d.
Proof.
  apply Bool.eq_iff_eq_true.
  rewrite Bool.orb_true_iff, !hasEvent_In, getAllEventIds_storeEvent, String.eqb_eq.
  intuition.
Qed.

(** X2: what [storeEvent] stores, [getEvent] returns and [hasEvent]
    reports; the answers for every other id are as before. *)
Theorem store_then_get (e : Event) (d : DB) :
  getEvent (id e) (storeEvent e d) = Some e
  /\ hasEvent (id e) (storeEvent e d) = true
  /\ (forall k, k <> id e ->
        getEvent k (storeEvent e d) = getEvent k d
        /\ hasEvent k (storeEvent e d) = hasEvent k d).
Proof.
  unfold getEvent. simpl. split; [|split].
  - rewrite get_put, String.eqb_refl. reflexivity.
  - rewrite hasEvent_storeEvent, String.eqb_refl. reflexivity.
  - intros k Hk. rewrite get_put, hasEvent_storeEvent.
    destruct (String.eqb_spec (id e) k) as [He|_]; [congruence|]. auto.
Qed.

Lemma storeEvents_keySorted (evs : list Event) (s : list Event) :
  keySorted id s ->
  keySorted id (List.fold_left (fun s e => put id e s) evs s).
Proof.
  revert s. induction evs as [|e r IH]; intros s Hs; simpl; [exact Hs|].
  apply IH, put_keySorted, Hs.
Qed.

Lemma storeEvent_wellKeyed (e : Event) (d : DB) :
  wellKeyed d -> wellKeyed (storeEvent e d).
Proof.
  intros (He & Hf & Hp). unfold wellKeyed, storeEvent. simpl.
  split; [apply put_keySorted, He|]. split; [exact Hf|].
  destruct (is_profile e); [apply put_keySorted|]; exact Hp.
Qed.

(** X3: the three collections stay in strictly ascending key order under
    [storeEvent], [storeFollow] and [storeEvents]. *)
Theorem stores_stay_keyed (e : Event) (evs : list Event) (d : DB) :
  wellKeyed d ->
  wellKeyed (storeEvent e d) /\ wellKeyed (storeFollow e d)
  /\ wellKeyed (storeEvents evs d).
Proof.
  intros (He & Hf & Hp). unfold wellKeyed, storeEvent, storeFollow, storeEvents.
  simpl. repeat split; try assumption; try (apply put_keySorted; assumption).
  - destruct (is_profile e); [apply put_keySorted|]; assumption.
  - apply storeEvents_keySorted. exact He.
Qed.

Lemma stores_stay_keyed_witness :
  let e := {| id := "e1"; type := "post"; author := "a"; timestamp := 1;
              signature := "s"; content := CUnfollow "b" |} in
  wellKeyed emptyDB /\ wellKeyed (storeEvent e emptyDB).
Proof.
  intros e. split; [exact wellKeyed_empty|].
  exact (proj1 (stores_stay_keyed e [] emptyDB wellKeyed_empty)).
Defined.

(** X4: in a database in key order every id occurs once: [getAllEventIds]
    is the list of the stored ids in ascending order, without repetition,
    and two stored events with the same id are the same event. *)
Theorem ids_unique (d : DB) :
  wellKeyed d ->
  getAllEventIds d = map id (events d)
  /\ List.NoDup (getAllEventIds d)
  /\ (forall e e', In e (events d) -> In e' (events d) -> id e = id e' -> e = e')
  /\ (forall e, In e (events d) -> getEvent (id e) d = Some e).
Proof.
  intros (He & _ & _).
  pose proof (keySorted_NoDup id (events d) He) as Hnd.
  assert (Hget : forall e, In e (events d) -> getEvent (id e) d = Some e).
  { unfold getEvent. intros e Hin.
    destruct (get_In id (id e) (events d)) as [x Hx]; [apply List.in_map, Hin|].
    rewrite Hx. f_equal. apply get_Some in Hx as [Hxin Hid].
    clear Hnd. induction He as [|y r Hr IH Hy]; [destruct Hin|].
    destruct Hin as [->|Hin], Hxin as [->|Hxin]; auto.
    - exfalso. apply (compare_lt_neq (id e) (id x)); [|now symmetry].
      exact (proj1 (List.Forall_forall _ _) Hy x Hxin).
    - exfalso. apply (compare_lt_neq (id x) (id e)); [|assumption].
      exact (proj1 (List.Forall_forall _ _) Hy e Hin). }
  unfold getAllEventIds. rewrite (newSet_NoDup _ Hnd).
  repeat split; [exact Hnd| |exact Hget].
  intros e e' Hin Hin' Hid. apply Hget in Hin, Hin'. rewrite Hid in Hin. congruence.
Qed.

Lemma ids_unique_witness :
  let e := {| id := "e1"; type := "post"; author := "a"; timestamp := 1;
              signature := "s"; content := CUnfollow "b" |} in
  wellKeyed (storeEvent e emptyDB)
  /\ getAllEventIds (storeEvent e emptyDB) = map id (events (storeEvent e emptyDB)).
Proof.
  intros e.
  pose proof (storeEvent_wellKeyed e emptyDB wellKeyed_empty) as Hk.
  split; [exact Hk|]. exact (proj1 (ids_unique (storeEvent e emptyDB) Hk)).
Defined.

(** X5: the order in which two events of different ids are stored does
    not matter for the events collection, nor for the follows collection. *)
Theorem store_order_independent (a b : Event) (d : DB) :
  wellKeyed d -> id a <> id b ->
  events (storeEvent a (storeEvent b d)) = events (storeEvent b (storeEvent a d))
  /\ follows (storeFollow a (storeFollow b d))
     = follows (storeFollow b (storeFollow a d)).
Proof.
  intros (He & Hf & _) Hne. simpl. split; apply put_comm; assumption.
Qed.

Lemma store_order_independent_witness :
  let a := {| id := "e1"; type := "follow"; author := "a"; timestamp := 1;
              signature := "s"; content := CFollow "b" None |} in
  let b := {| id := "e0"; type := "unfollow"; author := "a"; timestamp := 2;
              signature := "s"; content := CUnfollow "b" |} in
  (wellKeyed emptyDB /\ id a <> id b)
  /\ events (storeEvent a (storeEvent b emptyDB))
     = events (storeEvent b (storeEvent a emptyDB)).
Proof.
  intros a b.
  assert (Hne : id a <> id b) by discriminate.
  split; [split; [exact wellKeyed_empty|exact Hne]|].
  exact (proj1 (store_order_independent a b emptyDB wellKeyed_empty Hne)).
Defined.

(** ** Range queries *)

Lemma compoundLe_same (a : string) (s t : Z) :
  compoundLe (a, s) (a, t) = (s <=? t).
Proof.
  unfold compoundLe, compoundCompare. simpl. rewrite compare_refl.
  unfold Z.leb. destruct (s ?= t); reflexivity.
Qed.

Lemma compoundLe_lower (a : string) (s : Z) (e : Event) :
  compoundLe (a, s) (authorTimestamp e) = true
  <-> (author e = a /\ s <= timestamp e) \/ String.compare a (author e) = Lt.
Proof.
  unfold compoundLe, compoundCompare, authorTimestamp. simpl.
  destruct (String.compare a (author e)) eqn:Hc.
  - apply String.compare_eq_iff in Hc. subst a.
    unfold Z.le. destruct (s ?= timestamp e); split; intros Hx;
      try reflexivity; try discriminate.
    + left. split; [reflexivity|discriminate].
    + left. split; [reflexivity|discriminate].
    + destruct Hx as [[_ Hx]|Hx]; [now elim Hx|discriminate].
  - split; auto.
  - split; [discriminate|]. intros [[Ha _]|Hx]; [|discriminate].
    rewrite Ha, compare_refl in Hc. discriminate.
Qed.

Lemma compoundLe_upper (a : string) (u : Z) (e : Event) :
  compoundLe (authorTimestamp e) (a, u) = true
  <-> (author e = a /\ timestamp e <= u) \/ String.compare (author e) a = Lt.
Proof.
  unfold compoundLe, compoundCompare, authorTimestamp. simpl.
  destruct (String.compare (author e) a) eqn:Hc.
  - apply String.compare_eq_iff in Hc. subst a.
    unfold Z.le. destruct (timestamp e ?= u); split; intros Hx;
      try reflexivity; try discriminate.
    + left. split; [reflexivity|discriminate].
    + left. split; [reflexivity|discriminate].
    + destruct Hx as [[_ Hx]|Hx]; [now elim Hx|discriminate].
  - split; auto.
  - split; [discriminate|]. intros [[Ha _]|Hx]; [|discriminate].
    rewrite Ha, compare_refl in Hc. discriminate.
Qed.

(** X6: [getEventsInRange] with a well-formed range ([since <= until]
    when both are given) returns, newest first, exactly the stored events
    whose timestamp lies in the closed range. *)
Theorem getEventsInRange_exact (since until : option Z) (d : DB) :
  match since, until with
  | Some s, Some u => s <= u
  | _, _ => True
  end ->
  (forall e, In e (getEventsInRange since until d)
             <-> In e (events d)
                 /\ (forall s, since = Some s -> s <= timestamp e)
                 /\ (forall u, until = Some u -> timestamp e <= u))
  /\ StronglySorted (newestFirst timestamp) (getEventsInRange since until d).
Proof.
  intros _. unfold getEventsInRange. split.
  - intros e. rewrite !sort_In, List.filter_In.
    destruct since as [s|], until as [u|]; simpl;
      rewrite ?Bool.andb_true_iff, ?Z.leb_le; split.
    + intros (Hin & Hs & Hu). repeat split; [exact Hin| |]; intros x [= <-]; assumption.
    + intros (Hin & Hs & Hu). auto.
    + intros (Hin & Hs). repeat split; [exact Hin| |]; intros x [= <-]; assumption.
    + intros (Hin & Hs & Hu). auto.
    + intros (Hin & Hu). repeat split; [exact Hin| |]; intros x [= <-]; assumption.
    + intros (Hin & Hs & Hu). auto.
    + intros (Hin & _). repeat split; [exact Hin| |]; intros x [=].
    + intros (Hin & Hs & Hu). auto.
  - apply (sort_sorted timestamp byTimestampDesc byTimestampDesc_key).
Qed.

Lemma getEventsInRange_exact_witness :
  let e := {| id := "e1"; type := "post"; author := "a"; timestamp := 5;
              signature := "s"; content := CUnfollow "b" |} in
  (1 <= 9) /\ In e (getEventsInRange (Some 1) (Some 9) (storeEvent e emptyDB)).
Proof.
  intros e. assert (Hr : 1 <= 9) by lia. split; [exact Hr|].
  apply (proj1 (getEventsInRange_exact (Some 1) (Some 9) (storeEvent e emptyDB) Hr)).
  simpl. split; [now left|]. split; intros x [= <-]; lia.
Defined.

(** X7: [getEventsByAuthorInRange] as its key ranges behave.  With both
    bounds it answers, newest first, exactly the author's events in the
    closed range, and fails when [since > until].  With neither bound it
    answers nothing at all.  With [since] alone it answers, besides the
    author's events from [since] on, every event of every author whose key
    sorts after the author's; with [until] alone, besides the author's
    events up to [until], every event of every author whose key sorts
    before. *)
Theorem getEventsByAuthorInRange_ranges (a : string) (d : DB) :
  (forall s u,
      (s <= u ->
       exists l, getEventsByAuthorInRange a (Some s) (Some u) d = Some l
                 /\ StronglySorted (newestFirst timestamp) l
                 /\ forall e, In e l <-> In e (events d) /\ author e = a
                                         /\ s <= timestamp e <= u)
      /\ (u < s -> getEventsByAuthorInRange a (Some s) (Some u) d = None))
  /\ getEventsByAuthorInRange a None None d = Some []
  /\ (forall s, exists l,
        getEventsByAuthorInRange a (Some s) None d = Some l
        /\ forall e, In e l <-> In e (events d)
                                /\ ((author e = a /\ s <= timestamp e)
                                    \/ String.compare a (author e) = Lt))
  /\ (forall u, exists l,
        getEventsByAuthorInRange a None (Some u) d = Some l
        /\ forall e, In e l <-> In e (events d)
                                /\ ((author e = a /\ timestamp e <= u)
                                    \/ String.compare (author e) a = Lt)).
Proof.
  unfold getEventsByAuthorInRange. split; [|split; [|split]].
  - intros s u. rewrite compoundLe_same. split.
    + intros Hsu. apply Z.leb_le in Hsu. rewrite Hsu. eexists. split; [reflexivity|].
      split; [apply (sort_sorted timestamp byTimestampDesc byTimestampDesc_key)|].
      intros e. rewrite !sort_In, List.filter_In, Bool.andb_true_iff.
      rewrite compoundLe_lower, compoundLe_upper. split.
      * intros (Hin & [[Ha Hs]|Hlt] & [[Ha' Hu]|Hlt']).
        -- repeat split; assumption.
        -- rewrite Ha, compare_refl in Hlt'. discriminate.
        -- rewrite Ha', compare_refl in Hlt. discriminate.
        -- pose proof (compare_lt_trans _ _ _ Hlt Hlt') as Hx.
           rewrite compare_refl in Hx. discriminate.
      * intros (Hin & Ha & Hs & Hu). auto.
    + intros Hus. apply Z.leb_gt in Hus. rewrite Hus. reflexivity.
  - replace (List.filter (fun _ : Event => false) (events d)) with (@nil Event);
      [reflexivity|].
    induction (events d); simpl; auto.
  - intros s. eexists. split; [reflexivity|].
    intros e. rewrite !sort_In, List.filter_In, compoundLe_lower. reflexivity.
  - intros u. eexists. split; [reflexivity|].
    intros e. rewrite !sort_In, List.filter_In, compoundLe_upper. reflexivity.
Qed.

Lemma In_firstn {A : Type} (k : nat) (x : A) (l : list A) :
  In x (List.firstn k l) -> In x l.
Proof.
  intros Hin. rewrite <- (List.firstn_skipn k l). apply List.in_or_app. now left.
Qed.

(** X8: for a limit that is not negative, [getPostsByTopic] returns at
    most [limit] events, newest first, each of them a stored post whose
    normalized topic is the normalized topic asked for (the default topic
    when that is empty); when the limit is at least the size of the store,
    every such post is returned. *)
Theorem getPostsByTopic_sound (topic : string) (limit : Z) (d : DB) :
  0 <= limit ->
  let normalized := Str.or_else (Str.toLowerCase (Str.trim topic)) DEFAULT_TOPIC in
  let wanted (e : Event) :=
    In e (events d) /\ is_post e = true /\ normalizedTopic e = normalized in
  (forall e, In e (getPostsByTopic topic limit d) -> wanted e)
  /\ StronglySorted (newestFirst timestamp) (getPostsByTopic topic limit d)
  /\ (List.length (getPostsByTopic topic limit d) <= Z.to_nat limit)%nat
  /\ (Z.of_nat (List.length (events d)) <= limit ->
      forall e, wanted e -> In e (getPostsByTopic topic limit d)).
Proof.
  intros Hl normalized wanted. unfold getPostsByTopic. fold normalized.
  unfold slice0. destruct (Z.ltb_spec limit 0) as [Hneg|_]; [lia|].
  set (posts := List.filter _ _).
  assert (Hposts : forall e, In e posts <-> wanted e).
  { intros e. unfold posts, wanted, getEventsInRange.
    rewrite List.filter_In, !sort_In, List.filter_In, Bool.andb_true_iff, String.eqb_eq.
    tauto. }
  split; [|split; [|split]].
  - intros e He. apply In_firstn, sort_In in He. apply Hposts, He.
  - apply (firstn_sorted timestamp).
    apply (sort_sorted timestamp byTimestampDesc byTimestampDesc_key).
  - apply List.firstn_le_length.
  - intros Hbig e He. rewrite List.firstn_all2.
    + apply sort_In, Hposts, He.
    + rewrite sort_length. unfold posts.
      etransitivity; [apply List.filter_length_le|].
      unfold getEventsInRange. rewrite !sort_length.
      etransitivity; [apply List.filter_length_le|]. lia.
Qed.

Lemma getPostsByTopic_sound_witness :
  let e := {| id := "e1"; type := "post"; author := "a"; timestamp := 5;
              signature := "s";
              content := CPost {| topic := Some " Tech"; text := Some "hi";
                                  mentions := None; replyTo := None;
                                  encrypted := None |} |} in
  (0 <= 100) /\ In e (getPostsByTopic "tech " 100 (storeEvent e emptyDB)).
Proof.
  intros e. assert (Hl : 0 <= 100) by lia. split; [exact Hl|].
  apply (proj2 (proj2 (proj2
           (getPostsByTopic_sound "tech " 100 (storeEvent e emptyDB) Hl)))).
  - simpl. lia.
  - repeat split. simpl. now left.
Defined.

(** X9: [getEventsByAuthor] returns stored events of that author only,
    newest first.  Without a limit (or with limit 0) it returns all of
    them.  With a limit [n > 0] it returns at most [n], and they are the
    first [n] records of the author in id order, sorted afterwards: the
    limit is applied before the sort. *)
Theorem getEventsByAuthor_sound (a : string) (limit : option nat) (d : DB) :
  (forall e, In e (getEventsByAuthor a limit d) -> In e (events d) /\ author e = a)
  /\ StronglySorted (newestFirst timestamp) (getEventsByAuthor a limit d)
  /\ match limit with
     | Some (S n) =>
         (List.length (getEventsByAuthor a limit d) <= S n)%nat
         /\ getEventsByAuthor a limit d
            = sort byTimestampDesc
                (List.firstn (S n)
                   (List.filter (fun e => String.eqb (author e) a) (events d)))
     | _ => forall e, In e (events d) -> author e = a ->
                      In e (getEventsByAuthor a limit d)
     end.
Proof.
  assert (Hcur : forall e,
             In e (cursor_only (fun e => Some (author e)) a (events d))
             <-> In e (events d) /\ author e = a).
  { intros e. unfold cursor_only. rewrite List.filter_In, String.eqb_eq. tauto. }
  assert (Hsorted : forall l, StronglySorted (newestFirst timestamp)
                                (sort byTimestampDesc l)).
  { apply (sort_sorted timestamp byTimestampDesc byTimestampDesc_key). }
  unfold getEventsByAuthor.
  destruct limit as [[|n]|].
  - split; [|split; [apply Hsorted|]].
    + intros e He. apply sort_In, Hcur in He. exact He.
    + intros e Hin Ha. apply sort_In, Hcur. auto.
  - split; [|split; [|split]].
    + intros e He. apply In_firstn, sort_In, In_firstn, Hcur in He. exact He.
    + apply (firstn_sorted timestamp), Hsorted.
    + apply List.firstn_le_length.
    + apply List.firstn_all2. rewrite sort_length. apply List.firstn_le_length.
  - split; [|split; [apply Hsorted|]].
    + intros e He. apply sort_In, Hcur in He. exact He.
    + intros e Hin Ha. apply sort_In, Hcur. auto.
Qed.

(** ** Replaying follows and unfollows *)

Lemma setAdd_In (x y : string) (l : list string) :
  In y (setAdd x l) <-> y = x \/ In y l.
Proof.
  unfold setAdd. destruct (has x l) eqn:Hh.
  - apply has_In in Hh. split; [auto|]. intros [->|Hy]; assumption.
  - rewrite List.in_app_iff. simpl. intuition.
Qed.

Lemma setDelete_In (x y : string) (l : list string) :
  In y (setDelete x l) <-> In y l /\ y <> x.
Proof.
  unfold setDelete. rewrite List.filter_In, Bool.negb_true_iff, String.eqb_neq.
  reflexivity.
Qed.

Lemma sortAsc_sorted (l : list Event) :
  StronglySorted (oldestFirst timestamp) (sort byTimestampAsc l).
Proof.
  assert (Hs : StronglySorted (newestFirst (fun e => - timestamp e))
                 (sort byTimestampAsc l)).
  { apply sort_sorted. intros a b. unfold byTimestampAsc. lia. }
  induction Hs as [|x r Hr IH Hx]; constructor; [exact IH|].
  eapply List.Forall_impl; [|exact Hx]. unfold newestFirst, oldestFirst.
  intros y Hy. lia.
Qed.

Lemma sorted_after {A : Type} (R : A -> A -> Prop) (l1 l2 : list A) (e : A) :
  StronglySorted R (l1 ++ e :: l2) -> Forall (R e) l2.
Proof.
  induction l1 as [|x r IH]; simpl; intros Hs; inversion Hs; subst; auto.
Qed.

(** In a list sorted oldest first, nothing that stands after the record
    that speaks last for [k] has key [k], except that record itself. *)
Lemma speaksLast_split (key : Event -> option string) (k : string) (e : Event)
    (l : list Event) :
  StronglySorted (oldestFirst timestamp) l -> speaksLast key k e l ->
  exists l1 l2, l = l1 ++ e :: l2
                /\ forall x, In x l2 -> key x = Some k -> x = e.
Proof.
  intros Hs (Hin & Hk & Hlast).
  apply List.in_split in Hin as (l1 & l2 & ->). exists l1, l2. split; [reflexivity|].
  intros x Hx Hkx.
  destruct (Hlast x) as [->|Hlt]; [apply List.in_or_app; right; now right|exact Hkx|reflexivity|].
  pose proof (proj1 (List.Forall_forall _ _) (sorted_after _ _ _ _ Hs) x Hx) as Hle.
  unfold oldestFirst in Hle. lia.
Qed.

Section ReplayFacts.
Context (key : Event -> option string) (k : string).

Lemma replayStep_other (st : list string * list string) (x : Event) :
  key x <> Some k ->
  (In k (fst (replayStep key st x)) <-> In k (fst st)).
Proof.
  intros Hne. unfold replayStep. destruct (key x) as [k'|]; [|reflexivity].
  assert (k <> k') by congruence.
  destruct (String.eqb (type x) "follow"); simpl.
  - rewrite setAdd_In. intuition.
  - destruct (String.eqb (type x) "unfollow"); simpl; [|reflexivity].
    rewrite setDelete_In. intuition.
Qed.

Lemma replayStep_follow (st : list string * list string) (x : Event) :
  key x = Some k -> type x = "follow" -> In k (fst (replayStep key st x)).
Proof.
  intros Hk Ht. unfold replayStep. rewrite Hk, Ht. simpl.
  apply setAdd_In. now left.
Qed.

Lemma replayStep_unfollow (st : list string * list string) (x : Event) :
  key x = Some k -> type x = "unfollow" -> ~ In k (fst (replayStep key st x)).
Proof.
  intros Hk Ht. unfold replayStep. rewrite Hk, Ht. simpl.
  rewrite setDelete_In. tauto.
Qed.

(** The record that speaks last for [k] decides whether [k] is in the
    replayed set. *)
Lemma replay_speaksLast (e : Event) (l : list Event) :
  StronglySorted (oldestFirst timestamp) l -> speaksLast key k e l ->
  (type e = "follow" -> In k (replay key l))
  /\ (type e = "unfollow" -> ~ In k (replay key l)).
Proof.
  intros Hs Hlast. pose proof Hlast as (_ & Hk & _).
  destruct (speaksLast_split key k e l Hs Hlast) as (l1 & l2 & -> & Hl2).
  unfold replay. rewrite List.fold_left_app. simpl.
  generalize (List.fold_left (replayStep key) l1 ([], [])). intros st0.
  clear Hs Hlast.
  split; intros Ht.
  - assert (Hstart : In k (fst (replayStep key st0 e)))
      by (apply replayStep_follow; assumption).
    revert Hstart. generalize (replayStep key st0 e).
    induction l2 as [|x r IH]; intros st Hst; simpl; [exact Hst|].
    apply IH; [intros y Hy; apply Hl2; now right|].
    destruct (key x) as [k'|] eqn:Hkx.
    + destruct (String.eqb_spec k' k) as [->|Hne].
      * rewrite (Hl2 x (or_introl eq_refl) Hkx).
        apply replayStep_follow; assumption.
      * apply replayStep_other; [congruence|exact Hst].
    + apply replayStep_other; [congruence|exact Hst].
  - assert (Hstart : ~ In k (fst (replayStep key st0 e)))
      by (apply replayStep_unfollow; assumption).
    revert Hstart. generalize (replayStep key st0 e).
    induction l2 as [|x r IH]; intros st Hst; simpl; [exact Hst|].
    apply IH; [intros y Hy; apply Hl2; now right|].
    destruct (key x) as [k'|] eqn:Hkx.
    + destruct (String.eqb_spec k' k) as [->|Hne].
      * rewrite (Hl2 x (or_introl eq_refl) Hkx).
        apply replayStep_unfollow; assumption.
      * rewrite replayStep_other; [exact Hst|congruence].
    + rewrite replayStep_other; [exact Hst|congruence].
Qed.
End ReplayFacts.

Lemma speaksLast_sorted (key : Event -> option string) (k : string) (e : Event)
    (cmp : Event -> Event -> Z) (l : list Event) :
  speaksLast key k e l -> speaksLast key k e (sort cmp l).
Proof.
  intros (Hin & Hk & Hlast). split; [apply sort_In, Hin|]. split; [exact Hk|].
  intros e' He' Hk'. apply Hlast; [|exact Hk']. apply (sort_In cmp), He'.
Qed.

Section FollowReplayFacts.
Context `{Platform}.

(** X10: [getFollowing] resolves a target by the newest record.  When
    among my records in the follows collection one record for the target
    is newer than every other record for it, the target is followed when
    that record is a follow and not followed when it is an unfollow,
    whatever the order in which the records were stored. *)
Theorem getFollowing_latest (myPublicKey : list byte) (d : DB) (k : string)
    (e : Event) :
  speaksLast (fun x => content_target (content x)) k e
             (getFollowsByAuthor (publicKeyToString myPublicKey) d) ->
  (type e = "follow" -> In k (getFollowing myPublicKey d))
  /\ (type e = "unfollow" -> ~ In k (getFollowing myPublicKey d)).
Proof.
  intros Hlast. unfold getFollowing.
  apply (replay_speaksLast _ k e); [apply sortAsc_sorted|].
  apply speaksLast_sorted, Hlast.
Qed.

(** X11: [getFollowers] resolves a follower by the newest record in the
    same way: with one record of the follower for me newer than every
    other, the follower is listed when that record is a follow and not
    listed when it is an unfollow. *)
Theorem getFollowers_latest (myPublicKey : list byte) (d : DB) (k : string)
    (e : Event) :
  speaksLast (fun x => Some (author x)) k e
             (getFollowersOf (publicKeyToString myPublicKey) d) ->
  (type e = "follow" -> In k (getFollowers myPublicKey d))
  /\ (type e = "unfollow" -> ~ In k (getFollowers myPublicKey d)).
Proof.
  intros Hlast. unfold getFollowers.
  apply (replay_speaksLast _ k e); [apply sortAsc_sorted|].
  apply speaksLast_sorted, Hlast.
Qed.

End FollowReplayFacts.

(** X10 on the executable platform: follow at 1, unfollow at 2, follow at
    3, stored in another order. *)
Lemma getFollowing_latest_witness :
  let me := @publicKeyToString Sim.platform Sim.alice in
  let ev i ty t := {| id := i; type := ty; author := me; timestamp := t;
                      signature := "s"; content := CFollow "bob" None |} in
  let d := storeFollow (ev "b" "unfollow" 2)
             (storeFollow (ev "a" "follow" 3)
                (storeFollow (ev "c" "follow" 1) emptyDB)) in
  speaksLast (fun x => content_target (content x)) "bob" (ev "a" "follow" 3)
             (getFollowsByAuthor me d)
  /\ In "bob" (@getFollowing Sim.platform Sim.alice d).
Proof.
  intros me ev d.
  assert (Hlast : speaksLast (fun x => content_target (content x)) "bob"
                    (ev "a" "follow" 3) (getFollowsByAuthor me d)).
  { split; [vm_compute; now left|]. split; [reflexivity|].
    intros e' Hin _. vm_compute in Hin.
    destruct Hin as [<-|[<-|[<-|[]]]]; [now left|right|right]; simpl; lia. }
  split; [exact Hlast|].
  exact (proj1 (@getFollowing_latest Sim.platform Sim.alice d "bob" _ Hlast)
               eq_refl).
Defined.

Lemma getFollowers_latest_witness :
  let me := @publicKeyToString Sim.platform Sim.alice in
  let ev i ty t := {| id := i; type := ty; author := "bob"; timestamp := t;
                      signature := "s"; content := CFollow me None |} in
  let d := storeFollow (ev "b" "unfollow" 2)
             (storeFollow (ev "c" "follow" 1) emptyDB) in
  speaksLast (fun x => Some (author x)) "bob" (ev "b" "unfollow" 2)
             (getFollowersOf me d)
  /\ ~ In "bob" (@getFollowers Sim.platform Sim.alice d).
Proof.
  intros me ev d.
  assert (Hlast : speaksLast (fun x => Some (author x)) "bob"
                    (ev "b" "unfollow" 2) (getFollowersOf me d)).
  { split; [vm_compute; now left|]. split; [reflexivity|].
    intros e' Hin _. vm_compute in Hin.
    destruct Hin as [<-|[<-|[]]]; [now left|right]; simpl; lia. }
  split; [exact Hlast|].
  exact (proj2 (@getFollowers_latest Sim.platform Sim.alice d "bob" _ Hlast)
               eq_refl).
Defined.

(** ** The follower map with encryption keys *)

Section MapFacts.
Context {V : Type}.

Lemma mapGet_update (k k' : string) (v : V) (m : list (string * V)) :
  mapGet k (map (fun kv => if String.eqb (fst kv) k' then (fst kv, v) else kv) m)
  = if String.eqb k' k && mapHas k' m then Some v else mapGet k m.
Proof.
  unfold mapGet, mapHas. induction m as [|[q w] r IH]; simpl.
  - rewrite Bool.andb_false_r. reflexivity.
  - destruct (String.eqb_spec q k') as [Hq|Hq]; simpl.
    + subst q. destruct (String.eqb_spec k' k) as [Hk|Hk]; simpl; [reflexivity|].
      rewrite IH. reflexivity.
    + destruct (String.eqb_spec q k) as [Hk|Hk]; simpl.
      * subst q. destruct (String.eqb_spec k' k) as [Hk'|Hk']; [congruence|reflexivity].
      * exact IH.
Qed.

Lemma mapGet_app (k : string) (m1 m2 : list (string * V)) :
  mapGet k (m1 ++ m2) = match mapGet k m1 with
                        | Some v => Some v
                        | None => mapGet k m2
                        end.
Proof.
  unfold mapGet. induction m1 as [|[q w] r IH]; simpl; [reflexivity|].
  destruct (String.eqb q k); simpl; [reflexivity|exact IH].
Qed.

Lemma mapGet_None (k : string) (m : list (string * V)) :
  mapHas k m = false -> mapGet k m = None.
Proof.
  unfold mapGet, mapHas. induction m as [|[q w] r IH]; simpl; [reflexivity|].
  destruct (String.eqb q k); simpl; [discriminate|exact IH].
Qed.

Lemma mapGet_set (k k' : string) (v : V) (m : list (string * V)) :
  mapGet k (mapSet k' v m) = if String.eqb k' k then Some v else mapGet k m.
Proof.
  unfold mapSet. destruct (mapHas k' m) eqn:Hh.
  - rewrite mapGet_update, Hh, Bool.andb_true_r. reflexivity.
  - rewrite mapGet_app. destruct (String.eqb_spec k' k) as [Hk|Hk].
    + subst k'. rewrite (mapGet_None k m Hh). unfold mapGet. simpl.
      rewrite String.eqb_refl. reflexivity.
    + destruct (mapGet k m); [reflexivity|]. unfold mapGet. simpl.
      apply String.eqb_neq in Hk. rewrite Hk. reflexivity.
Qed.

Lemma mapGet_delete (k k' : string) (m : list (string * V)) :
  mapGet k (mapDelete k' m) = if String.eqb k' k then None else mapGet k m.
Proof.
  unfold mapDelete, mapGet.
  induction m as [|[q w] r IH]; simpl.
  - destruct (String.eqb k' k); reflexivity.
  - destruct (String.eqb_spec q k') as [->|Hq]; simpl.
    + rewrite IH. destruct (String.eqb k' k); reflexivity.
    + destruct (String.eqb_spec q k) as [->|Hqk]; simpl; [|exact IH].
      destruct (String.eqb_spec k' k); [congruence|reflexivity].
Qed.

Lemma mapHas_In (k : string) (m : list (string * V)) :
  mapHas k m = true <-> In k (map fst m).
Proof.
  unfold mapHas. rewrite List.existsb_exists, List.in_map_iff. split.
  - intros (kv & Hin & He). apply String.eqb_eq in He. eauto.
  - intros (kv & He & Hin). exists kv. split; [exact Hin|]. apply String.eqb_eq, He.
Qed.

Lemma mapSet_NoDup (k : string) (v : V) (m : list (string * V)) :
  List.NoDup (map fst m) -> List.NoDup (map fst (mapSet k v m)).
Proof.
  intros Hnd. unfold mapSet. destruct (mapHas k m) eqn:Hh.
  - clear Hh.
    assert (Hsame : map fst (map (fun kv : string * V =>
                       if String.eqb (fst kv) k then (fst kv, v) else kv) m)
                    = map fst m).
    { clear Hnd. induction m as [|[q w] r IH]; simpl; [reflexivity|].
      destruct (String.eqb q k); simpl; rewrite IH; reflexivity. }
    rewrite Hsame. exact Hnd.
  - rewrite List.map_app. simpl.
    apply List.NoDup_app; [exact Hnd|repeat constructor; intros []|].
    intros x Hx [Hk|[]]. subst x.
    assert (mapHas k m = true) by (apply mapHas_In, Hx). congruence.
Qed.

Lemma mapDelete_NoDup (k : string) (m : list (string * V)) :
  List.NoDup (map fst m) -> List.NoDup (map fst (mapDelete k m)).
Proof.
  unfold mapDelete. induction m as [|[q w] r IH]; simpl; intros Hnd; [exact Hnd|].
  inversion Hnd as [|? ? Hq Hr]; subst.
  destruct (negb (String.eqb q k)); simpl; [|auto].
  constructor; [|auto]. intros Hin. apply Hq.
  apply List.in_map_iff in Hin as (kv & <- & Hkv).
  apply List.filter_In in Hkv as [Hkv _]. apply List.in_map, Hkv.
Qed.
End MapFacts.

Lemma followerStep_other (k : string) (m : list (string * option string))
    (x : Event) :
  author x <> k -> mapGet k (followerStep m x) = mapGet k m.
Proof.
  intros Hne. unfold followerStep. apply String.eqb_neq in Hne.
  destruct (String.eqb (type x) "follow");
    rewrite ?mapGet_set, ?mapGet_delete, Hne; reflexivity.
Qed.

Lemma followerStep_own (m : list (string * option string)) (x : Event) :
  mapGet (author x) (followerStep m x)
  = if String.eqb (type x) "follow"
    then Some (content_encryptionPublicKey (content x)) else None.
Proof.
  unfold followerStep.
  destruct (String.eqb (type x) "follow");
    rewrite ?mapGet_set, ?mapGet_delete, String.eqb_refl; reflexivity.
Qed.

(** X12: [getFollowersOfWithEncryptionKeys] lists every follower once.
    When one record of a follower for the author is newer than every
    other, the follower is listed, with the encryption key of that record,
    if the record is a follow, and is not listed otherwise. *)
Theorem followers_with_keys_latest (a : string) (d : DB) (k : string) (e : Event) :
  speaksLast (fun x => Some (author x)) k e (getFollowersOf a d) ->
  List.NoDup (map fst (getFollowersOfWithEncryptionKeys a d))
  /\ mapGet k (getFollowersOfWithEncryptionKeys a d)
     = if String.eqb (type e) "follow"
       then Some (content_encryptionPublicKey (content e)) else None.
Proof.
  intros Hlast. unfold getFollowersOfWithEncryptionKeys. split.
  - generalize (sort byTimestampAsc (getFollowersOf a d)). intros l.
    assert (Hgen : forall m, List.NoDup (map fst m) ->
                     List.NoDup (map fst (List.fold_left followerStep l m))).
    { induction l as [|x r IH]; intros m Hm; simpl; [exact Hm|].
      apply IH. unfold followerStep.
      destruct (String.eqb (type x) "follow");
        [apply mapSet_NoDup|apply mapDelete_NoDup]; exact Hm. }
    apply Hgen. constructor.
  - pose proof (speaksLast_sorted _ k e byTimestampAsc _ Hlast) as Hl.
    destruct (speaksLast_split _ k e _ (sortAsc_sorted _) Hl) as (l1 & l2 & -> & Hl2).
    destruct Hl as (_ & Hk & _). injection Hk as Hk.
    rewrite List.fold_left_app. simpl.
    generalize (List.fold_left followerStep l1 []). intros m0.
    assert (Hstart : mapGet k (followerStep m0 e)
                     = if String.eqb (type e) "follow"
                       then Some (content_encryptionPublicKey (content e))
                       else None).
    { rewrite <- Hk. apply followerStep_own. }
    revert Hstart. generalize (followerStep m0 e).
    induction l2 as [|x r IH]; intros m Hm; simpl; [exact Hm|].
    apply IH; [intros y Hy; apply Hl2; now right|].
    destruct (String.eqb_spec (author x) k) as [Hx|Hx].
    + rewrite (Hl2 x (or_introl eq_refl) (f_equal Some Hx)).
      rewrite <- Hk. apply followerStep_own.
    + rewrite followerStep_other; assumption.
Qed.

Lemma followers_with_keys_latest_witness :
  let ev i ty t key := {| id := i; type := ty; author := "bob"; timestamp := t;
                          signature := "s"; content := CFollow "alice" key |} in
  let d := storeFollow (ev "b" "follow" 2 (Some "K2"))
             (storeFollow (ev "c" "follow" 1 None) emptyDB) in
  speaksLast (fun x => Some (author x)) "bob" (ev "b" "follow" 2 (Some "K2"))
             (getFollowersOf "alice" d)
  /\ mapGet "bob" (getFollowersOfWithEncryptionKeys "alice" d) = Some (Some "K2").
Proof.
  intros ev d.
  assert (Hlast : speaksLast (fun x => Some (author x)) "bob"
                    (ev "b" "follow" 2 (Some "K2")) (getFollowersOf "alice" d)).
  { split; [vm_compute; now left|]. split; [reflexivity|].
    intros e' Hin _. vm_compute in Hin.
    destruct Hin as [<-|[<-|[]]]; [now left|right]; simpl; lia. }
  split; [exact Hlast|].
  exact (proj2 (followers_with_keys_latest "alice" d "bob" _ Hlast)).
Defined.

(** ** The follow graph *)

Lemma graphStep_single (a : string) (s u : list string) (x : Event) :
  author x = a ->
  graphStep [(a, s)] x
  = [(a, fst (replayStep (fun e => content_target (content e)) (s, u) x))].
Proof.
  intros Ha. unfold graphStep, replayStep, mapHas, mapUpdate. rewrite Ha. simpl.
  rewrite String.eqb_refl. simpl.
  destruct (content_target (content x)) as [t|]; [|reflexivity].
  destruct (String.eqb (type x) "follow"); simpl.
  - rewrite String.eqb_refl. reflexivity.
  - destruct (String.eqb (type x) "unfollow"); simpl; [|reflexivity].
    rewrite String.eqb_refl. reflexivity.
Qed.

Lemma graphStep_first (x : Event) :
  graphStep [] x = graphStep [(author x, [])] x.
Proof.
  unfold graphStep, mapHas, mapUpdate. simpl. rewrite !String.eqb_refl. simpl.
  destruct (content_target (content x)) as [t|]; [|reflexivity].
  destruct (String.eqb (type x) "follow"); simpl;
    [rewrite !String.eqb_refl; reflexivity|].
  destruct (String.eqb (type x) "unfollow"); simpl;
    rewrite ?String.eqb_refl; reflexivity.
Qed.

Lemma graph_fold (a : string) (l : list Event) (s u : list string) :
  Forall (fun x => author x = a) l ->
  List.fold_left graphStep l [(a, s)]
  = [(a, fst (List.fold_left (replayStep (fun e => content_target (content e)))
                             l (s, u)))].
Proof.
  intros Hl. revert s u. induction Hl as [|x r Hx Hr IH]; intros s u; simpl.
  - reflexivity.
  - rewrite (graphStep_single a s u x Hx).
    destruct (replayStep _ (s, u) x) as [s' u'] eqn:Hstep. simpl.
    apply IH.
Qed.

Section FollowGraphFacts.
Context `{Platform}.

(** X13: the graph of [getFollowGraph] has no node when I have no record
    in the follows collection, and otherwise the single node of my own
    key, whose set is the list of [getFollowing]. *)
Theorem getFollowGraph_single (myPublicKey : list byte) (d : DB) :
  getFollowGraph myPublicKey d
  = match getFollowsByAuthor (publicKeyToString myPublicKey) d with
    | [] => []
    | _ :: _ => [(publicKeyToString myPublicKey, getFollowing myPublicKey d)]
    end.
Proof.
  unfold getFollowGraph, getFollowing, replay.
  set (a := publicKeyToString myPublicKey).
  assert (Hall : Forall (fun x => author x = a)
                   (sort byTimestampAsc (getFollowsByAuthor a d))).
  { apply List.Forall_forall. intros x Hx.
    apply sort_In in Hx. unfold getFollowsByAuthor in Hx. apply sort_In in Hx.
    unfold cursor_only in Hx. apply List.filter_In in Hx as [_ Hx].
    apply String.eqb_eq, Hx. }
  pose proof (sort_length byTimestampAsc (getFollowsByAuthor a d)) as Hlen.
  destruct (getFollowsByAuthor a d) as [|y r] eqn:Hl0.
  - reflexivity.
  - destruct (sort byTimestampAsc (y :: r)) as [|x l] eqn:Hl; [discriminate|].
    change (List.fold_left graphStep (x :: l) [])
      with (List.fold_left graphStep l (graphStep [] x)).
    rewrite graphStep_first.
    inversion Hall as [|? ? Hx Hr]; subst.
    rewrite Hx.
    change (List.fold_left graphStep l (graphStep [(a, [])] x))
      with (List.fold_left graphStep (x :: l) [(a, [])]).
    apply graph_fold. constructor; assumption.
Qed.

End FollowGraphFacts.

(** ** Gossip: what is stored, and how often *)

Section GossipMoreFacts.
Context `{Platform}.

Lemma handleEventResponse_events (peers : list PeerId) (evs : list Event) (n : Node)
    (x : Event) :
  In x (events (db (fst (handleEventResponse peers evs n)))) ->
  In x (events (db n)) \/ (In x evs /\ isValidEvent x = Some true).
Proof.
  revert n. induction evs as [|e r IH]; intros n; simpl; [auto|].
  destruct (processIncomingEvent peers e n) as [[n1 out1]|] eqn:Hp; [|auto].
  pose proof (IH n1) as IH1.
  destruct (handleEventResponse peers r n1) as [n2 out2]. simpl in *.
  intros Hx. apply IH1 in Hx as [Hx|[Hx Hv]]; [|auto].
  apply processIncomingEvent_db in Hp as [Hdb|[Hv Hdb]]; rewrite Hdb in Hx; [auto|].
  simpl in Hx. apply In_put in Hx as [->|Hx]; auto.
Qed.

(** X14: gossip writes no event to the store that [isValidEvent] has not
    accepted: when every stored event is valid before a peer's message is
    handled, every stored event is valid afterwards, whatever the message
    carries. *)
Theorem gossip_stores_only_valid (peers : list PeerId) (p : PeerId)
    (m : GossipMessage) (n : Node) :
  allValid (db n) -> allValid (db (fst (handleMessage peers p m n))).
Proof.
  intros Hv. unfold allValid in *. apply List.Forall_forall. intros x Hx.
  assert (Hold : forall y, In y (events (db n)) -> isValidEvent y = Some true)
    by (apply List.Forall_forall, Hv).
  destruct m as [ids|mi ti|ids|evs|e]; simpl in Hx; auto.
  - apply handleEventResponse_events in Hx as [Hx|[_ Hx]]; auto.
  - pose proof (handleEventResponse_events peers [e] n x) as He. simpl in He.
    unfold handleNewEvent in Hx.
    destruct (processIncomingEvent peers e n) as [[n1 out1]|]; simpl in *; [|auto].
    destruct (He Hx) as [Hy|[_ Hy]]; auto.
Qed.

(** X15: every id in the seen set is the id of a stored event: this holds
    when [start] has run, and [broadcastEvent] and every message handler
    keep it. *)
Theorem seen_ids_are_stored (peers : list PeerId) (p : PeerId)
    (m : GossipMessage) (e : Event) (n : Node) :
  seenStored n ->
  seenStored (fst (handleMessage peers p m n))
  /\ seenStored (fst (broadcastEvent peers e n))
  /\ seenStored (start (db n)).
Proof.
  intros Hs. split; [|split].
  - apply handleMessage_inv, Hs.
  - apply broadcastEvent_seenStored, Hs.
  - apply start_seenStored.
Qed.

Lemma seen_discarded (peers : list PeerId) (e : Event) (n : Node) :
  id e ∈ seenEventIds (gossip n) -> processIncomingEvent peers e n = Some (n, []).
Proof.
  intros Hin. unfold processIncomingEvent.
  destruct (decide _); [reflexivity|contradiction].
Qed.

(** X16: an event is processed once.  When a valid event has been
    processed, processing it again changes nothing and sends nothing; and
    an event that this node broadcast itself is discarded when a peer
    sends it back. *)
Theorem event_processed_once (peers : list PeerId) (e : Event) (n n1 : Node)
    (out1 : list Send) :
  isValidEvent e = Some true ->
  processIncomingEvent peers e n = Some (n1, out1) ->
  processIncomingEvent peers e n1 = Some (n1, [])
  /\ processIncomingEvent peers e (fst (broadcastEvent peers e n))
     = Some (fst (broadcastEvent peers e n), []).
Proof.
  intros Hv Hp. split.
  - apply seen_discarded. revert Hp. unfold processIncomingEvent.
    destruct (decide _) as [Hin|Hnin]; [intros [= <- <-]; exact Hin|].
    rewrite Hv. destruct (hasEvent (id e) (db n)).
    + intros [= <- <-]. simpl. apply elem_of_union. left. apply elem_of_singleton.
      reflexivity.
    + unfold processEventQueue. simpl.
      destruct (processingQueue (gossip n)); simpl; intros [= <- <-]; simpl;
        apply elem_of_union; left; apply elem_of_singleton; reflexivity.
  - apply seen_discarded. simpl. apply elem_of_union. left.
    apply elem_of_singleton. reflexivity.
Qed.

(** X17: an event on which validation throws ends the handling of its
    event-response: the events before it are processed as usual, the
    events after it are not processed at all, valid or not. *)
Theorem throwing_event_ends_batch (peers : list PeerId) (l1 l2 : list Event)
    (e : Event) (n : Node) :
  isValidEvent e = None ->
  id e ∉ seenEventIds (gossip (fst (handleEventResponse peers l1 n))) ->
  handleEventResponse peers (l1 ++ e :: l2) n = handleEventResponse peers l1 n.
Proof.
  intros Hv. revert n. induction l1 as [|x r IH]; intros n Hseen; simpl in *.
  - unfold processIncomingEvent. destruct (decide _); [contradiction|].
    rewrite Hv. reflexivity.
  - destruct (processIncomingEvent peers x n) as [[n1 o1]|]; [|reflexivity].
    rewrite IH; [reflexivity|].
    destruct (handleEventResponse peers r n1). exact Hseen.
Qed.

End GossipMoreFacts.

(** X14 on the executable platform. *)
Lemma gossip_stores_only_valid_witness :
  let good := Sim.post 1000 Sim.alice "hello" "tech" in
  let n := Sim.node [good] in
  @allValid Sim.platform (db n)
  /\ @allValid Sim.platform
       (db (fst (@handleMessage Sim.platform [peerB] peerB
                   (NewEvent (Sim.post 2000 Sim.bob "yo" "")) n))).
Proof.
  intros good n.
  assert (Hv : @allValid Sim.platform (db n)).
  { repeat constructor; vm_compute; reflexivity. }
  split; [exact Hv|]. exact (@gossip_stores_only_valid Sim.platform _ _ _ n Hv).
Defined.

Lemma seen_ids_are_stored_witness :
  let good := Sim.post 1000 Sim.alice "hello" "tech" in
  let n := Sim.node [good] in
  seenStored n /\ seenStored (fst (broadcastEvent [peerB] good n)).
Proof.
  intros good n. split; [apply start_seenStored|].
  exact (proj1 (proj2 (@seen_ids_are_stored Sim.platform [peerB] peerB
                         (NewEvent good) good n (start_seenStored _)))).
Defined.

Lemma event_processed_once_witness :
  let good := Sim.post 1000 Sim.alice "hello" "tech" in
  let r := @processIncomingEvent Sim.platform [peerB] good freshNode in
  @isValidEvent Sim.platform good = Some true
  /\ (exists n1 out1, r = Some (n1, out1)
        /\ out1 = [(peerB, NewEvent good)]
        /\ @processIncomingEvent Sim.platform [peerB] good n1 = Some (n1, [])).
Proof.
  intros good r.
  assert (Hv : @isValidEvent Sim.platform good = Some true)
    by (vm_compute; reflexivity).
  split; [exact Hv|].
  destruct r as [[n1 out1]|] eqn:Hr; [|vm_compute in Hr; discriminate Hr].
  exists n1, out1. split; [reflexivity|]. split.
  - vm_compute in Hr. injection Hr as _ <-. reflexivity.
  - exact (proj1 (@event_processed_once Sim.platform [peerB] good freshNode n1 out1
                    Hv Hr)).
Defined.

(** X17 on the stricter platform: the second of three posts carries a
    signature that is not base64. *)
Lemma throwing_event_ends_batch_witness :
  let p1 := @createPostEvent SimStrict.platform 1000 "one" Sim.alice Sim.alice
              None None None None in
  let p2 := @createPostEvent SimStrict.platform 2000 "two" Sim.alice Sim.alice
              None None None None in
  let p3 := @createPostEvent SimStrict.platform 3000 "three" Sim.alice Sim.alice
              None None None None in
  let broken := {| id := id p2; type := type p2; author := author p2;
                   timestamp := timestamp p2; signature := "!";
                   content := content p2 |} in
  @isValidEvent SimStrict.platform broken = None
  /\ map id (events (db (fst (@handleEventResponse SimStrict.platform [peerB]
                                 ([p1] ++ broken :: [p3]) freshNode))))
     = [id p1].
Proof.
  intros p1 p2 p3 broken.
  assert (Hv : @isValidEvent SimStrict.platform broken = None)
    by (vm_compute; reflexivity).
  split; [exact Hv|].
  rewrite (@throwing_event_ends_batch SimStrict.platform [peerB] [p1] [p3] broken
             freshNode Hv).
  - vm_compute. reflexivity.
  - vm_compute. intros Hin. discriminate Hin.
Defined.

(** ** Gossip: requests, answers and a sync with nothing to say *)

Lemma getEvent_hasEvent (i : string) (d : DB) :
  match getEvent i d with
  | Some e => id e = i /\ In e (events d) /\ hasEvent i d = true
  | None => hasEvent i d = false
  end.
Proof.
  unfold getEvent. destruct (get id i (events d)) as [e|] eqn:Hg.
  - apply get_Some in Hg as [Hin Hid]. repeat split; [exact Hid|exact Hin|].
    apply hasEvent_In, getAllEventIds_In. rewrite <- Hid. apply List.in_map, Hin.
  - apply Bool.not_true_is_false. intros Hh.
    apply hasEvent_In, getAllEventIds_In, (get_In id) in Hh as [v Hv]. congruence.
Qed.

Lemma getAllEventIds_keyed (d : DB) :
  keySorted id (events d) -> getAllEventIds d = map id (events d).
Proof.
  intros He. unfold getAllEventIds.
  apply newSet_NoDup, (keySorted_NoDup id), He.
Qed.

Lemma filter_nil {A : Type} (f : A -> bool) (l : list A) :
  (forall x, In x l -> f x = false) -> List.filter f l = [].
Proof.
  induction l as [|x r IH]; intros Hf; simpl; [reflexivity|].
  rewrite (Hf x (or_introl eq_refl)). apply IH. intros y Hy. apply Hf. now right.
Qed.

Section GossipSyncFacts.
Context `{Platform}.

(** X18: the answer to an event-request is one event-response to the
    asking peer.  It carries the stored events of the requested ids, in
    the order of the request; an id that is not stored is left out
    without a notice. *)
Theorem handleEventRequest_answers (p : PeerId) (ids : list string) (n : Node) :
  exists evs : list Event,
    handleEventRequest p ids n = [(p, EventResponse evs)]
    /\ map id evs = List.filter (fun i => hasEvent i (db n)) ids
    /\ Forall (fun e => In e (events (db n))) evs.
Proof.
  exists (lookupEvents ids (db n)). split; [reflexivity|].
  induction ids as [|i r [IH1 IH2]]; simpl; [split; [reflexivity|constructor]|].
  pose proof (getEvent_hasEvent i (db n)) as Hg.
  destruct (getEvent i (db n)) as [e|].
  - destruct Hg as (Hid & Hin & ->). simpl. rewrite Hid, IH1.
    split; [reflexivity|]. constructor; assumption.
  - rewrite Hg. split; assumption.
Qed.

(** X19: a sync between two peers that hold the same event ids says
    nothing more: the sync-request is answered by a sync-response with
    two empty lists, no event-request is sent by either side, and both
    nodes are as they were. *)
Theorem sync_of_equal_stores_is_silent (a b : Node) :
  sameIds (db a) (db b) ->
  handleSyncRequest peerA (getAllEventIds (db a)) b = [(peerA, SyncResponse [] [])]
  /\ deliverToA (deliverToB (connect a b))
     = {| nodeA := a; nodeB := b; toA := []; toB := [] |}.
Proof.
  intros Hsame.
  assert (Hreq : handleSyncRequest peerA (getAllEventIds (db a)) b
                 = [(peerA, SyncResponse [] [])]).
  { unfold handleSyncRequest.
    rewrite (filter_nil (fun i => negb (has i (getAllEventIds (db b))))).
    2:{ intros i Hi. apply newSet_In, Hsame, has_In in Hi. rewrite Hi. reflexivity. }
    rewrite (filter_nil (fun i => negb (has i (newSet (getAllEventIds (db a)))))).
    2:{ intros i Hi. apply Hsame in Hi.
        apply (proj2 (newSet_In i _)), has_In in Hi. rewrite Hi. reflexivity. }
    reflexivity. }
  split; [exact Hreq|].
  unfold connect, deliverToB, syncWithPeer. cbn -[handleSyncRequest].
  rewrite Hreq. reflexivity.
Qed.

(** X20: gossip keeps the store in key order: after a peer's message is
    handled, and after a local broadcast, the three collections are still
    in strictly ascending key order.  Two stores in key order that know the
    same ids list them identically in [getAllEventIds]. *)
Theorem gossip_keeps_key_order (peers : list PeerId) (p : PeerId)
    (m : GossipMessage) (e : Event) (n : Node) :
  wellKeyed (db n) ->
  wellKeyed (db (fst (handleMessage peers p m n)))
  /\ wellKeyed (db (fst (broadcastEvent peers e n)))
  /\ (forall n' : Node, wellKeyed (db n') -> sameIds (db n) (db n') ->
        getAllEventIds (db n) = getAllEventIds (db n')).
Proof.
  intros Hk. split; [|split].
  - assert (Hstep : forall x n0 n1 o, wellKeyed (db n0) ->
               processIncomingEvent peers x n0 = Some (n1, o) -> wellKeyed (db n1)).
    { intros x n0 n1 o Hk0 Hp.
      apply processIncomingEvent_db in Hp as [->|[_ ->]];
        [exact Hk0|apply storeEvent_wellKeyed, Hk0]. }
    destruct m as [ids|mi ti|ids|evs|x]; simpl; try exact Hk.
    + revert n Hk. induction evs as [|x r IH]; intros n Hk; simpl; [exact Hk|].
      destruct (processIncomingEvent peers x n) as [[n1 o1]|] eqn:Hp; [|exact Hk].
      specialize (IH n1 (Hstep _ _ _ _ Hk Hp)).
      destruct (handleEventResponse peers r n1). exact IH.
    + unfold handleNewEvent.
      destruct (processIncomingEvent peers x n) as [[n1 o1]|] eqn:Hp; [|exact Hk].
      exact (Hstep _ _ _ _ Hk Hp).
  - simpl. apply storeEvent_wellKeyed, Hk.
  - intros n' Hk' Hsame.
    apply (sorted_ext (fun x y => String.compare x y = Lt)).
    + intros x Hx. rewrite compare_refl in Hx. discriminate.
    + apply compare_lt_trans.
    + rewrite getAllEventIds_keyed by apply Hk. apply keySorted_map, Hk.
    + rewrite getAllEventIds_keyed by apply Hk'. apply keySorted_map, Hk'.
    + exact Hsame.
Qed.

End GossipSyncFacts.

Lemma sync_of_equal_stores_is_silent_witness :
  let p := Sim.post 1000 Sim.alice "hello" "tech" in
  let q := Sim.post 2000 Sim.bob "yo" "" in
  sameIds (db (Sim.node [p; q])) (db (Sim.node [q; p]))
  /\ @deliverToA Sim.platform
       (@deliverToB Sim.platform (connect (Sim.node [p; q]) (Sim.node [q; p])))
     = {| nodeA := Sim.node [p; q]; nodeB := Sim.node [q; p]; toA := []; toB := [] |}.
Proof.
  intros p q.
  assert (Hs : sameIds (db (Sim.node [p; q])) (db (Sim.node [q; p]))).
  { intros i. vm_compute. tauto. }
  split; [exact Hs|].
  exact (proj2 (@sync_of_equal_stores_is_silent Sim.platform _ _ Hs)).
Defined.

Lemma gossip_keeps_key_order_witness :
  let p := Sim.post 1000 Sim.alice "hello" "tech" in
  wellKeyed (db freshNode)
  /\ wellKeyed (db (fst (@handleMessage Sim.platform [peerB] peerB (NewEvent p)
                           freshNode))).
Proof.
  intros p. split; [exact wellKeyed_empty|].
  exact (proj1 (@gossip_keeps_key_order Sim.platform [peerB] peerB (NewEvent p) p
                  freshNode wellKeyed_empty)).
Defined.

(** ** The feed engine and the orchestrator *)

Lemma storeEvent_storeEvent (e : Event) (d : DB) :
  storeEvent e (storeEvent e d) = storeEvent e d.
Proof.
  unfold storeEvent. simpl. rewrite put_put.
  destruct (is_profile e); [rewrite put_put|]; reflexivity.
Qed.

Lemma someId_In (i : string) (items : list FeedItem.t) :
  someId i items = true <-> exists item, In item items /\ id (FeedItem.event item) = i.
Proof.
  unfold someId. rewrite List.existsb_exists.
  split; intros (x & Hx & He); exists x; (split; [exact Hx|]);
    apply String.eqb_eq, He.
Qed.

Lemma someId_sort (cmp : FeedItem.t -> FeedItem.t -> Z) (i : string)
    (items : list FeedItem.t) :
  someId i (sort cmp items) = someId i items.
Proof.
  apply Bool.eq_iff_eq_true. rewrite !someId_In.
  split; intros (x & Hx & He); exists x; (split; [|exact He]).
  - apply sort_In in Hx. exact Hx.
  - apply sort_In. exact Hx.
Qed.

(** The items newer than [t] in a feed that is newest first are a prefix
    of it. *)
Lemma filter_newer_prefix (t : Z) (items : list FeedItem.t) :
  StronglySorted itemBefore items ->
  exists k : nat,
    List.filter (fun item => t <? FeedItem.timestamp item) items = List.firstn k items
    /\ Forall (fun item => FeedItem.timestamp item <= t) (List.skipn k items).
Proof.
  induction 1 as [|h r Hr (k & Hk & Hrest) Hh]; [exists 0%nat; split; constructor|].
  simpl. destruct (Z.ltb_spec t (FeedItem.timestamp h)) as [Hlt|Hge].
  - exists (S k). simpl. rewrite Hk. split; [reflexivity|exact Hrest].
  - exists 0%nat. simpl.
    assert (Hall : Forall (fun item => FeedItem.timestamp item <= t) r).
    { eapply List.Forall_impl; [|exact Hh]. unfold itemBefore, newestFirst.
      cbv beta. intros x Hx. lia. }
    split; [|constructor; assumption].
    apply filter_nil. intros x Hx.
    apply Z.ltb_ge. exact (proj1 (List.Forall_forall _ _) Hall x Hx).
Qed.

Section FeedMoreFacts.
Context `{Platform}.

(** X21: after [refresh] the home feed holds exactly the stored posts of
    the user and of the authors [getFollowing] returns, newest first; the
    topic filter and the topic feed are left as they were. *)
Theorem refresh_home_feed (myPublicKey : list byte) (d : DB) (fe : FeedEngine) :
  (forall item : FeedItem.t,
     In item (feedItems (refresh myPublicKey d fe))
     <-> exists e : Event,
           item = toItem e /\ In e (events d) /\ is_post e = true
           /\ (author e = publicKeyToString myPublicKey
               \/ In (author e) (getFollowing myPublicKey d)))
  /\ StronglySorted itemBefore (feedItems (refresh myPublicKey d fe))
  /\ topicFilter (refresh myPublicKey d fe) = topicFilter fe
  /\ topicFeedItems (refresh myPublicKey d fe) = topicFeedItems fe.
Proof.
  split; [|split; [|split; reflexivity]].
  2:{ apply (sort_sorted FeedItem.timestamp byItemDesc byItemDesc_key). }
  intros item. unfold refresh. cbn [feedItems].
  rewrite sort_In, List.in_map_iff. split.
  - intros (e & <- & He). exists e. split; [reflexivity|].
    apply List.in_flat_map in He as (a & Ha & He).
    apply List.filter_In in He as [He Hp].
    unfold getEventsByAuthor, cursor_only in He.
    apply sort_In, List.filter_In in He as [He Hauth].
    apply String.eqb_eq in Hauth.
    apply (proj1 (newSet_In a (publicKeyToString myPublicKey
                                 :: getFollowing myPublicKey d))) in Ha.
    repeat split; [exact He|exact Hp|].
    rewrite Hauth. destruct Ha as [Ha|Ha]; [left; now symmetry|right; exact Ha].
  - intros (e & -> & He & Hp & Hauth). exists e. split; [reflexivity|].
    apply List.in_flat_map. exists (author e). split.
    + apply (proj2 (newSet_In (author e) (publicKeyToString myPublicKey
                                            :: getFollowing myPublicKey d))).
      destruct Hauth as [Ha|Ha]; [left; now symmetry|right; exact Ha].
    + apply List.filter_In. split; [|exact Hp].
      unfold getEventsByAuthor, cursor_only.
      apply sort_In, List.filter_In. split; [exact He|apply String.eqb_refl].
Qed.

Lemma addEvent_addEvent (myPublicKey : list byte) (d : DB) (ev : Event)
    (fe : FeedEngine) :
  addEvent myPublicKey d ev (addEvent myPublicKey d ev fe)
  = addEvent myPublicKey d ev fe.
Proof.
  unfold addEvent. destruct (negb (is_post ev)); [reflexivity|].
  cbn [feedItems topicFilter topicFeedItems]. f_equal.
  - destruct (String.eqb (author ev) (publicKeyToString myPublicKey)
              || has (author ev) (getFollowing myPublicKey d)); [|reflexivity].
    cbn [andb]. destruct (someId (id ev) (feedItems fe)) eqn:Hs; cbn [negb].
    + rewrite Hs. reflexivity.
    + rewrite someId_sort.
      assert (Hin : someId (id ev) (feedItems fe ++ [toItem ev]) = true).
      { apply someId_In. exists (toItem ev). split; [|reflexivity].
        apply List.in_or_app. right. now left. }
      rewrite Hin. reflexivity.
  - destruct (forTopic ev fe) eqn:Ht.
    + unfold forTopic in *. cbn [topicFilter topicFeedItems].
      destruct (topicFilter fe) as [f|]; [|discriminate].
      assert (Hin : someId (id ev) (toItem ev :: topicFeedItems fe) = true).
      { apply someId_In. exists (toItem ev). split; [now left|reflexivity]. }
      rewrite Hin, Bool.andb_false_r. reflexivity.
    + unfold forTopic in *. cbn [topicFilter topicFeedItems]. rewrite Ht.
      reflexivity.
Qed.

(** X22: [addEvent] is idempotent: a second call with the same event (and
    the same follows) changes nothing, in the home feed and in the topic
    feed.  An event that is not a post changes nothing at all. *)
Theorem addEvent_idempotent (myPublicKey : list byte) (d : DB) (ev : Event)
    (fe : FeedEngine) :
  addEvent myPublicKey d ev (addEvent myPublicKey d ev fe)
  = addEvent myPublicKey d ev fe
  /\ (is_post ev = false -> addEvent myPublicKey d ev fe = fe).
Proof.
  split; [apply addEvent_addEvent|].
  intros Hp. unfold addEvent. rewrite Hp. reflexivity.
Qed.

(** X23: [createPost] stores the post twice ([storeEvent], then
    [broadcastEvent]) and hands it to the feed engine twice (the wrapper
    around [broadcastEvent], then [createPost] itself).  The result is
    that of one [broadcastEvent] followed by one [addEvent]. *)
Theorem publishPost_once (peers : list PeerId) (myPublicKey : list byte)
    (postEvent : Event) (s : Node * FeedEngine) :
  is_post postEvent = true ->
  publishPost peers myPublicKey postEvent s
  = (fst (broadcastEvent peers postEvent (fst s)),
     addEvent myPublicKey (db (fst (broadcastEvent peers postEvent (fst s))))
              postEvent (snd s),
     snd (broadcastEvent peers postEvent (fst s))).
Proof.
  intros Hp. unfold publishPost, wrappedBroadcast, broadcastEvent.
  cbn [fst snd db gossip]. rewrite Hp, storeEvent_storeEvent, addEvent_addEvent.
  reflexivity.
Qed.

(** X24: [getFeedItemsSince] reads the home feed, whatever the topic
    filter is.  On an engine reached by the engine's own operations its
    result is a prefix of the home feed: the items after it are not newer
    than the given time. *)
Theorem getFeedItemsSince_prefix (myPublicKey : list byte) (ops : list FeedOp)
    (t : Z) :
  exists k : nat,
    getFeedItemsSince t (feedRun myPublicKey ops)
    = List.firstn k (feedItems (feedRun myPublicKey ops))
    /\ Forall (fun item => FeedItem.timestamp item <= t)
              (List.skipn k (feedItems (feedRun myPublicKey ops))).
Proof.
  apply filter_newer_prefix. unfold feedRun.
  apply feedRun_home_sorted. constructor.
Qed.

End FeedMoreFacts.

Lemma publishPost_once_witness :
  let p := Sim.post 1000 Sim.alice "hello" "tech" in
  is_post p = true
  /\ map (fun item => id (FeedItem.event item))
         (feedItems (snd (fst (@publishPost Sim.platform [peerB] Sim.alice p
                                 (freshNode, newFeedEngine)))))
     = [id p].
Proof.
  intros p.
  assert (Hp : is_post p = true) by (vm_compute; reflexivity).
  split; [exact Hp|].
  rewrite (@publishPost_once Sim.platform [peerB] Sim.alice p
             (freshNode, newFeedEngine) Hp).
  vm_compute. reflexivity.
Defined.

(** ** User names *)

Lemma is_word_plain (c : ascii) :
  Str.is_word c = true -> Str.lower c = c /\ Str.is_white c = false.
Proof.
  destruct c as [[] [] [] [] [] [] [] []]; intros Hw;
    first [discriminate Hw | split; reflexivity].
Qed.

Lemma filter_everyChar (p : ascii -> bool) (s : string) :
  everyChar p (Str.filter p s) = true.
Proof.
  induction s as [|c r IH]; simpl; [reflexivity|].
  destruct (p c) eqn:Hp; simpl; [rewrite Hp|]; exact IH.
Qed.

Lemma slice0_everyChar (p : ascii -> bool) (k : nat) (s : string) :
  everyChar p s = true -> everyChar p (Str.slice0 k s) = true.
Proof.
  revert k. induction s as [|c r IH]; intros [|k]; simpl; try reflexivity.
  intros Hp. apply Bool.andb_true_iff in Hp as [-> Hr]. exact (IH k Hr).
Qed.

Lemma slice0_length (k : nat) (s : string) :
  (String.length (Str.slice0 k s) <= k)%nat.
Proof.
  revert s. induction k as [|k IH]; intros [|c r]; simpl; try lia.
  specialize (IH r). lia.
Qed.

Lemma slice0_short (k : nat) (s : string) :
  (String.length s <= k)%nat -> Str.slice0 k s = s.
Proof.
  revert k. induction s as [|c r IH]; intros [|k]; simpl; try reflexivity; try lia.
  intros Hl. rewrite IH by lia. reflexivity.
Qed.

Lemma filter_kept (p : ascii -> bool) (s : string) :
  everyChar p s = true -> Str.filter p s = s.
Proof.
  induction s as [|c r IH]; simpl; [reflexivity|].
  intros Hp. apply Bool.andb_true_iff in Hp as [-> Hr]. rewrite IH by exact Hr.
  reflexivity.
Qed.

Lemma toLowerCase_word (s : string) :
  everyChar Str.is_word s = true -> Str.toLowerCase s = s.
Proof.
  induction s as [|c r IH]; simpl; [reflexivity|].
  intros Hp. apply Bool.andb_true_iff in Hp as [Hc Hr].
  rewrite IH by exact Hr. rewrite (proj1 (is_word_plain c Hc)). reflexivity.
Qed.

Lemma trim_word (s : string) :
  everyChar Str.is_word s = true -> Str.trim s = s.
Proof.
  intros Hp. unfold Str.trim.
  assert (Hstart : Str.trimStart s = s).
  { destruct s as [|c r]; simpl in *; [reflexivity|].
    apply Bool.andb_true_iff in Hp as [Hc _].
    rewrite (proj2 (is_word_plain c Hc)). reflexivity. }
  rewrite Hstart. clear Hstart.
  induction s as [|c r IH]; simpl in *; [reflexivity|].
  apply Bool.andb_true_iff in Hp as [Hc Hr]. rewrite IH by exact Hr.
  rewrite (proj2 (is_word_plain c Hc)). destruct r; reflexivity.
Qed.

(** X25: [normalizeUsername] returns at most 30 characters, all of them
    in [a-z0-9_], and a name it returned is left as it is.  The result can
    be shorter than three characters; [isUsernameValid] is the test that
    it has at least three (its test of the upper bound never fails). *)
Theorem normalizeUsername_shape (input : string) :
  (String.length (normalizeUsername input) <= 30)%nat
  /\ everyChar Str.is_word (normalizeUsername input) = true
  /\ normalizeUsername (normalizeUsername input) = normalizeUsername input
  /\ isUsernameValid input = (3 <=? String.length (normalizeUsername input))%nat
  /\ normalizeUsername " -- " = EmptyString.
Proof.
  assert (Hlen : (String.length (normalizeUsername input) <= 30)%nat)
    by apply slice0_length.
  assert (Hword : everyChar Str.is_word (normalizeUsername input) = true)
    by apply slice0_everyChar, filter_everyChar.
  split; [exact Hlen|]. split; [exact Hword|]. split; [|split; [|reflexivity]].
  - unfold normalizeUsername at 1.
    rewrite (trim_word _ Hword), (toLowerCase_word _ Hword), (filter_kept _ _ Hword).
    apply slice0_short, Hlen.
  - unfold isUsernameValid. cbv zeta.
    rewrite (proj2 (Nat.leb_le _ _) Hlen), Bool.andb_true_r. reflexivity.
Qed.

(** ** The synchronous event id *)

Lemma toInt32_range (z : Z) : - 2 ^ 31 <= toInt32 z < 2 ^ 31.
Proof.
  unfold toInt32.
  pose proof (Z.mod_pos_bound (z + 2 ^ 31) (2 ^ 32) ltac:(lia)) as Hm.
  change (2 ^ 32) with (2 * 2 ^ 31) in *. lia.
Qed.

Lemma hashLoop_range (canonical : string) (hash : Z) :
  - 2 ^ 31 <= hash < 2 ^ 31 -> - 2 ^ 31 <= hashLoop canonical hash < 2 ^ 31.
Proof.
  revert hash. induction canonical as [|c r IH]; intros hash Hh; simpl; [exact Hh|].
  apply IH. unfold hashStep. apply toInt32_range.
Qed.

Lemma length_append (a b : string) :
  String.length (String.append a b) = (String.length a + String.length b)%nat.
Proof. induction a as [|c r IH]; simpl; [reflexivity|]. rewrite IH. reflexivity. Qed.

Lemma append_assoc (a b c : string) :
  String.append (String.append a b) c = String.append a (String.append b c).
Proof.
  induction a as [|x r IH]; [reflexivity|].
  change (String x (String.append (String.append r b) c)
          = String x (String.append r (String.append b c))).
  rewrite IH. reflexivity.
Qed.

Lemma zeros_add (a b : nat) : zeros (a + b) = String.append (zeros a) (zeros b).
Proof. induction a as [|a IH]; simpl; [reflexivity|]. rewrite IH. reflexivity. Qed.

Lemma zeros_length (k : nat) : String.length (zeros k) = k.
Proof. induction k as [|k IH]; simpl; [reflexivity|]. rewrite IH. reflexivity. Qed.

Lemma toString16_length (n : Z) :
  forall k : nat, (1 <= k)%nat -> 0 <= n < 16 ^ Z.of_nat k ->
                  (1 <= String.length (toString16 n) <= k)%nat.
Proof.
  funelim (toString16 n); intros k Hk Hn.
  - simpl. lia.
  - rewrite length_append. simpl.
    destruct k as [|[|k]]; [lia| |].
    + change (16 ^ Z.of_nat 1) with 16 in Hn. lia.
    + assert (Hdiv : 0 <= n / 16 < 16 ^ Z.of_nat (S k)).
      { split; [apply Z.div_pos; lia|].
        apply Z.div_lt_upper_bound; [lia|].
        replace (Z.of_nat (S (S k))) with (Z.of_nat (S k) + 1) in Hn by lia.
        rewrite Z.pow_add_r in Hn by lia. lia. }
      specialize (H (S k) ltac:(lia) Hdiv). lia.
Qed.

Section EventIdSyncFacts.
Context `{Platform}.

(** X26: the id [createEventIdSync] makes has sixteen characters, and the
    first eight are always the digit zero: the hash is a 32-bit integer,
    whose absolute value has at most eight hexadecimal digits. *)
Theorem createEventIdSync_short (type author : string) (timestamp : Z)
    (content : Content) :
  exists tail : string,
    createEventIdSync type author timestamp content
    = String.append "00000000" tail
    /\ String.length tail = 8%nat.
Proof.
  unfold createEventIdSync. cbv zeta.
  set (hash := hashLoop _ 0).
  assert (Hh : - 2 ^ 31 <= hash < 2 ^ 31) by (apply hashLoop_range; lia).
  assert (Hl : (1 <= String.length (toString16 (Z.abs hash)) <= 8)%nat).
  { apply toString16_length; [lia|].
    change (16 ^ Z.of_nat 8) with (2 * 2 ^ 31). lia. }
  set (digits := toString16 (Z.abs hash)) in *.
  exists (String.append (zeros (8 - String.length digits)) digits).
  split.
  - unfold padStart0.
    replace (16 - String.length digits)%nat
      with (8 + (8 - String.length digits))%nat by lia.
    rewrite zeros_add, append_assoc. reflexivity.
  - rewrite length_append, zeros_length. lia.
Qed.

End EventIdSyncFacts.

(** ** Event ids of one author *)

(** X27: [getEventIdsByAuthor] returns the ids of the stored events of
    that author, each once, and every one of them is among
    [getAllEventIds]. *)
Theorem getEventIdsByAuthor_sound (a : string) (d : DB) :
  (forall i : string,
     In i (getEventIdsByAuthor a d)
     <-> exists e : Event, In e (events d) /\ author e = a /\ id e = i)
  /\ List.NoDup (getEventIdsByAuthor a d)
  /\ (forall i : string, In i (getEventIdsByAuthor a d) -> In i (getAllEventIds d)).
Proof.
  assert (Hin : forall i : string,
             In i (getEventIdsByAuthor a d)
             <-> exists e : Event, In e (events d) /\ author e = a /\ id e = i).
  { intros i. unfold getEventIdsByAuthor, cursor_only.
    rewrite newSet_In, List.in_map_iff. split.
    - intros (e & Hid & He). apply List.filter_In in He as [He Ha].
      apply String.eqb_eq in Ha. eauto.
    - intros (e & He & Ha & Hid). exists e. split; [exact Hid|].
      apply List.filter_In. split; [exact He|]. apply String.eqb_eq, Ha. }
  split; [exact Hin|]. split.
  - unfold getEventIdsByAuthor.
    generalize (map id (cursor_only (fun e => Some (author e)) a (events d))).
    intros l. induction l as [|x r IH]; simpl; constructor.
    + intros Hx. apply List.filter_In in Hx as [_ Hx].
      rewrite String.eqb_refl in Hx. discriminate.
    + clear -IH. induction IH as [|y r' Hy Hr IH']; simpl; [constructor|].
      destruct (negb (String.eqb y x)); [|exact IH'].
      constructor; [|exact IH'].
      intros Hin. apply Hy. apply List.filter_In in Hin as [Hin _]. exact Hin.
  - intros i Hi. apply Hin in Hi as (e & He & _ & <-).
    apply getAllEventIds_In, List.in_map, He.
Qed.

(** ** What a valid event looks like *)

Lemma trimEnd_trimEnd (s : string) : Str.trimEnd (Str.trimEnd s) = Str.trimEnd s.
Proof.
  induction s as [|c r IH]; simpl; [reflexivity|].
  destruct (Str.trimEnd r) as [|c' r'] eqn:Hr.
  - destruct (Str.is_white c) eqn:Hw; simpl; [reflexivity|]. rewrite Hw. reflexivity.
  - change (Str.trimEnd (String c (String c' r')))
      with (match Str.trimEnd (String c' r') with
            | EmptyString =>
                if Str.is_white c then EmptyString else String c EmptyString
            | x => String c x
            end).
    rewrite IH. reflexivity.
Qed.

Lemma trimStart_length (s : string) :
  (String.length (Str.trimStart s) <= String.length s)%nat.
Proof.
  induction s as [|c r IH]; simpl; [lia|].
  destruct (Str.is_white c); simpl; lia.
Qed.

Lemma trimStart_fixed (c : ascii) (r : string) :
  Str.trimStart (String c r) = String c r -> Str.is_white c = false.
Proof.
  simpl. destruct (Str.is_white c); [|reflexivity].
  intros Hu. pose proof (trimStart_length r) as Hl. rewrite Hu in Hl.
  simpl in Hl. lia.
Qed.

Lemma trimStart_trimStart (s : string) :
  Str.trimStart (Str.trimStart s) = Str.trimStart s.
Proof.
  induction s as [|c r IH]; simpl; [reflexivity|].
  destruct (Str.is_white c) eqn:Hw; [exact IH|]. simpl. rewrite Hw. reflexivity.
Qed.

Lemma trim_trim (s : string) : Str.trim (Str.trim s) = Str.trim s.
Proof.
  unfold Str.trim.
  pose proof (trimStart_trimStart s) as Hu.
  destruct (Str.trimStart s) as [|c r]; [reflexivity|].
  apply trimStart_fixed in Hu.
  assert (Hkeep : Str.trimStart (Str.trimEnd (String c r)) = Str.trimEnd (String c r)).
  { simpl. destruct (Str.trimEnd r); rewrite ?Hu; simpl; rewrite Hu; reflexivity. }
  rewrite Hkeep. apply trimEnd_trimEnd.
Qed.

Lemma put_length {V : Type} (keyPath : V -> string) (v : V) (s : list V) :
  (List.length (put keyPath v s) <= S (List.length s))%nat.
Proof.
  induction s as [|x r IH]; simpl; [lia|].
  destruct (String.compare (keyPath v) (keyPath x)); simpl; lia.
Qed.

Lemma getPostsByTopic_all (topic : string) (limit : Z) (d : DB) (e : Event) :
  Z.of_nat (List.length (events d)) <= limit ->
  In e (events d) -> is_post e = true ->
  normalizedTopic e = Str.or_else (Str.toLowerCase (Str.trim topic)) DEFAULT_TOPIC ->
  In e (getPostsByTopic topic limit d).
Proof.
  intros Hbig Hin Hp Ht. unfold getPostsByTopic, slice0.
  destruct (Z.ltb_spec limit 0) as [Hneg|_]; [lia|].
  rewrite List.firstn_all2.
  - apply sort_In, List.filter_In. split.
    + unfold getEventsInRange. apply sort_In, sort_In, List.filter_In. auto.
    + rewrite Hp, Ht, String.eqb_refl. reflexivity.
  - rewrite sort_length.
    etransitivity; [apply List.filter_length_le|].
    unfold getEventsInRange. rewrite !sort_length.
    etransitivity; [apply List.filter_length_le|]. lia.
Qed.

Section ValidEventFacts.
Context `{Platform}.

(** X29: an event whose id is not the hash of its canonical form is
    answered [false] by [verifyEvent] and by [isValidEvent]: the id is
    compared before the signature and the author are decoded, so such an
    event cannot make the validation throw. *)
Theorem wrong_id_rejected (e : Event) :
  id e <> createEventIdAsync (type e) (author e) (timestamp e) (content e) ->
  verifyEvent e = Some false /\ isValidEvent e = Some false.
Proof.
  intros Hne.
  assert (Hver : verifyEvent e = Some false).
  { unfold verifyEvent.
    destruct (String.eqb_spec
                (createEventIdAsync (type e) (author e) (timestamp e) (content e))
                (id e)) as [He|_]; [|reflexivity].
    exfalso. apply Hne. now symmetry. }
  split; [exact Hver|]. unfold isValidEvent. rewrite Hver.
  destruct (_ || _); [reflexivity|]. destruct (negb _); reflexivity.
Qed.

(** X30: a post made by [createPostEvent] and stored is found by
    [getPostsByTopic] under its topic, however the topic asked for is
    written in upper and lower case and surrounded by white space, when
    the limit exceeds the size of the store.  A post made without a topic,
    or with a blank one, is found under the empty topic and under
    general. *)
Theorem created_post_found_by_topic (now : Z) (text : string)
    (publicKey privateKey : list byte) (mentions : option (list string))
    (replyTo : option string) (payload : option EncryptedPostContent)
    (topic' : option string) (asked : string) (limit : Z) (d : DB) :
  Z.of_nat (List.length (events d)) < limit ->
  Str.toLowerCase (Str.trim asked) = Str.toLowerCase (Str.trim (default "" topic'))
  \/ (Str.trim (default "" topic') = EmptyString
      /\ Str.toLowerCase (Str.trim asked) = DEFAULT_TOPIC) ->
  let p := createPostEvent now text publicKey privateKey mentions replyTo payload
                           topic' in
  In p (getPostsByTopic asked limit (storeEvent p d)).
Proof.
  intros Hbig Hasked p. apply getPostsByTopic_all.
  - simpl. pose proof (put_length id p (events d)). lia.
  - apply put_In.
  - reflexivity.
  - assert (Hnorm : normalizedTopic p
                    = Str.or_else (Str.toLowerCase (Str.trim (default "" topic')))
                                  DEFAULT_TOPIC).
    { assert (Hcontent :
                content_topic (content p)
                = Some match topic' with
                       | Some t => Str.or_else (Str.trim t) DEFAULT_TOPIC
                       | None => DEFAULT_TOPIC
                       end).
      { unfold p, createPostEvent, signEvent. destruct payload; reflexivity. }
      unfold normalizedTopic. rewrite Hcontent.
      destruct topic' as [t|]; [|reflexivity].
      change (Str.toLowerCase (Str.trim (Str.or_else (Str.trim t) DEFAULT_TOPIC))
              = Str.or_else (Str.toLowerCase (Str.trim t)) DEFAULT_TOPIC).
      unfold Str.or_else.
      pose proof (trim_trim t) as Htt.
      destruct (Str.trim t) as [|c r]; [reflexivity|].
      change (Str.truthy (String c r)) with true.
      change (Str.truthy (Str.toLowerCase (String c r))) with true.
      cbv iota. rewrite Htt. reflexivity. }
    rewrite Hnorm. destruct Hasked as [->|[Hblank ->]]; [reflexivity|].
    rewrite Hblank. reflexivity.
Qed.

End ValidEventFacts.

Lemma wrong_id_rejected_witness :
  let p := Sim.post 1000 Sim.alice "hello" "tech" in
  let forged := {| id := "ffff"; type := type p; author := author p;
                   timestamp := timestamp p; signature := "!";
                   content := content p |} in
  id forged <> @createEventIdAsync SimStrict.platform (type forged) (author forged)
                 (timestamp forged) (content forged)
  /\ @isValidEvent SimStrict.platform forged = Some false.
Proof.
  intros p forged.
  assert (Hne : id forged <> @createEventIdAsync SimStrict.platform (type forged)
                               (author forged) (timestamp forged) (content forged)).
  { vm_compute. discriminate. }
  split; [exact Hne|]. exact (proj2 (@wrong_id_rejected SimStrict.platform forged Hne)).
Defined.

Lemma created_post_found_by_topic_witness :
  let p := @createPostEvent Sim.platform 1000 "hello" Sim.alice Sim.alice None None
             None (Some " Tech ") in
  Z.of_nat (List.length (events emptyDB)) < 100
  /\ In p (getPostsByTopic "TECH" 100 (storeEvent p emptyDB)).
Proof.
  intros p. assert (Hl : Z.of_nat (List.length (events emptyDB)) < 100)
    by (simpl; lia).
  split; [exact Hl|].
  exact (@created_post_found_by_topic Sim.platform 1000 "hello" Sim.alice Sim.alice
           None None None (Some " Tech ") "TECH" 100 emptyDB Hl
           (or_introl eq_refl)).
Defined.
